(** * jrpc-transport-tls: a JSON-RPC transport over a TLS socket

    Shallow embedding of [src/index.js] (class [TLSTransport] and the private
    socket handlers) and the properties of its connection life cycle and of
    its newline framing; and of the documentation plugin
    [src/jsdoc-promise.js] (module [JSDoc], which states its own convention
    for strings).

    Conventions of the embedding.
    - A JavaScript string is a [string]; the socket is put in ['utf8'] mode by
      [createSocket], so every inbound chunk is a string as well.  The line
      feed is the character of code 10, which never occurs inside a multi-byte
      UTF-8 sequence.
    - A JavaScript number is kept as the exact rational it denotes ([JSNum]);
      every finite binary64 value is such a rational.
    - A plain object is a finite map from property names to values.
    - The instance's private record ([_data.get(this)]) is [TData]; everything
      the handlers reach besides it (listeners of the emitter, the
      [setImmediate] queue, timers, promises, the calls made on sockets) is
      collected in [World], and each method or handler is a function on
      [World]. *)

From Stdlib Require Import ZArith QArith Qabs Qround String Ascii List Lia.
From stdpp Require Import base option list gmap strings.

#[local] Set Warnings "-register-all".
#[local] Open Scope string_scope.
#[local] Open Scope Z_scope.

(** ** JavaScript values *)

Module JS.

Inductive JSNum : Type :=
| NaN
| Inf (negative : bool)
| Fin (q : Q).

Inductive JSValue : Type :=
| JSUndefined
| JSNull
| JSBoolean (b : bool)
| JSNumber (n : JSNum)
| JSString (s : string)
| JSArray (items : list JSValue)
| JSObject (props : gmap string JSValue).

(** An [Error] instance: its [name] and its [message]. *)
Record JSError : Type := MkError { name : string; message : string }.

Definition Error (msg : string) : JSError := MkError "Error" msg.
Definition TypeError (msg : string) : JSError := MkError "TypeError" msg.
Definition SyntaxError (msg : string) : JSError := MkError "SyntaxError" msg.

(** [class DisconnectedError extends Error], [this.name = 'DisconnectedError']
    (index.js, 19-30). *)
Definition DisconnectedError (msg : string) : JSError :=
  MkError "DisconnectedError" msg.

#[global] Instance JSError_eq_dec : EqDecision JSError.
Proof. solve_decision. Defined.

(** [typeof v] *)
Definition typeof (v : JSValue) : string :=
  match v with
  | JSUndefined => "undefined"
  | JSNull => "object"
  | JSBoolean _ => "boolean"
  | JSNumber _ => "number"
  | JSString _ => "string"
  | JSArray _ => "object"
  | JSObject _ => "object"
  end.

(** ToBoolean, the test performed by [if (v)]. *)
Definition ToBoolean (v : JSValue) : bool :=
  match v with
  | JSUndefined => false
  | JSNull => false
  | JSBoolean b => b
  | JSNumber NaN => false
  | JSNumber (Inf _) => true
  | JSNumber (Fin q) => negb (Qeq_bool q 0)
  | JSString s => negb (String.eqb s EmptyString)
  | JSArray _ => true
  | JSObject _ => true
  end.

(** [Object.assign(target, ...sources)]: the own enumerable properties of each
    source are written to the target, later sources winning; an [undefined]
    or [null] source is skipped.  (A string or array source would contribute
    its index keys; the transport never passes one.) *)
Definition own_enumerable (v : JSValue) : gmap string JSValue :=
  match v with
  | JSObject props => props
  | _ => ∅
  end.

Definition Object_assign (target : gmap string JSValue) (sources : list JSValue)
  : gmap string JSValue :=
  foldl (fun acc src => own_enumerable src ∪ acc) target sources.

(** The double quote, for messages that contain one. *)
Definition dq : string := String (ascii_of_nat 34) EmptyString.

(** *** String primitives used by the framing code *)

Definition LF : ascii := ascii_of_nat 10.

(** [s.indexOf(pat)]: position of the first occurrence, [-1] when absent. *)
Definition indexOf (s pat : string) : Z :=
  match String.index 0 pat s with
  | Some n => Z.of_nat n
  | None => -1
  end.

(** Start position of [substr]: a negative start counts from the end. *)
Definition substr_start (s : string) (start : Z) : nat :=
  let size := Z.of_nat (String.length s) in
  Z.to_nat (if start <? 0 then Z.max (size + start) 0 else Z.min start size).

(** [s.substr(start, len)] *)
Definition substr (s : string) (start len : Z) : string :=
  String.substring (substr_start s start) (Z.to_nat len) s.

(** [s.substr(start)] *)
Definition substr_from (s : string) (start : Z) : string :=
  String.substring (substr_start s start) (String.length s) s.

End JS.
Export JS.

(** ** The check-types predicates used by the transport

    [check-types] is an external package ([require('check-types')]), not code
    of this repository; its predicates follow the package's documentation:
    [nonEmptyString(x)], x is a non-empty string; [inRange(x, a, b)], x is a
    number in the range a .. b (integrality is a separate predicate,
    [integer], which the transport does not call); [object(x)], x is a plain
    object; [maybe], true for [null] and [undefined], otherwise the predicate;
    [assert], throws a TypeError carrying the message when the predicate is
    false. *)

Module check.

Definition nonEmptyString (v : JSValue) : bool :=
  match v with
  | JSString s => negb (String.eqb s EmptyString)
  | _ => false
  end.

Definition inRange (v : JSValue) (a b : Q) : bool :=
  match v with
  | JSNumber (Fin q) => Qle_bool a q && Qle_bool q b
  | _ => false
  end.

Definition object (v : JSValue) : bool :=
  match v with
  | JSObject _ => true
  | _ => false
  end.

Definition maybe (predicate : JSValue -> bool) (v : JSValue) : bool :=
  match v with
  | JSUndefined | JSNull => true
  | _ => predicate v
  end.

(** [check.assert.<predicate>(v, msg)]: [None] when the predicate holds, the
    thrown error otherwise. *)
Definition assert (holds : bool) (msg : string) : option JSError :=
  if holds then None else Some (TypeError msg).

End check.

(** ** The JSON codec

    [JSON.parse] is a built-in of the engine, not code of this repository.
    The transport's theorems below are stated for an arbitrary codec (a
    section variable); [JSON.parse] is a model of the ECMAScript function
    (ECMA-262, 25.5.1, grammar of ECMA-404), used to run the transport on
    concrete inputs.  A thrown [SyntaxError] is the right injection; the
    engine's message text is not modelled. *)

Module JSON.

Definition is_ws (c : ascii) : bool :=
  let n := N_of_ascii c in
  ((n =? 32) || (n =? 9) || (n =? 10) || (n =? 13))%N.

Fixpoint skip_ws (s : string) : string :=
  match s with
  | String c s' => if is_ws c then skip_ws s' else s
  | EmptyString => s
  end.

Definition digit_of (c : ascii) : option N :=
  let n := N_of_ascii c in
  if ((48 <=? n) && (n <=? 57))%N then Some (n - 48)%N else None.

Definition hex_of (c : ascii) : option N :=
  let n := N_of_ascii c in
  if ((48 <=? n) && (n <=? 57))%N then Some (n - 48)%N
  else if ((65 <=? n) && (n <=? 70))%N then Some (n - 55)%N
  else if ((97 <=? n) && (n <=? 102))%N then Some (n - 87)%N
  else None.

(** A maximal run of decimal digits: its value, its length, the rest. *)
Fixpoint digits (acc : N) (count : nat) (s : string) : N * nat * string :=
  match s with
  | String c s' =>
      match digit_of c with
      | Some d => digits (10 * acc + d)%N (S count) s'
      | None => (acc, count, s)
      end
  | EmptyString => (acc, count, s)
  end.

(** *** Rounding a rational to the nearest binary64 value, ties to even *)

Definition pow2 (e : Z) : Q :=
  if 0 <=? e then inject_Z (2 ^ e) else 1 # Z.to_pos (2 ^ (- e)).

Definition pow10 (e : Z) : Q :=
  if 0 <=? e then inject_Z (10 ^ e) else 1 # Z.to_pos (10 ^ (- e)).

(** For [a > 0], the exponent [e] with [2^e <= a < 2^(e+1)]. *)
Definition floor_log2 (a : Q) : Z :=
  let e0 := Z.log2 (Qnum a) - Z.log2 (Zpos (Qden a)) in
  if Qle_bool (pow2 e0) a then e0 else e0 - 1.

Definition round_half_even (x : Q) : Z :=
  let f := Qfloor x in
  match (x - inject_Z f ?= 1 # 2)%Q with
  | Lt => f
  | Gt => f + 1
  | Eq => if Z.even f then f else f + 1
  end.

Definition binary64 (q : Q) : JSNum :=
  if Qeq_bool q 0 then Fin 0
  else
    let a := Qabs q in
    let e := Z.max (floor_log2 a) (-1022) in
    let ulp := pow2 (e - 52) in
    let m := round_half_even (a / ulp) in
    let r := (inject_Z m * ulp)%Q in
    if Qle_bool (pow2 1024) r then Inf (Qle_bool q 0)
    else Fin (Qred (if Qle_bool q 0 then - r else r)).

(** *** Numbers: an optional minus sign, an integer part without leading
    zero, an optional fraction, an optional exponent *)

Definition parse_int (s : string) : option (N * string) :=
  match s with
  | String c s' =>
      if Ascii.eqb c "0" then Some (0%N, s')
      else match digits 0 0 s with
           | (_, O, _) => None
           | (n, _, rest) => Some (n, rest)
           end
  | EmptyString => None
  end.

Definition parse_frac (s : string) : option (N * nat * string) :=
  match s with
  | String c s' =>
      if Ascii.eqb c "." then
        match digits 0 0 s' with
        | (_, O, _) => None
        | r => Some r
        end
      else Some (0%N, O, s)
  | EmptyString => Some (0%N, O, s)
  end.

Definition parse_exp (s : string) : option (Z * string) :=
  match s with
  | String c s' =>
      if Ascii.eqb c "e" || Ascii.eqb c "E" then
        let '(neg, s'') :=
          match s' with
          | String d t =>
              if Ascii.eqb d "-" then (true, t)
              else if Ascii.eqb d "+" then (false, t) else (false, s')
          | EmptyString => (false, s')
          end in
        match digits 0 0 s'' with
        | (_, O, _) => None
        | (n, _, rest) => Some (if neg then - Z.of_N n else Z.of_N n, rest)
        end
      else Some (0, s)
  | EmptyString => Some (0, s)
  end.

Definition parse_number (s : string) : option (JSNum * string) :=
  let '(neg, s1) :=
    match s with
    | String c t => if Ascii.eqb c "-" then (true, t) else (false, s)
    | EmptyString => (false, s)
    end in
  match parse_int s1 with
  | None => None
  | Some (i, s2) =>
      match parse_frac s2 with
      | None => None
      | Some (f, flen, s3) =>
          match parse_exp s3 with
          | None => None
          | Some (e, s4) =>
              let mant := Z.of_N (i * 10 ^ N.of_nat flen + f) in
              let q := (inject_Z (if neg then - mant else mant)
                        * pow10 (e - Z.of_nat flen))%Q in
              Some (binary64 q, s4)
          end
      end
  end.

(** *** Strings *)

(** A code point given by [\u] escapes, as the bytes that stand for it in
    the embedding's strings: one escape gives a UTF-16 code unit, and a high
    surrogate followed at once by a low one gives the one character the pair
    stands for, of four bytes.  (A surrogate on its own has no UTF-8 form;
    it is kept as the three bytes of its number.) *)
Definition bytes_of_code_unit (n : N) : string :=
  let byte (k : N) := String (ascii_of_N k) EmptyString in
  if (n <? 128)%N then byte n
  else if (n <? 2048)%N then byte (192 + n / 64)%N ++ byte (128 + n mod 64)%N
  else if (n <? 65536)%N then
    byte (224 + n / 4096)%N ++ byte (128 + (n / 64) mod 64)%N
    ++ byte (128 + n mod 64)%N
  else byte (240 + n / 262144)%N ++ byte (128 + (n / 4096) mod 64)%N
       ++ byte (128 + (n / 64) mod 64)%N ++ byte (128 + n mod 64)%N.

Definition high_surrogate (n : N) : bool := (55296 <=? n)%N && (n <=? 56319)%N.
Definition low_surrogate (n : N) : bool := (56320 <=? n)%N && (n <=? 57343)%N.

(** The code point of a surrogate pair. *)
Definition of_surrogates (hi lo : N) : N :=
  (65536 + (hi - 55296) * 1024 + (lo - 56320))%N.

(** The number written by four hexadecimal digits. *)
Definition hex4 (h1 h2 h3 h4 : ascii) : option N :=
  match hex_of h1, hex_of h2, hex_of h3, hex_of h4 with
  | Some a, Some b, Some c, Some d => Some (a * 4096 + b * 256 + c * 16 + d)%N
  | _, _, _, _ => None
  end.

(** The low surrogate written by a [\u] escape, when the six characters are
    one. *)
Definition low_escape (b1 b2 l1 l2 l3 l4 : ascii) : option N :=
  if Ascii.eqb b1 "\" && Ascii.eqb b2 "u" then
    match hex4 l1 l2 l3 l4 with
    | Some lo => if low_surrogate lo then Some lo else None
    | None => None
    end
  else None.

Definition escape_of (c : ascii) : option string :=
  let one (k : N) := Some (String (ascii_of_N k) EmptyString) in
  if Ascii.eqb c (ascii_of_nat 34) then one 34%N
  else if Ascii.eqb c "\" then one 92%N
  else if Ascii.eqb c "/" then one 47%N
  else if Ascii.eqb c "b" then one 8%N
  else if Ascii.eqb c "f" then one 12%N
  else if Ascii.eqb c "n" then one 10%N
  else if Ascii.eqb c "r" then one 13%N
  else if Ascii.eqb c "t" then one 9%N
  else None.

(** The characters after an opening quote, up to the closing one. *)
Fixpoint parse_string_body (s : string) : option (string * string) :=
  match s with
  | EmptyString => None
  | String c s' =>
      if Ascii.eqb c (ascii_of_nat 34) then Some (EmptyString, s')
      else if Ascii.eqb c "\" then
        match s' with
        | String e t =>
            if Ascii.eqb e "u" then
              match t with
              | String h1 (String h2 (String h3 (String h4 t'))) =>
                  match hex4 h1 h2 h3 h4 with
                  | Some unit =>
                      let single :=
                        match parse_string_body t' with
                        | Some (str, rest) =>
                            Some (bytes_of_code_unit unit ++ str, rest)
                        | None => None
                        end in
                      match t' with
                      | String b1 (String b2 (String l1 (String l2
                          (String l3 (String l4 t''))))) =>
                          match (if high_surrogate unit
                                 then low_escape b1 b2 l1 l2 l3 l4
                                 else None) with
                          | Some lo =>
                              match parse_string_body t'' with
                              | Some (str, rest) =>
                                  Some (bytes_of_code_unit
                                          (of_surrogates unit lo) ++ str,
                                        rest)
                              | None => None
                              end
                          | None => single
                          end
                      | _ => single
                      end
                  | None => None
                  end
              | _ => None
              end
            else
              match escape_of e with
              | Some x =>
                  match parse_string_body t with
                  | Some (str, rest) => Some (x ++ str, rest)
                  | None => None
                  end
              | None => None
              end
        | EmptyString => None
        end
      else if (N_of_ascii c <? 32)%N then None
      else
        match parse_string_body s' with
        | Some (str, rest) => Some (String c str, rest)
        | None => None
        end
  end.

Fixpoint strip_prefix (lit s : string) : option string :=
  match lit, s with
  | EmptyString, _ => Some s
  | String a lit', String b s' =>
      if Ascii.eqb a b then strip_prefix lit' s' else None
  | String _ _, EmptyString => None
  end.

(** *** Values

    [fuel] bounds the depth of the calls.  A call of [parse_elements] or
    [parse_members] comes after an opening bracket or a separator, and a
    value takes at least one character, so twice the length of the text plus
    two, the fuel [parse] gives, is not exhausted. *)

Fixpoint parse_value (fuel : nat) (s : string) : option (JSValue * string) :=
  match fuel with
  | O => None
  | S fuel' =>
      match skip_ws s with
      | EmptyString => None
      | String c rest as s0 =>
          if Ascii.eqb c "{" then
            match skip_ws rest with
            | String c1 r1 =>
                if Ascii.eqb c1 "}" then Some (JSObject ∅, r1)
                else parse_members fuel' rest ∅
            | EmptyString => None
            end
          else if Ascii.eqb c "[" then
            match skip_ws rest with
            | String c1 r1 =>
                if Ascii.eqb c1 "]" then Some (JSArray [], r1)
                else parse_elements fuel' rest []
            | EmptyString => None
            end
          else if Ascii.eqb c (ascii_of_nat 34) then
            match parse_string_body rest with
            | Some (str, r) => Some (JSString str, r)
            | None => None
            end
          else if Ascii.eqb c "t" then
            option_map (pair (JSBoolean true)) (strip_prefix "true" s0)
          else if Ascii.eqb c "f" then
            option_map (pair (JSBoolean false)) (strip_prefix "false" s0)
          else if Ascii.eqb c "n" then
            option_map (pair JSNull) (strip_prefix "null" s0)
          else
            match parse_number s0 with
            | Some (n, r) => Some (JSNumber n, r)
            | None => None
            end
      end
  end
with parse_elements (fuel : nat) (s : string) (acc : list JSValue)
  : option (JSValue * string) :=
  match fuel with
  | O => None
  | S fuel' =>
      match parse_value fuel' s with
      | Some (v, r) =>
          match skip_ws r with
          | String c r' =>
              if Ascii.eqb c "," then parse_elements fuel' r' (acc ++ [v])
              else if Ascii.eqb c "]" then Some (JSArray (acc ++ [v]), r')
              else None
          | EmptyString => None
          end
      | None => None
      end
  end
with parse_members (fuel : nat) (s : string) (acc : gmap string JSValue)
  : option (JSValue * string) :=
  match fuel with
  | O => None
  | S fuel' =>
      match skip_ws s with
      | String q s1 =>
          if Ascii.eqb q (ascii_of_nat 34) then
            match parse_string_body s1 with
            | Some (key, s2) =>
                match skip_ws s2 with
                | String colon s3 =>
                    if Ascii.eqb colon ":" then
                      match parse_value fuel' s3 with
                      | Some (v, r) =>
                          match skip_ws r with
                          | String c r' =>
                              if Ascii.eqb c ","
                              then parse_members fuel' r' (<[key := v]> acc)
                              else if Ascii.eqb c "}"
                              then Some (JSObject (<[key := v]> acc), r')
                              else None
                          | EmptyString => None
                          end
                      | None => None
                      end
                    else None
                | EmptyString => None
                end
            | None => None
            end
          else None
      | EmptyString => None
      end
  end.

(** [JSON.parse(text)]: the parsed value, or the thrown [SyntaxError]. *)
Definition parse (text : string) : JSValue + JSError :=
  match parse_value (2 * String.length text + 2) text with
  | Some (v, rest) =>
      if String.eqb (skip_ws rest) EmptyString then inl v
      else inr (SyntaxError "Unexpected token in JSON")
  | None => inr (SyntaxError "Unexpected token in JSON")
  end.

End JSON.

(** ** The documentation plugin ([src/jsdoc-promise.js])

    The plugin looks at characters beyond ASCII ([trim], the [.] of its
    regular expression, the em dash it writes), so in this module a
    JavaScript string is the list of its UTF-16 code units, as the language
    has it; [units] gives the code units of an ASCII literal.

    What the engine provides is modelled from ECMAScript:
    [String.prototype.trim] removes white space and line terminators at both
    ends, [String.prototype.match] with a non-global pattern runs the
    backtracking matcher at each start index in turn, and
    [String.prototype.split] with a one-character separator cuts at every
    occurrence.  The set of white-space code units has changed between
    Unicode versions (U+180E), so [trim] takes it from the engine as a
    parameter; [WhiteSpace] is the set of ECMAScript 2016 and later. *)

Module JSDoc.

#[local] Open Scope list_scope.

Abbreviation Str := (list N).

Definition units (s : string) : Str :=
  map N_of_ascii (list_ascii_of_string s).

(** LineTerminator: LF, CR, LS, PS. *)
Definition LineTerminator (c : N) : bool :=
  ((c =? 10) || (c =? 13) || (c =? 8232) || (c =? 8233))%N.

(** WhiteSpace and LineTerminator, what [trim] removes: TAB, VT, FF, SP,
    NBSP, ZWNBSP, the other space separators, and the line terminators. *)
Definition WhiteSpace (c : N) : bool :=
  ((c =? 9) || (c =? 11) || (c =? 12) || (c =? 32) || (c =? 160) ||
   (c =? 65279) || (c =? 5760) || ((8192 <=? c) && (c <=? 8202)) ||
   (c =? 8239) || (c =? 8287) || (c =? 12288))%N || LineTerminator c.

(** *** Regular expressions

    The constructs the plugin's pattern uses, and the backtracking matcher of
    ECMAScript for them: a matcher takes the position, the rest of the input,
    the captures so far and a continuation; quantifiers are greedy; a group
    records the text it matched. *)

Inductive Regex : Type :=
| Char (c : N)
| Class (p : N -> bool)
| Seq (r1 r2 : Regex)
| Opt (r : Regex)
| Star (p : N -> bool)
| Plus (p : N -> bool)
| Group (i : nat) (r : Regex)
| Bol
| Eol.

Abbreviation Captures := (gmap nat (list N)).
Abbreviation Cont := (nat -> list N -> gmap nat (list N) ->
                      option (gmap nat (list N) * nat)).

Fixpoint star (p : N -> bool) (pos : nat) (rest : Str) (caps : Captures)
  (k : Cont) : option (Captures * nat) :=
  match rest with
  | c :: rest' =>
      if p c then
        match star p (S pos) rest' caps k with
        | Some r => Some r
        | None => k pos rest caps
        end
      else k pos rest caps
  | [] => k pos rest caps
  end.

Fixpoint matcher (r : Regex) (pos : nat) (rest : Str) (caps : Captures)
  (k : Cont) : option (Captures * nat) :=
  match r with
  | Char c =>
      match rest with
      | x :: rest' => if (x =? c)%N then k (S pos) rest' caps else None
      | [] => None
      end
  | Class p =>
      match rest with
      | x :: rest' => if p x then k (S pos) rest' caps else None
      | [] => None
      end
  | Seq r1 r2 =>
      matcher r1 pos rest caps
        (fun pos' rest' caps' => matcher r2 pos' rest' caps' k)
  | Opt r1 =>
      match matcher r1 pos rest caps
              (fun pos' rest' caps' =>
                 if (pos' =? pos)%nat then None else k pos' rest' caps') with
      | Some r => Some r
      | None => k pos rest caps
      end
  | Star p => star p pos rest caps k
  | Plus p =>
      match rest with
      | x :: rest' => if p x then star p (S pos) rest' caps k else None
      | [] => None
      end
  | Group i r1 =>
      matcher r1 pos rest caps
        (fun pos' rest' caps' =>
           k pos' rest' (<[i := take (pos' - pos) rest]> caps'))
  | Bol => if (pos =? 0)%nat then k pos rest caps else None
  | Eol =>
      match rest with
      | [] => k pos rest caps
      | _ :: _ => None
      end
  end.

(** The search of a pattern without the [g] and [y] flags: the matcher is
    tried at index 0, then 1, and so on up to the end of the input; the
    result is the first index where it succeeds, the end of that match and
    its captures. *)
Fixpoint search (r : Regex) (pos : nat) (rest : Str) :
  option (nat * nat * Captures) :=
  match matcher r pos rest ∅ (fun pos' _ caps => Some (caps, pos')) with
  | Some (caps, e) => Some (pos, e, caps)
  | None =>
      match rest with
      | [] => None
      | _ :: rest' => search r (S pos) rest'
      end
  end.

(** [s.match(r)] for a pattern [r] with [ngroups] groups: [null], or the
    array of the whole match and of each group's text ([undefined] for a
    group that took no part). *)
Definition String_match (r : Regex) (ngroups : nat) (s : Str) :
  option (list (option Str)) :=
  match search r 0 s with
  | Some (b, e, caps) =>
      Some (Some (take (e - b) (drop b s)) ::
            map (fun i => caps !! i) (seq 1 ngroups))
  | None => None
  end.

(** [/^({[^}]*})?(.+)?$/i]; the [i] flag changes nothing, neither brace
    having another case. *)
Definition pattern : Regex :=
  Seq Bol
    (Seq (Opt (Group 1
                 (Seq (Char 123)
                    (Seq (Star (fun c => negb (c =? 125)%N)) (Char 125)))))
       (Seq (Opt (Group 2 (Plus (fun c => negb (LineTerminator c)))))
          Eol)).

(** [s.split(sep)] for a separator of one code unit. *)
Fixpoint split (sep : N) (s : Str) : list Str :=
  match s with
  | [] => [[]]
  | c :: s' =>
      if (c =? sep)%N then [] :: split sep s'
      else match split sep s' with
           | piece :: pieces => (c :: piece) :: pieces
           | [] => [[c]]
           end
  end.

(** [s.substr(start, length)] for a [start] within the string. *)
Definition substr (start len : nat) (s : Str) : Str :=
  take len (drop start s).

(** [items.join(sep)]. *)
Fixpoint join (sep : Str) (items : list Str) : Str :=
  match items with
  | [] => []
  | [x] => x
  | x :: rest => x ++ sep ++ join sep rest
  end.

(** Truthiness of a string or [undefined]. *)
Definition truthy (v : option Str) : bool :=
  match v with
  | Some (_ :: _) => true
  | _ => false
  end.

(** [v || ''] for a string or [undefined]. *)
Definition or_empty (v : option Str) : Str := default [] v.

Definition backtick : Str := [96%N].
Definition em_dash : Str := [8212%N].
Definition double_quote : Str := [34%N].

(** ['&nbsp;&nbsp;—&nbsp;&nbsp;'], what [formatDescription] puts before
    the text. *)
Definition text_prefix : Str :=
  units "&nbsp;&nbsp;" ++ em_dash ++ units "&nbsp;&nbsp;".

(** What [formatSymbolInfo] puts before the description. *)
Definition caption_html (caption : Str) : Str :=
  units "<b class=" ++ double_quote ++ units "caption" ++ double_quote ++
  units ">" ++ caption ++ units ":</b> ".

(** What [newDoclet] puts around the joined items, and between them. *)
Definition list_open : Str :=
  units "<p></p><div class=" ++ double_quote ++ units "pad-left" ++
  double_quote ++ units "><ul><li>".
Definition list_sep : Str := units "</li><li>".
Definition list_close : Str := units "</li></ul></div>".

Section Engine.

(** The code units that [trim] removes. *)
Variable StrWhiteSpace : N -> bool.

Fixpoint trimStart (s : Str) : Str :=
  match s with
  | c :: s' => if StrWhiteSpace c then trimStart s' else s
  | [] => []
  end.

Definition trimEnd (s : Str) : Str := rev (trimStart (rev s)).

Definition trim (s : Str) : Str := trimEnd (trimStart s).

(** [formatDescription] (jsdoc-promise.js, 85-127); [None] is [false].  The
    array of a match of [pattern] always has three entries. *)
Definition formatDescription (description : Str) : option Str :=
  match String_match pattern 2 description with
  | Some [_; m1; m2] =>
      let text := trim (or_empty m2) in
      let '(type, link) :=
        if truthy m1 then
          let whole := or_empty m1 in
          let parts := take 2 (split 32 (substr 1 (length whole - 2) whole)) in
          match parts with
          | p0 :: ps => (Some p0, head ps)
          | [] => (Some [], None)
          end
        else (m1, None) in
      if truthy type then
        let type' :=
          if truthy link
          then backtick ++ units "{@link " ++ or_empty link ++ units "|" ++
               or_empty type ++ units "}" ++ backtick
          else backtick ++ or_empty type ++ backtick in
        Some (type' ++ match text with
                       | [] => text
                       | _ :: _ => text_prefix ++ text
                       end)
      else
        match text with
        | [] => None
        | _ :: _ => Some ((em_dash ++ units " ") ++ text_prefix ++ text)
        end
  | _ => None
  end.

(** [formatSymbolInfo] (jsdoc-promise.js, 75-83); the description is a tag's
    value, a string or [undefined]. *)
Definition formatSymbolInfo (caption : Str) (description : option Str) :
  option Str :=
  match formatDescription (trim (or_empty description)) with
  | Some (c :: d) => Some (caption_html caption ++ c :: d)
  | _ => None
  end.

(** *** Doclets

    The properties of a doclet that the plugin reads or writes.  The value of
    a tag that can have a type is an object with an optional [type] and an
    optional [description], or [undefined]; the value of a tag that cannot is
    its text, or [undefined]. *)

Record TypeObject : Type := MkType { names : list Str }.

Record TagValue : Type := MkTagValue {
  type : option TypeObject;
  description : option Str
}.

Record Tag : Type := MkTag {
  originalTitle : Str;
  title : Str;
  text : Str
}.

Record Doclet : Type := MkDoclet {
  promise : option TagValue;
  resolves : option (list (option Str));
  rejects : option (list (option Str));
  returns : option (list TagValue);
  tags : option (list Tag)
}.

(** The [onTagged] callbacks of [defineTags] (jsdoc-promise.js, 1-31). *)
Definition onTagged_promise (doclet : Doclet) (value : option TagValue) :
  Doclet :=
  MkDoclet value (resolves doclet) (rejects doclet) (returns doclet)
    (tags doclet).

Definition onTagged_resolve (doclet : Doclet) (value : option Str) : Doclet :=
  MkDoclet (promise doclet) (Some (default [] (resolves doclet) ++ [value]))
    (rejects doclet) (returns doclet) (tags doclet).

Definition onTagged_reject (doclet : Doclet) (value : option Str) : Doclet :=
  MkDoclet (promise doclet) (resolves doclet)
    (Some (default [] (rejects doclet) ++ [value])) (returns doclet)
    (tags doclet).

(** The three tags of the dictionary, each with the value jsdoc gives it,
    and what tagging a doclet with one of them does. *)
Inductive Tagged : Type :=
| PromiseTag (value : option TagValue)
| ResolveTag (value : option Str)
| RejectTag (value : option Str).

Definition onTagged (doclet : Doclet) (tag : Tagged) : Doclet :=
  match tag with
  | PromiseTag value => onTagged_promise doclet value
  | ResolveTag value => onTagged_resolve doclet value
  | RejectTag value => onTagged_reject doclet value
  end.

(** [list.map(formatSymbolInfo.bind(undefined, caption)).filter(x => x)]. *)
Definition infos (caption : Str) (values : option (list (option Str))) :
  list Str :=
  omap (formatSymbolInfo caption) (default [] values).

(** [handlers.newDoclet] (jsdoc-promise.js, 34-72).  [returns] is the object
    held by [doclet.promise], so what is written to it shows there too. *)
Definition newDoclet (doclet : Doclet) : Doclet :=
  match promise doclet with
  | Some value =>
      let type' := match type value with
                   | Some t => t
                   | None => MkType [units "Promise"]
                   end in
      let description' := or_empty (description value) in
      let extraInfos := infos (units "Resolve") (resolves doclet) ++
                        infos (units "Reject") (rejects doclet) in
      let description'' :=
        match extraInfos with
        | [] => description'
        | _ :: _ =>
            description' ++ list_open ++ join list_sep extraInfos ++ list_close
        end in
      let returns' := MkTagValue (Some type') (Some description'') in
      MkDoclet (Some returns') (resolves doclet) (rejects doclet)
        (Some [returns'])
        (Some (default [] (tags doclet) ++
               [MkTag (units "promise") (units "promise") []]))
  | None => doclet
  end.

End Engine.

(** *** What the properties are stated with *)

(** The text before and after the first occurrence of a code unit. *)
Fixpoint break_at (d : N) (s : list N) : option (list N * list N) :=
  match s with
  | [] => None
  | c :: s' =>
      if (c =? d)%N then Some ([], s')
      else match break_at d s' with
           | Some (a, b) => Some (c :: a, b)
           | None => None
           end
  end.

(** The content of a leading brace group and what follows it. *)
Definition leading_group (s : list N) : option (list N * list N) :=
  match s with
  | c :: s' => if (c =? 123)%N then break_at 125 s' else None
  | [] => None
  end.

(** A string without line terminator. *)
Definition no_terminator (s : list N) : bool :=
  forallb (fun c => negb (LineTerminator c)) s.

(** A capture: [undefined] for the empty text, which a group of this pattern
    never matches. *)
Definition capture (s : list N) : option (list N) :=
  match s with
  | [] => None
  | _ :: _ => Some s
  end.

(** The last continuation of [search]. *)
Definition accept : Cont := fun pos' _ caps => Some (caps, pos').

(** The second half of the pattern, [(.+)?$]. *)
Definition pattern_tail : Regex :=
  Seq (Opt (Group 2 (Plus (fun c => negb (LineTerminator c))))) Eol.

(** The first half of the pattern, [({[^}]*})]. *)
Definition pattern_group : Regex :=
  Group 1
    (Seq (Char 123) (Seq (Star (fun c => negb (c =? 125)%N)) (Char 125))).

(** What the second half of [formatDescription] makes of a type name, a
    link and a text. *)
Definition render (name : list N) (link : option (list N)) (text : list N) :
  option (list N) :=
  match name with
  | _ :: _ =>
      Some ((if truthy link
             then backtick ++ units "{@link " ++ or_empty link ++ units "|" ++
                  name ++ units "}" ++ backtick
             else backtick ++ name ++ backtick) ++
            match text with
            | [] => []
            | _ :: _ => text_prefix ++ text
            end)
  | [] =>
      match text with
      | [] => None
      | _ :: _ => Some ((em_dash ++ units " ") ++ text_prefix ++ text)
      end
  end.

(** A string without a given code unit. *)
Definition without (c : N) (s : list N) : bool :=
  forallb (fun x => negb (x =? c)%N) s.

(** A brace group without a type name: empty, or beginning with a space. *)
Definition no_type_name (inner : list N) : bool :=
  match inner with
  | [] => true
  | c :: _ => (c =? 32)%N
  end.

(** The values of the tags of each kind, in their order. *)
Definition promise_values (ts : list Tagged) : list (option TagValue) :=
  flat_map (fun t => match t with PromiseTag v => [v] | _ => [] end) ts.

Definition resolve_values (ts : list Tagged) : list (option (list N)) :=
  flat_map (fun t => match t with ResolveTag v => [v] | _ => [] end) ts.

Definition reject_values (ts : list Tagged) : list (option (list N)) :=
  flat_map (fun t => match t with RejectTag v => [v] | _ => [] end) ts.

End JSDoc.

(** ** The transport *)

(** Socket handles, promises and timers are named by numbers. *)
Abbreviation Handle := nat.
Abbreviation PromiseId := nat.
Abbreviation TimerId := nat.

(** The record kept in [_data] for the instance.  [buffer] is absent
    ([None]) until the first chunk arrives: the constructor does not create
    it and [onSocketData] tests [typeof data.buffer !== 'string']. *)
Record TData : Type := MkTData {
  options : gmap string JSValue;
  socket : option Handle;
  connected : bool;
  error : option JSError;
  buffer : option string
}.

(** The four events of the emitter. *)
Inductive Notification : Type :=
| NConnected
| NDisconnected (err : option JSError)
| NData (message : JSValue)
| NError (err : JSError).

Inductive Settlement : Type :=
| Pending
| Resolved
| Rejected (reason : JSError).

(** Which method returned a promise. *)
Inductive Origin : Type := ByConnect | ByDisconnect | BySend.

Record Promise : Type := MkPromise { origin : Origin; state : Settlement }.

(** The listeners the transport registers on itself, all with [once]:
    [connect]'s [onConnected] (on 'connected') and [onDisconnected] (on
    'disconnected'), and [disconnect]'s [onDisconnected] (on 'disconnected'),
    which closes over its [destroyTimeout]. *)
Inductive Listener : Type :=
| ConnectOnConnected (p : PromiseId)
| ConnectOnDisconnected (p : PromiseId)
| DisconnectOnDisconnected (p : PromiseId) (destroyTimeout : TimerId).

#[global] Instance Listener_eq_dec : EqDecision Listener.
Proof. solve_decision. Defined.

(** Calls made on the socket primitive, in program order. *)
Inductive SocketCall : Type :=
| TlsConnect (h : Handle) (opts : gmap string JSValue)
| SetEncoding (h : Handle) (encoding : string)
| SetKeepAlive (h : Handle) (enable : bool)
| SetNoDelay (h : Handle) (enable : bool)
| SocketEnd (h : Handle)
| SocketDestroy (h : Handle)
| SocketWrite (h : Handle) (chunk : string) (encoding : string)
    (callback : PromiseId).

Inductive TimerState : Type := Armed | Fired | Cleared.

(** [setTimeout(socket.destroy.bind(socket), delay)] *)
Record Timer : Type := MkTimer {
  target : Handle;
  delay : Z;
  tstate : TimerState
}.

Record World : Type := MkWorld {
  data : TData;
  listeners : list Listener;
  immediates : list Notification;
  timers : list Timer;
  writes : list PromiseId;
  promises : list Promise;
  calls : list SocketCall;
  emitted : list Notification
}.

(** Field updates. *)
Definition set_data (d : TData) (w : World) : World :=
  MkWorld d (listeners w) (immediates w) (timers w) (writes w) (promises w)
    (calls w) (emitted w).
Definition set_listeners (l : list Listener) (w : World) : World :=
  MkWorld (data w) l (immediates w) (timers w) (writes w) (promises w)
    (calls w) (emitted w).
Definition set_immediates (q : list Notification) (w : World) : World :=
  MkWorld (data w) (listeners w) q (timers w) (writes w) (promises w)
    (calls w) (emitted w).
Definition set_timers (t : list Timer) (w : World) : World :=
  MkWorld (data w) (listeners w) (immediates w) t (writes w) (promises w)
    (calls w) (emitted w).
Definition set_writes (ws : list PromiseId) (w : World) : World :=
  MkWorld (data w) (listeners w) (immediates w) (timers w) ws (promises w)
    (calls w) (emitted w).
Definition set_promises (ps : list Promise) (w : World) : World :=
  MkWorld (data w) (listeners w) (immediates w) (timers w) (writes w) ps
    (calls w) (emitted w).
Definition set_calls (cs : list SocketCall) (w : World) : World :=
  MkWorld (data w) (listeners w) (immediates w) (timers w) (writes w)
    (promises w) cs (emitted w).
Definition set_emitted (ns : list Notification) (w : World) : World :=
  MkWorld (data w) (listeners w) (immediates w) (timers w) (writes w)
    (promises w) (calls w) ns.

Definition set_socket (s : option Handle) (d : TData) : TData :=
  MkTData (options d) s (connected d) (error d) (buffer d).
Definition set_connected (c : bool) (d : TData) : TData :=
  MkTData (options d) (socket d) c (error d) (buffer d).
Definition set_error (e : option JSError) (d : TData) : TData :=
  MkTData (options d) (socket d) (connected d) e (buffer d).
Definition set_buffer (b : option string) (d : TData) : TData :=
  MkTData (options d) (socket d) (connected d) (error d) b.

(** [new Promise(...)]: the promise gets the next identifier. *)
Definition new_promise (o : Origin) (s : Settlement) (w : World) : World :=
  set_promises (promises w ++ [MkPromise o s]) w.

(** [resolve()] or [reject(e)]: only a pending promise changes. *)
Definition settle_promise (s : Settlement) (pr : Promise) : Promise :=
  match state pr with
  | Pending => MkPromise (origin pr) s
  | _ => pr
  end.

Definition settle (p : PromiseId) (s : Settlement) (w : World) : World :=
  set_promises (alter (settle_promise s) p (promises w)) w.

(** [setImmediate(this.emit.bind(this, ...))] *)
Definition setImmediate (n : Notification) (w : World) : World :=
  set_immediates (immediates w ++ [n]) w.

Definition removeListener (l : Listener) (w : World) : World :=
  set_listeners (filter (fun x => x <> l) (listeners w)) w.

Definition clearTimeout (t : TimerId) (w : World) : World :=
  set_timers
    (alter (fun tm => match tstate tm with
                      | Armed => MkTimer (target tm) (delay tm) Cleared
                      | _ => tm
                      end) t (timers w)) w.

(** *** Construction (index.js, 68-90) *)

Definition host_message : string :=
  "missing/invalid " ++ dq ++ "host" ++ dq ++ " option".
Definition port_message : string :=
  "missing/invalid " ++ dq ++ "port" ++ dq ++ " option".
Definition extra_message : string :=
  "invalid " ++ dq ++ "extra" ++ dq ++ " option".

(** [constructor({ host, port, extra })], given the three destructured
    values: the thrown error, or the record stored in [_data]. *)
Definition constructor (host port extra : JSValue) : JSError + TData :=
  match check.assert (check.nonEmptyString host) host_message with
  | Some e => inl e
  | None =>
  match check.assert (check.inRange port 1 65535) port_message with
  | Some e => inl e
  | None =>
  match check.assert (check.maybe check.object extra) extra_message with
  | Some e => inl e
  | None =>
      let extra' :=
        Object_assign {[ "rejectUnauthorized" := JSBoolean true ]}
          [ extra;
            JSObject (<["host" := host]> (<["port" := port]>
                     (<["path" := JSUndefined]>
                     (<["socket" := JSUndefined]> ∅)))) ] in
      inr {| options := extra'; socket := None; connected := false;
             error := None; buffer := None |}
  end end end.

(** The world right after a successful construction. *)
Definition new_world (d : TData) : World :=
  MkWorld d [] [] [] [] [] [] [].

(** *** [createSocket] (index.js, 269-283) *)

(** What the call of [tls.connect] does: it returns a socket, or it throws.
    It checks its options before it opens anything, and the constructor lets
    through options that it refuses; which of the two happens is for the
    environment to say. *)
Inductive TlsOutcome : Type :=
| TlsReturns
| TlsThrows (e : JSError).

(** The handle returned by [tls.connect]: distinct from every earlier one,
    since each creation logs calls.  The five [socket.on(...)] registrations
    of [createSocket] are the five socket inputs of [step] below. *)
Definition fresh_handle (w : World) : Handle := length (calls w).

(** [createSocket]: the error thrown by [tls.connect], which [createSocket]
    does not catch, or the socket and the calls made on it. *)
Definition createSocket (tls : TlsOutcome) (opts : gmap string JSValue)
  (w : World) : JSError + Handle * World :=
  match tls with
  | TlsThrows e => inl e
  | TlsReturns =>
      let h := fresh_handle w in
      inr (h, set_calls (calls w ++ [TlsConnect h opts; SetEncoding h "utf8";
                                     SetKeepAlive h true; SetNoDelay h true])
                w)
  end.

(** *** [connect] (index.js, 120-156)

    Both listeners are registered and [data.connected] is written before
    [createSocket] is called.  When [tls.connect] throws, the throw leaves
    the executor of the promise, which rejects the promise with it:
    [data.socket] is not written, and the two listeners stay registered. *)

Definition connect (tls : TlsOutcome) (w : World) : World :=
  let d := data w in
  match socket d with
  | Some _ =>
      if connected d then new_promise ByConnect Resolved w
      else new_promise ByConnect
             (Rejected (Error "Connection already in progress")) w
  | None =>
      let p := length (promises w) in
      let w := new_promise ByConnect Pending w in
      let w := set_listeners
                 (listeners w ++ [ConnectOnConnected p;
                                  ConnectOnDisconnected p]) w in
      let d := set_connected false d in
      match createSocket tls (options d) w with
      | inr (h, w) => set_data (set_socket (Some h) d) w
      | inl e => settle p (Rejected e) (set_data d w)
      end
  end.

(** *** [disconnect] (index.js, 163-186) *)

Definition disconnect (w : World) : World :=
  match socket (data w) with
  | None => new_promise ByDisconnect Resolved w
  | Some h =>
      let p := length (promises w) in
      let w := new_promise ByDisconnect Pending w in
      let destroyTimeout := length (timers w) in
      let w := set_timers (timers w ++ [MkTimer h 5000 Armed]) w in
      let w := set_listeners
                 (listeners w ++ [DisconnectOnDisconnected p destroyTimeout])
                 w in
      set_calls (calls w ++ [SocketEnd h]) w
  end.

(** *** [send] (index.js, 199-215) *)

Definition send_message : string :=
  "missing/invalid " ++ dq ++ "data" ++ dq ++ " parameter".

Definition send (d : JSValue) (w : World) : World :=
  if negb (check.nonEmptyString d) then
    new_promise BySend (Rejected (TypeError send_message)) w
  else if negb (connected (data w)) then
    new_promise BySend
      (Rejected (DisconnectedError "Transport not connected")) w
  else
    match d, socket (data w) with
    | JSString text, Some h =>
        let p := length (promises w) in
        let w := new_promise BySend Pending w in
        let w := set_calls
                   (calls w ++ [SocketWrite h (text ++ String LF EmptyString)
                                  "utf8" p]) w in
        set_writes (writes w ++ [p]) w
    | _, _ =>
        (* [socket] is null: the call throws inside the executor *)
        new_promise BySend
          (Rejected (TypeError "Cannot read properties of null")) w
    end.

(** *** Socket handlers (index.js, 291-349) *)

Definition onSocketSecureConnect (w : World) : World :=
  let d := set_connected true (set_error None (data w)) in
  setImmediate NConnected (set_data d w).

Definition onSocketTimeout (w : World) : World :=
  let d := set_error (Some (Error "Connection timed out")) (data w) in
  disconnect (set_data d w).

Definition onSocketError (err : JSError) (w : World) : World :=
  set_data (set_error (Some err) (data w)) w.

Definition onSocketClose (w : World) : World :=
  let d := data w in
  let err := error d in
  let d := set_connected false (set_socket None (set_error None d)) in
  setImmediate (NDisconnected err) (set_data d w).

(** *** Emitting an event

    [emit] calls the listeners registered for the event, in registration
    order.  Each is a [once] listener: it is removed, then run.  Listeners of
    the consumer are outside the transport; [emitted] records what they are
    handed.  (What the consumer's side does with an event, including the
    emitter's rule that an 'error' event without a listener throws, is not
    part of the transport.) *)

Definition on_connected (l : Listener) : bool :=
  match l with
  | ConnectOnConnected _ => true
  | _ => false
  end.

Definition run_listener (arg : option JSError) (w : World) (l : Listener)
  : World :=
  let w := removeListener l w in
  match l with
  | ConnectOnConnected p =>
      settle p Resolved (removeListener (ConnectOnDisconnected p) w)
  | ConnectOnDisconnected p =>
      let w := removeListener (ConnectOnConnected p) w in
      settle p (Rejected (match arg with
                          | Some err => err
                          | None => Error "Connection failed"
                          end)) w
  | DisconnectOnDisconnected p destroyTimeout =>
      settle p Resolved (clearTimeout destroyTimeout w)
  end.

(** The transport's own listeners for an event, and the argument they are
    called with. *)
Definition listeners_for (n : Notification) (w : World) : list Listener :=
  match n with
  | NConnected => filter on_connected (listeners w)
  | NDisconnected _ => filter (fun l => negb (on_connected l)) (listeners w)
  | NData _ | NError _ => []
  end.

Definition event_arg (n : Notification) : option JSError :=
  match n with
  | NDisconnected err => err
  | _ => None
  end.

Definition call_listeners (n : Notification) (w : World) : World :=
  foldl (run_listener (event_arg n)) w (listeners_for n w).

Definition emit (n : Notification) (w : World) : World :=
  let w := call_listeners n w in
  set_emitted (emitted w ++ [n]) w.

(** What the environment can do to the transport.  [CallConnect] is a call
    of [connect()] in which [tls.connect], if it is reached, returns a
    socket; [CallConnectThrows e] is one in which it throws [e]. *)
Inductive Input : Type :=
| CallConnect
| CallDisconnect
| CallSend (d : JSValue)
| SockSecureConnect
| SockTimeout
| SockError (err : JSError)
| SockClose
| SockData (chunk : string)
| RunImmediate
| TimerFire (t : TimerId)
| WriteDone (p : PromiseId)
| CallConnectThrows (e : JSError).

Definition from_socket (i : Input) : bool :=
  match i with
  | SockSecureConnect | SockTimeout | SockError _ | SockClose | SockData _ =>
      true
  | _ => false
  end.

(** The socket primitive raises events only on a handle that [tls.connect]
    returned and that has not raised 'close' yet; the handlers are bound to
    the one handle held in [socket]. *)
Definition enabled (w : World) (i : Input) : bool :=
  if from_socket i then bool_decide (is_Some (socket (data w))) else true.

Definition newline : string := String LF EmptyString.

(** [data.buffer] once [if (typeof data.buffer !== 'string') data.buffer = '']
    has run. *)
Definition buffer_text (d : TData) : string :=
  match buffer d with
  | Some b => b
  | None => EmptyString
  end.

(** Several [setImmediate] calls in a row. *)
Definition schedule (ns : list Notification) (w : World) : World :=
  set_immediates (immediates w ++ ns) w.

Section Transport.

(** [JSON.parse], as the codec in use. *)
Variable JSON_parse : string -> JSValue + JSError.

(** *** [onSocketData] (index.js, 357-387) *)

(** The [while (delimiter >= 0)] loop.  Each round removes [delimiter + 1 >=
    1] characters, so [fuel] above the buffer's length is never exhausted
    ([onSocketData_loop_exits]). *)
Fixpoint onSocketData_loop (fuel : nat) (buf : string) (delimiter : Z)
  (w : World) : string * World :=
  match fuel with
  | O => (buf, w)
  | S fuel' =>
      if 0 <=? delimiter then
        let '(message, w) :=
          match JSON_parse (substr buf 0 delimiter) with
          | inl v => (v, w)
          | inr err => (JSUndefined, setImmediate (NError err) w)
          end in
        let w :=
          if ToBoolean message then setImmediate (NData message) w else w in
        let buf := substr_from buf (delimiter + 1) in
        onSocketData_loop fuel' buf (indexOf buf newline) w
      else (buf, w)
  end.

Definition onSocketData (chunk : string) (w : World) : World :=
  let d := data w in
  let buf := buffer_text d in
  let buf := buf ++ chunk in
  let '(buf, w) :=
    onSocketData_loop (S (String.length buf)) buf (indexOf buf newline) w in
  set_data (set_buffer (Some buf) (data w)) w.

(** *** One step of the event loop *)

Definition step (w : World) (i : Input) : World :=
  match i with
  | CallConnect => connect TlsReturns w
  | CallConnectThrows e => connect (TlsThrows e) w
  | CallDisconnect => disconnect w
  | CallSend d => send d w
  | SockSecureConnect => onSocketSecureConnect w
  | SockTimeout => onSocketTimeout w
  | SockError err => onSocketError err w
  | SockClose => onSocketClose w
  | SockData chunk => onSocketData chunk w
  | RunImmediate =>
      match immediates w with
      | n :: q => emit n (set_immediates q w)
      | [] => w
      end
  | TimerFire t =>
      match timers w !! t with
      | Some (MkTimer h ms Armed) =>
          set_calls (calls w ++ [SocketDestroy h])
            (set_timers (<[t := MkTimer h ms Fired]> (timers w)) w)
      | _ => w
      end
  | WriteDone p =>
      if bool_decide (p ∈ writes w) then
        settle p Resolved (set_writes (filter (fun x => x <> p) (writes w)) w)
      else w
  end.

Definition run (w : World) (trace : list Input) : World := foldl step w trace.

(** Worlds the transport can be in: constructed, then driven by enabled
    inputs. *)
Inductive reachable : World -> Prop :=
| reachable_new host port extra d :
    constructor host port extra = inr d -> reachable (new_world d)
| reachable_step w i :
    reachable w -> enabled w i = true -> reachable (step w i).

(** A trace whose inputs are all enabled when they occur. *)
Fixpoint enabled_trace (w : World) (trace : list Input) : bool :=
  match trace with
  | [] => true
  | i :: trace' => enabled w i && enabled_trace (step w i) trace'
  end.

(** Every notification scheduled so far, delivered or still queued. *)
Definition history (w : World) : list Notification :=
  emitted w ++ immediates w.

(** *** The framing, in the words of the specification

    The complete lines of a text (each ended by a line feed, which is not
    part of the line) and the unterminated remainder. *)
Fixpoint lines_from (cur : string) (s : string) : list string * string :=
  match s with
  | EmptyString => ([], cur)
  | String c s' =>
      if Ascii.eqb c LF then
        let '(ls, r) := lines_from EmptyString s' in (cur :: ls, r)
      else lines_from (cur ++ String c EmptyString) s'
  end.

Definition complete_lines (s : string) : list string := fst (lines_from EmptyString s).
Definition remainder (s : string) : string := snd (lines_from EmptyString s).

(** The notification a line gives rise to: [error] when the codec throws,
    [data] when the parsed value passes [if (message)], nothing otherwise. *)
Definition notify (line : string) : list Notification :=
  match JSON_parse line with
  | inr err => [NError err]
  | inl v => if ToBoolean v then [NData v] else []
  end.

Definition concat_chunks (chunks : list string) : string :=
  foldr String.append EmptyString chunks.

Definition receive (w : World) (chunks : list string) : World :=
  run w (map SockData chunks).

(** The text split at its first line feed, when it has one. *)
Fixpoint split_first (s : string) : option (string * string) :=
  match s with
  | EmptyString => None
  | String c s' =>
      if Ascii.eqb c LF then Some (EmptyString, s')
      else match split_first s' with
           | Some (pre, post) => Some (String c pre, post)
           | None => None
           end
  end.

(** The promise a method call returned: the one created last. *)
Definition returned (w : World) : option Promise := last (promises w).

Definition origins (w : World) : list Origin := map origin (promises w).

(** The promise a listener settles, the method that registered the listener,
    and the settlement it makes when run with argument [arg]. *)
Definition listener_promise (l : Listener) : PromiseId :=
  match l with
  | ConnectOnConnected p | ConnectOnDisconnected p
  | DisconnectOnDisconnected p _ => p
  end.

Definition listener_origin (l : Listener) : Origin :=
  match l with
  | ConnectOnConnected _ | ConnectOnDisconnected _ => ByConnect
  | DisconnectOnDisconnected _ _ => ByDisconnect
  end.

Definition verdict (arg : option JSError) (l : Listener) : Settlement :=
  match l with
  | ConnectOnConnected _ => Resolved
  | ConnectOnDisconnected _ =>
      Rejected (match arg with
                | Some err => err
                | None => Error "Connection failed"
                end)
  | DisconnectOnDisconnected _ _ => Resolved
  end.

(** The conditions on the constructor's parameters, in words. *)
Definition non_empty_string (v : JSValue) : Prop :=
  exists s, v = JSString s /\ s <> EmptyString.

Definition number_in_range (v : JSValue) (a b : Q) : Prop :=
  exists q, v = JSNumber (Fin q) /\ (a <= q)%Q /\ (q <= b)%Q.

Definition integer_in_range (v : JSValue) (a b : Z) : Prop :=
  exists (q : Q) (n : Z),
    v = JSNumber (Fin q) /\ (q == inject_Z n)%Q /\ a <= n <= b.

Definition absent_or_object (v : JSValue) : Prop :=
  v = JSUndefined \/ v = JSNull \/ exists props, v = JSObject props.

Definition throws {A} (r : JSError + A) : Prop :=
  exists e, r = inl e.

Definition not_disconnected (n : Notification) : Prop :=
  forall e, n <> NDisconnected e.

(** Inputs that are not a chunk of inbound data. *)
Definition not_data (i : Input) : bool :=
  match i with
  | SockData _ => false
  | _ => true
  end.


Definition timed_out : JSError := Error "Connection timed out".

(** A payload that is missing, empty or not a string. *)
Definition invalid_payload (d : JSValue) : Prop :=
  d = JSUndefined \/ d = JSString EmptyString \/ typeof d <> "string".

(** The lines of a text put back on the wire. *)
Definition frame_lines (lines : list string) : string :=
  foldr (fun l acc => l ++ newline ++ acc) EmptyString lines.

(** The keys of the connection target. *)
Definition target_keys : list string := ["host"; "port"; "path"; "socket"].

(** What holds of every reachable world. *)
Record Inv (w : World) : Prop := MkInv {
  inv_connected : connected (data w) = true -> is_Some (socket (data w));
  inv_error : socket (data w) = None -> error (data w) = None;
  inv_listeners : forall l, l ∈ listeners w ->
    origins w !! listener_promise l = Some (listener_origin l);
  inv_writes : forall p, p ∈ writes w ->
    promises w !! p = Some (MkPromise BySend Pending);
  inv_disconnect : forall p pr, promises w !! p = Some pr ->
    origin pr = ByDisconnect ->
    state pr = Resolved \/
    (state pr = Pending /\
     exists t, DisconnectOnDisconnected p t ∈ listeners w)
}.

(** *** The getters, and what the transport keeps tidy *)

(** [get isConnected()] (index.js, 108-112). *)
Definition isConnected (w : World) : bool := connected (data w).

(** [get needsConnection()] (index.js, 98-100). *)
Definition needsConnection (w : World) : bool := true.

(** The listener that a listener removes, besides itself, when it runs:
    [connect]'s two listeners remove each other. *)
Definition partner (l : Listener) : Listener :=
  match l with
  | ConnectOnConnected p => ConnectOnDisconnected p
  | ConnectOnDisconnected p => ConnectOnConnected p
  | DisconnectOnDisconnected p t => DisconnectOnDisconnected p t
  end.

(** The state of a promise that still has a listener registered: pending,
    or, for a promise of [connect()] whose [tls.connect] threw, rejected. *)
Definition awaited (o : Origin) (st : Settlement) : Prop :=
  st = Pending \/ (o = ByConnect /\ exists e, st = Rejected e).

(** The transport's own bookkeeping: listeners are registered once, each for
    a promise of the method that registered it, which is still pending
    unless [tls.connect] threw; [connect]'s two listeners come and go
    together; every armed timer and every pending promise of [connect] has
    its listener. *)
Record Tidy (w : World) : Prop := MkTidy {
  tidy_nodup : NoDup (listeners w);
  tidy_owner : forall l, l ∈ listeners w ->
    exists st, promises w !! listener_promise l =
                 Some (MkPromise (listener_origin l) st) /\
               awaited (listener_origin l) st;
  tidy_pair : forall p,
    ConnectOnConnected p ∈ listeners w <->
    ConnectOnDisconnected p ∈ listeners w;
  tidy_uniq : forall p t t',
    DisconnectOnDisconnected p t ∈ listeners w ->
    DisconnectOnDisconnected p t' ∈ listeners w -> t = t';
  tidy_timers : forall t tm, timers w !! t = Some tm -> tstate tm = Armed ->
    exists p, DisconnectOnDisconnected p t ∈ listeners w;
  tidy_connect : forall p,
    promises w !! p = Some (MkPromise ByConnect Pending) ->
    ConnectOnConnected p ∈ listeners w
}.

(** The handles [tls.connect] returned, with the options it was given. *)
Definition opened (cs : list SocketCall) : list (nat * gmap string JSValue) :=
  flat_map (fun c => match c with
                     | TlsConnect h opts => [(h, opts)]
                     | _ => []
                     end) cs.

(** The handle a call is made on. *)
Definition call_handle (c : SocketCall) : nat :=
  match c with
  | TlsConnect h _ | SetEncoding h _ | SetKeepAlive h _ | SetNoDelay h _
  | SocketEnd h | SocketDestroy h | SocketWrite h _ _ _ => h
  end.

(** The chunks handed to [socket.write], in order. *)
Definition written (cs : list SocketCall) : list string :=
  flat_map (fun c => match c with
                     | SocketWrite _ chunk _ _ => [chunk]
                     | _ => []
                     end) cs.

Definition is_close (i : Input) : bool :=
  match i with
  | SockClose => true
  | _ => false
  end.

(** The number of 'close' events in a trace, and the number of handles held
    (none or one). *)
Definition closes (trace : list Input) : nat :=
  length (List.filter is_close trace).

Definition live (w : World) : nat :=
  match socket (data w) with
  | Some _ => 1
  | None => 0
  end.

(** 'data' and 'error' notifications, the ones without a listener of the
    transport's own. *)
Definition data_only (n : Notification) : bool :=
  match n with
  | NData _ | NError _ => true
  | NConnected | NDisconnected _ => false
  end.

(** Inputs other than the two socket events that decide a pending
    [connect()]. *)
Definition undecided (i : Input) : bool :=
  match i with
  | SockSecureConnect | SockClose => false
  | _ => true
  end.

(** Inputs that leave the stored error alone. *)
Definition keeps_error (i : Input) : bool :=
  match i with
  | SockSecureConnect | SockError _ | SockClose | SockTimeout => false
  | _ => true
  end.

(** The number of line feeds in a text. *)
Fixpoint line_feeds (s : string) : nat :=
  match s with
  | EmptyString => 0
  | String c s' => (if Ascii.eqb c LF then 1 else 0) + line_feeds s'
  end.

(** [err || new Error('Connection failed')] (index.js, 144). *)
Definition failure (err : option JSError) : JSError :=
  match err with
  | Some e => e
  | None => Error "Connection failed"
  end.

(** What holds of the handles: the stored options never change and every
    socket is opened with them; handles are pairwise distinct; every call
    and every timer names a handle that [tls.connect] returned; and the
    handle held, when there is one, is the one opened last. *)
Record Handles (opts : gmap string JSValue) (w : World) : Prop := MkHandles {
  h_options : options (data w) = opts;
  h_opened : forall ho, ho ∈ opened (calls w) -> ho.2 = opts;
  h_bound : forall ho, ho ∈ opened (calls w) -> (ho.1 < length (calls w))%nat;
  h_nodup : NoDup (opened (calls w)).*1;
  h_calls : forall c, c ∈ calls w -> call_handle c ∈ (opened (calls w)).*1;
  h_timers : forall tm, tm ∈ timers w -> target tm ∈ (opened (calls w)).*1;
  h_socket : forall h, socket (data w) = Some h ->
    last (opened (calls w)) = Some (h, opts)
}.

(** ** Properties *)

(** *** Construction *)

Lemma nonEmptyString_spec v :
  check.nonEmptyString v = true <-> non_empty_string v.
Proof.
  unfold non_empty_string. split.
  - destruct v; cbn; try discriminate. intros H. exists s. split; [easy|].
    intros ->. discriminate.
  - intros (s & -> & Hs). cbn. apply negb_true_iff, String.eqb_neq, Hs.
Qed.

Lemma inRange_spec v a b :
  check.inRange v a b = true <-> number_in_range v a b.
Proof.
  unfold number_in_range. split.
  - destruct v as [| | |[| |q]| | |]; cbn; try discriminate.
    intros H. apply andb_true_iff in H as [H1 H2].
    apply Qle_bool_iff in H1, H2. now exists q.
  - intros (q & -> & H1 & H2). cbn. apply andb_true_iff.
    now rewrite !Qle_bool_iff.
Qed.

Lemma maybe_object_spec v :
  check.maybe check.object v = true <-> absent_or_object v.
Proof.
  unfold absent_or_object. split.
  - destruct v; cbn; try discriminate; eauto.
  - intros [->|[->|[props ->]]]; reflexivity.
Qed.

Lemma constructor_inr host port extra d :
  constructor host port extra = inr d ->
  check.nonEmptyString host = true /\
  check.inRange port 1 65535 = true /\
  check.maybe check.object extra = true /\
  d = {| options :=
           Object_assign {[ "rejectUnauthorized" := JSBoolean true ]}
             [ extra;
               JSObject (<["host" := host]> (<["port" := port]>
                        (<["path" := JSUndefined]>
                        (<["socket" := JSUndefined]> ∅)))) ];
         socket := None; connected := false; error := None; buffer := None |}.
Proof.
  unfold constructor, check.assert.
  destruct (check.nonEmptyString host); [|discriminate].
  destruct (check.inRange port 1 65535); [|discriminate].
  destruct (check.maybe check.object extra); [|discriminate].
  now intros [= <-].
Qed.

(** *** Strings *)

#[local] Transparent String.prefix.

Lemma prefix_newline b s : String.prefix newline (String b s) = Ascii.eqb b LF.
Proof.
  unfold newline. cbn [String.prefix].
  destruct (ascii_dec LF b) as [<-|Hne].
  - rewrite Ascii.eqb_refl. now destruct s.
  - symmetry. apply Ascii.eqb_neq. congruence.
Qed.

Lemma indexOf_split_first s :
  indexOf s newline =
  match split_first s with
  | Some (pre, _) => Z.of_nat (String.length pre)
  | None => -1
  end.
Proof.
  unfold indexOf. induction s as [|c s IH]; [reflexivity|].
  cbn [String.index split_first]. rewrite prefix_newline.
  destruct (Ascii.eqb c LF); [reflexivity|].
  destruct (split_first s) as [[pre post]|];
    destruct (String.index 0 newline s); cbn [String.length] in *; try lia;
    f_equal; lia.
Qed.

Lemma substring_all s n : (String.length s <= n)%nat -> String.substring 0 n s = s.
Proof.
  revert n. induction s as [|c s IH]; intros [|n] Hn; cbn in *; try reflexivity; try lia.
  f_equal. apply IH. lia.
Qed.

Lemma substring_tail s n m1 m2 :
  (String.length s <= n + m1)%nat -> (String.length s <= n + m2)%nat ->
  String.substring n m1 s = String.substring n m2 s.
Proof.
  revert n. induction s as [|c s IH]; intros [|n] H1 H2.
  - now destruct m1, m2.
  - reflexivity.
  - rewrite !substring_all by lia. reflexivity.
  - cbn [String.substring]. apply IH; cbn in *; lia.
Qed.

Lemma split_first_length s pre post :
  split_first s = Some (pre, post) ->
  String.length s = S (String.length pre + String.length post).
Proof.
  revert pre. induction s as [|c s IH]; intros pre H; cbn in H; [discriminate|].
  destruct (Ascii.eqb c LF).
  - injection H as <- <-. reflexivity.
  - destruct (split_first s) as [[pre' post']|]; [|discriminate].
    injection H as <- <-. cbn. f_equal. now apply IH.
Qed.

Lemma split_first_substring s pre post :
  split_first s = Some (pre, post) ->
  String.substring 0 (String.length pre) s = pre /\
  String.substring (S (String.length pre)) (String.length s) s = post.
Proof.
  revert pre. induction s as [|c s IH]; intros pre H; cbn in H; [discriminate|].
  destruct (Ascii.eqb c LF).
  - injection H as <- <-. split; [reflexivity|].
    cbn [String.length String.substring]. apply substring_all. lia.
  - destruct (split_first s) as [[pre' post']|] eqn:E; [|discriminate].
    injection H as <- <-. destruct (IH _ eq_refl) as [H1 H2].
    cbn [String.length String.substring]. split; [now f_equal|].
    rewrite <- H2. apply substring_tail; lia.
Qed.

Lemma str_app_nil_l (s : string) : EmptyString ++ s = s.
Proof. reflexivity. Qed.

Lemma str_app_cons c (s t : string) : String c s ++ t = String c (s ++ t).
Proof. reflexivity. Qed.

Lemma str_app_nil_r (s : string) : s ++ EmptyString = s.
Proof.
  induction s as [|c s IH]; [reflexivity|]. now rewrite str_app_cons, IH.
Qed.

Lemma str_app_assoc (a b c : string) : (a ++ b) ++ c = a ++ (b ++ c).
Proof.
  induction a as [|x a IH]; [reflexivity|]. now rewrite !str_app_cons, IH.
Qed.

Lemma substr_split_first s pre post :
  split_first s = Some (pre, post) ->
  substr s 0 (Z.of_nat (String.length pre)) = pre /\
  substr_from s (Z.of_nat (String.length pre) + 1) = post.
Proof.
  intros H. pose proof (split_first_length _ _ _ H) as Hlen.
  destruct (split_first_substring _ _ _ H) as [H1 H2].
  unfold substr, substr_from, substr_start.
  rewrite Nat2Z.id.
  replace (Z.to_nat (if 0 <? 0 then _ else Z.min 0 _)) with 0%nat
    by (cbn; lia).
  replace (Z.to_nat (if _ <? 0 then _ else _)) with (S (String.length pre)).
  - now split.
  - destruct (Z.ltb_spec (Z.of_nat (String.length pre) + 1) 0); lia.
Qed.

(** *** The framing loop against [lines_from] *)

Lemma lines_from_split_first cur s :
  lines_from cur s =
  match split_first s with
  | Some (pre, post) => ((cur ++ pre) :: complete_lines post, remainder post)
  | None => ([], cur ++ s)
  end.
Proof.
  unfold complete_lines, remainder.
  revert cur. induction s as [|c s IH]; intros cur; cbn [lines_from split_first].
  - now rewrite str_app_nil_r.
  - destruct (Ascii.eqb c LF).
    + rewrite str_app_nil_r. now destruct (lines_from EmptyString s).
    + rewrite IH. destruct (split_first s) as [[pre post]|];
        now rewrite str_app_assoc, str_app_cons, str_app_nil_l.
Qed.

Lemma schedule_nil w : schedule [] w = w.
Proof. destruct w. unfold schedule, set_immediates. cbn. now rewrite app_nil_r. Qed.

Lemma schedule_app ns ms w : schedule ms (schedule ns w) = schedule (ns ++ ms) w.
Proof. unfold schedule, set_immediates. cbn. now rewrite app_assoc. Qed.

Lemma setImmediate_schedule n w : setImmediate n w = schedule [n] w.
Proof. reflexivity. Qed.

Lemma onSocketData_loop_spec fuel buf w :
  (String.length buf < fuel)%nat ->
  onSocketData_loop fuel buf (indexOf buf newline) w =
  (remainder buf, schedule (flat_map notify (complete_lines buf)) w).
Proof.
  revert buf w. induction fuel as [|fuel IH]; intros buf w Hlen; [lia|].
  cbn [onSocketData_loop]. unfold complete_lines, remainder.
  rewrite (lines_from_split_first EmptyString buf), indexOf_split_first.
  destruct (split_first buf) as [[pre post]|] eqn:E.
  - destruct (substr_split_first _ _ _ E) as [-> ->].
    pose proof (split_first_length _ _ _ E).
    destruct (Z.leb_spec 0 (Z.of_nat (String.length pre))); [|lia].
    cbn [fst snd flat_map]. unfold notify at 1. rewrite str_app_nil_l.
    destruct (JSON_parse pre) as [v|err]; cbn [ToBoolean].
    + destruct (ToBoolean v); rewrite IH by lia.
      * now rewrite setImmediate_schedule, schedule_app.
      * reflexivity.
    + rewrite IH by lia. now rewrite setImmediate_schedule, schedule_app.
  - cbn. now rewrite schedule_nil.
Qed.

Lemma split_first_app a b :
  split_first (a ++ b) =
  match split_first a with
  | Some (pre, post) => Some (pre, post ++ b)
  | None =>
      match split_first b with
      | Some (pre, post) => Some (a ++ pre, post)
      | None => None
      end
  end.
Proof.
  induction a as [|c a IH].
  { rewrite str_app_nil_l. cbn [split_first].
    now destruct (split_first b) as [[? ?]|]. }
  rewrite str_app_cons. cbn [split_first]. destruct (Ascii.eqb c LF); [reflexivity|].
  rewrite IH. destruct (split_first a) as [[? ?]|]; [reflexivity|].
  now destruct (split_first b) as [[? ?]|].
Qed.

Lemma lines_from_no_LF cur s :
  split_first cur = None -> split_first (snd (lines_from cur s)) = None.
Proof.
  revert cur. induction s as [|c s IH]; intros cur Hcur; cbn [lines_from].
  - exact Hcur.
  - destruct (Ascii.eqb c LF) eqn:E.
    + specialize (IH EmptyString eq_refl). now destruct (lines_from EmptyString s).
    + apply IH. rewrite split_first_app, Hcur. cbn. now rewrite E.
Qed.

Lemma remainder_no_LF s : split_first (remainder s) = None.
Proof. now apply lines_from_no_LF. Qed.

(** The loop stops because no line feed is left, not because the fuel of the
    model ran out. *)
Lemma onSocketData_loop_exits buf w :
  indexOf (fst (onSocketData_loop (S (String.length buf)) buf
                  (indexOf buf newline) w)) newline = -1.
Proof.
  rewrite onSocketData_loop_spec by lia. cbn [fst].
  now rewrite indexOf_split_first, remainder_no_LF.
Qed.

Lemma onSocketData_spec chunk w :
  onSocketData chunk w =
  let text := buffer_text (data w) ++ chunk in
  set_data (set_buffer (Some (remainder text)) (data w))
    (schedule (flat_map notify (complete_lines text)) w).
Proof.
  unfold onSocketData. now rewrite onSocketData_loop_spec by lia.
Qed.

Lemma lines_from_app cur a b :
  lines_from cur (a ++ b) =
  ((fst (lines_from cur a) ++ fst (lines_from (snd (lines_from cur a)) b))%list,
   snd (lines_from (snd (lines_from cur a)) b)).
Proof.
  revert cur. induction a as [|c a IH]; intros cur.
  - rewrite str_app_nil_l. cbn. now destruct (lines_from cur b).
  - rewrite str_app_cons. cbn [lines_from]. destruct (Ascii.eqb c LF).
    + rewrite IH. now destruct (lines_from EmptyString a).
    + apply IH.
Qed.

Lemma lines_from_carry r b :
  split_first r = None -> lines_from r b = lines_from EmptyString (r ++ b).
Proof.
  intros Hr. rewrite (lines_from_app EmptyString r b).
  rewrite (lines_from_split_first EmptyString r), Hr. cbn [fst snd].
  rewrite str_app_nil_l. now destruct (lines_from r b).
Qed.

Lemma complete_lines_app a b :
  complete_lines (a ++ b) =
  (complete_lines a ++ complete_lines (remainder a ++ b))%list.
Proof.
  unfold complete_lines at 1 3. rewrite lines_from_app. cbn [fst].
  now rewrite <- lines_from_carry by apply remainder_no_LF.
Qed.

Lemma remainder_app a b : remainder (a ++ b) = remainder (remainder a ++ b).
Proof.
  unfold remainder at 1 2. rewrite lines_from_app. cbn [snd].
  now rewrite <- lines_from_carry by apply remainder_no_LF.
Qed.

Lemma receive_cons chunk chunks w :
  receive w (chunk :: chunks) = receive (onSocketData chunk w) chunks.
Proof. reflexivity. Qed.

Lemma receive_spec chunks w :
  chunks <> [] ->
  receive w chunks =
  let text := buffer_text (data w) ++ concat_chunks chunks in
  set_data (set_buffer (Some (remainder text)) (data w))
    (schedule (flat_map notify (complete_lines text)) w).
Proof.
  revert w. induction chunks as [|c rest IH]; intros w Hne; [congruence|].
  rewrite receive_cons. destruct rest as [|c' rest].
  - cbn [receive run map foldl concat_chunks foldr].
    rewrite str_app_nil_r. apply onSocketData_spec.
  - rewrite IH by congruence. rewrite onSocketData_spec. cbv zeta.
    change (concat_chunks (c :: c' :: rest))
      with (c ++ concat_chunks (c' :: rest)).
    rewrite <- (str_app_assoc _ c).
    rewrite (complete_lines_app (_ ++ c)), (remainder_app (_ ++ c)).
    destruct w as [d ls q ts ws ps cs es]; destruct d.
    unfold schedule, set_data, set_buffer, set_immediates, buffer_text.
    cbn. rewrite flat_map_app, app_assoc. reflexivity.
Qed.

(** *** Running listeners *)

Lemma run_listener_promises arg w l :
  promises (run_listener arg w l) =
  alter (settle_promise (verdict arg l)) (listener_promise l) (promises w).
Proof. now destruct l. Qed.

Lemma run_listener_frame arg w l :
  data (run_listener arg w l) = data w /\
  immediates (run_listener arg w l) = immediates w /\
  writes (run_listener arg w l) = writes w /\
  calls (run_listener arg w l) = calls w /\
  emitted (run_listener arg w l) = emitted w.
Proof. now destruct l. Qed.

Lemma run_listener_listeners arg w l x :
  x ∈ listeners (run_listener arg w l) -> x ∈ listeners w.
Proof.
  destruct l; cbn; rewrite !list_elem_of_filter; tauto.
Qed.

Lemma run_listener_keeps arg w l x :
  listener_origin l <> listener_origin x ->
  x ∈ listeners w -> x ∈ listeners (run_listener arg w l).
Proof.
  intros Hne Hx.
  destruct l, x; cbn in *; rewrite !list_elem_of_filter; try congruence;
    repeat split; congruence.
Qed.

Lemma fold_listeners_frame arg ls w :
  data (foldl (run_listener arg) w ls) = data w /\
  immediates (foldl (run_listener arg) w ls) = immediates w /\
  writes (foldl (run_listener arg) w ls) = writes w /\
  calls (foldl (run_listener arg) w ls) = calls w /\
  emitted (foldl (run_listener arg) w ls) = emitted w.
Proof.
  revert w. induction ls as [|l ls IH]; intros w; [easy|].
  cbn [foldl]. destruct (IH (run_listener arg w l)) as (-> & -> & -> & -> & ->).
  apply run_listener_frame.
Qed.

Lemma fold_listeners_listeners arg ls w x :
  x ∈ listeners (foldl (run_listener arg) w ls) -> x ∈ listeners w.
Proof.
  revert w. induction ls as [|l ls IH]; intros w; [easy|].
  cbn [foldl]. intros H. eapply run_listener_listeners, IH, H.
Qed.

Lemma fold_listeners_keeps arg ls w x :
  (forall l, l ∈ ls -> listener_origin l <> listener_origin x) ->
  x ∈ listeners w -> x ∈ listeners (foldl (run_listener arg) w ls).
Proof.
  revert w. induction ls as [|l ls IH]; intros w Hls Hx; [easy|].
  cbn [foldl]. apply IH.
  - intros l' Hl'. apply Hls. now right.
  - apply run_listener_keeps; [apply Hls; now left|easy].
Qed.

Lemma fold_listeners_promises arg ls w :
  promises (foldl (run_listener arg) w ls) =
  foldl (fun ps l =>
           alter (settle_promise (verdict arg l)) (listener_promise l) ps)
    (promises w) ls.
Proof.
  revert w. induction ls as [|l ls IH]; intros w; [easy|].
  cbn [foldl]. now rewrite IH, run_listener_promises.
Qed.

Lemma settle_promise_origin s pr : origin (settle_promise s pr) = origin pr.
Proof. unfold settle_promise. now destruct (state pr). Qed.

(** A promise after a round of listeners: untouched, or settled by one of the
    listeners that hold it. *)
Lemma fold_settle_lookup arg ls (ps : list Promise) q pr :
  ps !! q = Some pr ->
  exists pr',
    foldl (fun ps l =>
             alter (settle_promise (verdict arg l)) (listener_promise l) ps)
      ps ls !! q = Some pr' /\
    origin pr' = origin pr /\
    ((pr' = pr /\
      (state pr = Pending -> forall l, l ∈ ls -> listener_promise l <> q)) \/
     (state pr = Pending /\
      exists l, l ∈ ls /\ listener_promise l = q /\
                state pr' = verdict arg l)).
Proof.
  revert ps pr. induction ls as [|l ls IH]; intros ps pr Hq; cbn [foldl].
  - exists pr. repeat split; [easy|]. left. split; [easy|].
    intros _ l Hl. now apply elem_of_nil in Hl.
  - destruct (decide (listener_promise l = q)) as [Heq|Hne].
    + destruct (IH (alter (settle_promise (verdict arg l)) (listener_promise l) ps)
                  (settle_promise (verdict arg l) pr))
        as (pr' & Hpr' & Ho & Hcase).
      { rewrite Heq, list_lookup_alter_eq, Hq. reflexivity. }
      exists pr'. split; [exact Hpr'|]. rewrite Ho, settle_promise_origin.
      split; [reflexivity|].
      destruct (state pr) eqn:Est.
      * right. split; [reflexivity|]. exists l. split; [now left|]. split; [easy|].
        destruct Hcase as [[-> _]|[Hp _]].
        -- unfold settle_promise. rewrite Est. now destruct l.
        -- unfold settle_promise in Hp. rewrite Est in Hp. now destruct l.
      * left. assert (settle_promise (verdict arg l) pr = pr) as E
          by (unfold settle_promise; now rewrite Est).
        rewrite E in Hcase. destruct Hcase as [[-> _]|[Hp _]]; [|congruence].
        split; [easy|congruence].
      * left. assert (settle_promise (verdict arg l) pr = pr) as E
          by (unfold settle_promise; now rewrite Est).
        rewrite E in Hcase. destruct Hcase as [[-> _]|[Hp _]]; [|congruence].
        split; [easy|congruence].
    + destruct (IH (alter (settle_promise (verdict arg l)) (listener_promise l) ps) pr)
        as (pr' & Hpr' & Ho & Hcase).
      { now rewrite list_lookup_alter_ne. }
      exists pr'. split; [exact Hpr'|]. split; [exact Ho|].
      destruct Hcase as [[-> Hall]|(Hp & l' & Hl' & Hq' & Hv)].
      * left. split; [easy|]. intros Hp l' Hl'.
        apply elem_of_cons in Hl' as [->|Hl']; [easy|now apply Hall].
      * right. split; [easy|]. exists l'. split; [now right|easy].
Qed.

Lemma fold_settle_origins arg ls (ps : list Promise) :
  map origin
    (foldl (fun ps l =>
              alter (settle_promise (verdict arg l)) (listener_promise l) ps)
       ps ls) = map origin ps.
Proof.
  revert ps. induction ls as [|l ls IH]; intros ps; [easy|].
  cbn [foldl]. rewrite IH.
  change (map origin) with (fmap (M:=list) origin).
  rewrite (list_fmap_alter origin _ id).
  - now rewrite list_alter_id.
  - apply Forall_forall. intros pr _. apply settle_promise_origin.
Qed.

Lemma fold_settle_None arg ls (ps : list Promise) q :
  ps !! q = None ->
  foldl (fun ps l =>
           alter (settle_promise (verdict arg l)) (listener_promise l) ps)
    ps ls !! q = None.
Proof.
  intros H. apply lookup_ge_None. apply lookup_ge_None in H.
  rewrite <- (length_map origin), fold_settle_origins, length_map. exact H.
Qed.

(** *** The invariant *)

Lemma Inv_new host port extra d :
  constructor host port extra = inr d -> Inv (new_world d).
Proof.
  unfold constructor. intros H.
  destruct (check.assert _ host_message); [discriminate|].
  destruct (check.assert _ port_message); [discriminate|].
  destruct (check.assert _ extra_message); [discriminate|].
  injection H as <-.
  split; cbn; try easy; intros ? H; now apply elem_of_nil in H.
Qed.

(** Steps that only add listeners, pending writes and promises. *)
Lemma Inv_extend w w' newls newws newps :
  Inv w ->
  listeners w' = (listeners w ++ newls)%list ->
  writes w' = (writes w ++ newws)%list ->
  promises w' = (promises w ++ newps)%list ->
  (connected (data w') = true -> is_Some (socket (data w'))) ->
  (socket (data w') = None -> error (data w') = None) ->
  (forall l, l ∈ newls ->
     exists st, promises w' !! listener_promise l =
                  Some (MkPromise (listener_origin l) st)) ->
  (forall p, p ∈ newws -> promises w' !! p = Some (MkPromise BySend Pending)) ->
  (forall i pr, newps !! i = Some pr -> origin pr = ByDisconnect ->
     state pr = Resolved \/
     (state pr = Pending /\
      exists t, DisconnectOnDisconnected (length (promises w) + i) t ∈ newls)) ->
  Inv w'.
Proof.
  intros [I0 I1 I2 I3 I4] Hl Hw Hp H0 H1 Hnl Hnw Hnp.
  split; [exact H0|exact H1| | |].
  - intros l. rewrite Hl, elem_of_app. intros [Hin|Hin].
    + unfold origins. rewrite Hp, map_app.
      apply lookup_app_l_Some. now apply I2.
    + unfold origins. change (map origin) with (fmap (M:=list) origin).
      destruct (Hnl l Hin) as [st Hst].
      rewrite list_lookup_fmap, Hst. reflexivity.
  - intros p. rewrite Hw, elem_of_app. intros [Hin|Hin].
    + rewrite Hp. apply lookup_app_l_Some. now apply I3.
    + now apply Hnw.
  - intros p pr. rewrite Hp, Hl. intros Hlk Ho.
    apply lookup_app_Some in Hlk as [Hold|[Hge Hnew]].
    + destruct (I4 p pr Hold Ho) as [?|[? [t Ht]]]; [now left|].
      right. split; [easy|]. exists t. apply elem_of_app. now left.
    + destruct (Hnp _ _ Hnew Ho) as [?|[? [t Ht]]]; [now left|].
      right. split; [easy|]. exists t. apply elem_of_app. right.
      replace p with (length (promises w) + (p - length (promises w)))%nat
        by lia. exact Ht.
Qed.

(** The one new promise does not come from [disconnect]. *)
Ltac not_by_disconnect :=
  intros [|[|]] ?; cbn; try congruence; intros [= <-]; cbn; congruence.

(** [reject(e)] on the promise just created. *)
Lemma alter_last {A} (f : A -> A) (l : list A) (x : A) :
  alter f (length l) (l ++ [x])%list = (l ++ [f x])%list.
Proof.
  replace (length l) with (length l + 0)%nat by lia.
  rewrite (alter_app_r f l [x] 0). reflexivity.
Qed.

(** [connect()] when [tls.connect] throws, field by field. *)
Lemma connect_throws_fields e w :
  socket (data w) = None ->
  let w' := connect (TlsThrows e) w in
  data w' = set_connected false (data w) /\
  listeners w' =
    (listeners w ++ [ConnectOnConnected (length (promises w));
                     ConnectOnDisconnected (length (promises w))])%list /\
  promises w' = (promises w ++ [MkPromise ByConnect (Rejected e)])%list /\
  immediates w' = immediates w /\ timers w' = timers w /\
  writes w' = writes w /\ calls w' = calls w /\ emitted w' = emitted w.
Proof.
  intros Hs. unfold connect. rewrite Hs. cbn.
  rewrite alter_last. repeat split.
Qed.

(** With a handle [tls.connect] is not reached. *)
Lemma connect_with_socket tls w :
  is_Some (socket (data w)) -> connect tls w = connect TlsReturns w.
Proof. intros [h Hs]. unfold connect. rewrite Hs. reflexivity. Qed.

(** What [connect()] leaves alone, whatever [tls.connect] does. *)
Lemma connect_frame tls w :
  immediates (connect tls w) = immediates w /\
  emitted (connect tls w) = emitted w /\
  timers (connect tls w) = timers w /\
  writes (connect tls w) = writes w /\
  buffer (data (connect tls w)) = buffer (data w) /\
  options (data (connect tls w)) = options (data w) /\
  error (data (connect tls w)) = error (data w).
Proof.
  destruct (socket (data w)) eqn:Es.
  - unfold connect. rewrite Es. destruct (connected (data w)); easy.
  - destruct tls as [|e].
    + unfold connect. rewrite Es. easy.
    + destruct (connect_throws_fields e w Es)
        as (-> & _ & _ & -> & -> & -> & _ & ->). easy.
Qed.

Lemma Inv_connect tls w : Inv w -> Inv (connect tls w).
Proof.
  intros I. destruct (socket (data w)) as [h|] eqn:Es.
  - rewrite connect_with_socket by (rewrite Es; eauto).
    unfold connect. rewrite Es.
    destruct (connected (data w)) eqn:Ec.
    + apply (Inv_extend w _ [] [] [MkPromise ByConnect Resolved] I);
        cbn; rewrite ?app_nil_r; try easy; try apply I;
        try (intros ? H; now apply elem_of_nil in H).
      not_by_disconnect.
    + apply (Inv_extend w _ [] []
               [MkPromise ByConnect
                  (Rejected (Error "Connection already in progress"))] I);
        cbn; rewrite ?app_nil_r; try easy; try apply I;
        try (intros ? H; now apply elem_of_nil in H).
      not_by_disconnect.
  - assert (forall st l,
              l ∈ [ConnectOnConnected (length (promises w));
                   ConnectOnDisconnected (length (promises w))] ->
              exists st', (promises w ++ [MkPromise ByConnect st])%list
                            !! listener_promise l =
                          Some (MkPromise (listener_origin l) st')) as Hnew.
    { intros st l Hl. exists st.
      assert (listener_promise l = length (promises w) /\
              listener_origin l = ByConnect) as [-> ->].
      { apply elem_of_cons in Hl as [->|Hl]; [easy|].
        apply list_elem_of_singleton in Hl as ->. easy. }
      now rewrite list_lookup_middle. }
    destruct tls as [|e].
    + unfold connect. rewrite Es.
      apply (Inv_extend w _
               [ConnectOnConnected (length (promises w));
                ConnectOnDisconnected (length (promises w))] []
               [MkPromise ByConnect Pending] I); cbn; rewrite ?app_nil_r;
        try easy; try (intros ? H; now apply elem_of_nil in H).
      * apply Hnew.
      * not_by_disconnect.
    + destruct (connect_throws_fields e w Es)
        as (Hd & Hl & Hp & _ & _ & Hw & _ & _).
      apply (Inv_extend w _
               [ConnectOnConnected (length (promises w));
                ConnectOnDisconnected (length (promises w))] []
               [MkPromise ByConnect (Rejected e)] I);
        rewrite ?app_nil_r, ?Hd; cbn; try easy;
        try (intros ? H; now apply elem_of_nil in H).
      * intros _. apply I. exact Es.
      * rewrite Hp. apply Hnew.
      * not_by_disconnect.
Qed.

Lemma Inv_disconnect w : Inv w -> Inv (disconnect w).
Proof.
  intros I. unfold disconnect. destruct (socket (data w)) as [h|] eqn:Es.
  - apply (Inv_extend w _
             [DisconnectOnDisconnected (length (promises w)) (length (timers w))]
             [] [MkPromise ByDisconnect Pending] I); cbn; rewrite ?app_nil_r;
      try easy; try apply I; try (intros ? H; now apply elem_of_nil in H).
    + intros l Hl. apply list_elem_of_singleton in Hl as ->. cbn.
      exists Pending. now rewrite list_lookup_middle.
    + intros [|[|]] pr; cbn; try congruence. intros [= <-] _. right.
      split; [easy|]. exists (length (timers w)). rewrite Nat.add_0_r.
      now apply list_elem_of_singleton.
  - apply (Inv_extend w _ [] [] [MkPromise ByDisconnect Resolved] I);
      cbn; rewrite ?app_nil_r; try easy; try apply I;
      try (intros ? H; now apply elem_of_nil in H).
    intros [|[|]] pr; cbn; try congruence. intros [= <-] _. now left.
Qed.

Lemma Inv_send d w : Inv w -> Inv (send d w).
Proof.
  intros I. unfold send.
  destruct (negb (check.nonEmptyString d)).
  { apply (Inv_extend w _ [] [] [MkPromise BySend (Rejected (TypeError send_message))] I);
      cbn; rewrite ?app_nil_r; try easy; try apply I;
      try (intros ? H; now apply elem_of_nil in H).
    not_by_disconnect. }
  destruct (negb (connected (data w))).
  { apply (Inv_extend w _ [] []
             [MkPromise BySend
                (Rejected (DisconnectedError "Transport not connected"))] I);
      cbn; rewrite ?app_nil_r; try easy; try apply I;
      try (intros ? H; now apply elem_of_nil in H).
    not_by_disconnect. }
  assert (Inv (new_promise BySend
                 (Rejected (TypeError "Cannot read properties of null")) w)).
  { apply (Inv_extend w _ [] []
             [MkPromise BySend
                (Rejected (TypeError "Cannot read properties of null"))] I);
      cbn; rewrite ?app_nil_r; try easy; try apply I;
      try (intros ? H; now apply elem_of_nil in H).
    not_by_disconnect. }
  destruct d; try assumption. destruct (socket (data w)) as [h|]; [|assumption].
  apply (Inv_extend w _ [] [length (promises w)] [MkPromise BySend Pending] I);
    cbn; rewrite ?app_nil_r; try easy; try apply I;
    try (intros ? H; now apply elem_of_nil in H).
  - intros p Hp. apply list_elem_of_singleton in Hp as ->.
    now rewrite list_lookup_middle.
  - not_by_disconnect.
Qed.

(** Steps that leave listeners, pending writes and promises alone. *)
Lemma Inv_frame w w' :
  Inv w ->
  listeners w' = listeners w -> writes w' = writes w ->
  promises w' = promises w ->
  (connected (data w') = true -> is_Some (socket (data w'))) ->
  (socket (data w') = None -> error (data w') = None) ->
  Inv w'.
Proof.
  intros I Hl Hw Hp H0 H1.
  apply (Inv_extend w w' [] [] [] I); rewrite ?app_nil_r; try easy;
    try (intros ? H; now apply elem_of_nil in H).
Qed.

Lemma Inv_onSocketData chunk w : Inv w -> Inv (onSocketData chunk w).
Proof.
  intros I. rewrite onSocketData_spec. cbv zeta.
  apply (Inv_frame w); try easy; apply I.
Qed.

Lemma listener_of_promise w l pr :
  Inv w -> l ∈ listeners w -> promises w !! listener_promise l = Some pr ->
  origin pr = listener_origin l.
Proof.
  intros I Hl Hp. pose proof (inv_listeners w I l Hl) as H.
  unfold origins in H. change (map origin) with (fmap (M:=list) origin) in H.
  rewrite list_lookup_fmap, Hp in H. now injection H.
Qed.

Lemma Inv_listeners_round arg ls w :
  Inv w ->
  (forall l, l ∈ ls -> l ∈ listeners w) ->
  ((forall l, l ∈ ls -> listener_origin l = ByConnect) \/
   (forall t p, DisconnectOnDisconnected p t ∈ listeners w ->
                DisconnectOnDisconnected p t ∈ ls)) ->
  Inv (foldl (run_listener arg) w ls).
Proof.
  intros I Hsub Hkind.
  destruct (fold_listeners_frame arg ls w) as (Hd & _ & Hw & _ & _).
  split.
  - rewrite Hd. apply I.
  - rewrite Hd. apply I.
  - intros l Hl. apply fold_listeners_listeners in Hl.
    unfold origins. rewrite fold_listeners_promises, fold_settle_origins.
    now apply I.
  - intros p Hp. rewrite Hw in Hp. pose proof (inv_writes w I p Hp) as Hlk.
    rewrite fold_listeners_promises.
    destruct (fold_settle_lookup arg ls _ _ _ Hlk)
      as (pr' & Hpr' & Ho & [[-> _]|(_ & l & Hl & Hlp & _)]); [exact Hpr'|].
    exfalso. subst p.
    pose proof (listener_of_promise w l _ I (Hsub l Hl) Hlk) as E.
    cbn in E. now destruct l.
  - intros p pr'. rewrite fold_listeners_promises. intros Hpr' Ho'.
    destruct (promises w !! p) as [pr|] eqn:Hlk.
    2:{ now rewrite (fold_settle_None arg ls _ _ Hlk) in Hpr'. }
    destruct (fold_settle_lookup arg ls _ _ _ Hlk)
      as (pr'' & Hpr'' & Ho & Hcase).
    rewrite Hpr' in Hpr''. injection Hpr'' as <-.
    destruct Hcase as [[<- Hnone]|(_ & l & Hl & Hlp & Hv)].
    + destruct (inv_disconnect w I p pr' Hlk Ho') as [?|[Hpend [t Ht]]];
        [now left|].
      destruct Hkind as [Hconn|Hall].
      * right. split; [easy|]. exists t. apply fold_listeners_keeps; [|easy].
        intros l Hl. now rewrite (Hconn l Hl).
      * exfalso. apply (Hnone Hpend _ (Hall _ _ Ht)). reflexivity.
    + left. subst p.
      pose proof (listener_of_promise w l _ I (Hsub l Hl) Hlk) as E.
      rewrite Hv. destruct l; cbn in *; congruence.
Qed.

Lemma Inv_emit n w : Inv w -> Inv (emit n w).
Proof.
  intros I. unfold emit.
  assert (Inv (call_listeners n w)) as IX.
  { unfold call_listeners. destruct n; try exact I; cbn [listeners_for].
    - apply Inv_listeners_round; [exact I| |].
      + intros l Hl. now apply list_elem_of_filter in Hl.
      + left. intros l Hl. apply list_elem_of_filter in Hl as [Hl _].
        now destruct l.
    - apply Inv_listeners_round; [exact I| |].
      + intros l Hl. now apply list_elem_of_filter in Hl.
      + right. intros t p Hl. apply list_elem_of_filter. now split. }
  cbv zeta. eapply Inv_frame; [exact IX|..]; try easy; apply IX.
Qed.

Lemma Inv_step w i : Inv w -> enabled w i = true -> Inv (step w i).
Proof.
  intros I He. destruct i; cbn [step].
  - now apply Inv_connect.
  - now apply Inv_disconnect.
  - now apply Inv_send.
  - apply bool_decide_eq_true in He.
    apply (Inv_frame w); try easy; apply I.
  - apply bool_decide_eq_true in He. apply Inv_disconnect.
    apply (Inv_frame w); try easy; try apply I. cbn. intros H.
    rewrite H in He. now destruct He.
  - apply bool_decide_eq_true in He.
    apply (Inv_frame w); try easy; try apply I. cbn. intros H.
    rewrite H in He. now destruct He.
  - apply (Inv_frame w); easy.
  - now apply Inv_onSocketData.
  - destruct (immediates w) as [|n q]; [exact I|].
    apply Inv_emit. apply (Inv_frame w); try easy; apply I.
  - destruct (timers w !! t) as [[h ms []]|]; try exact I.
    apply (Inv_frame w); try easy; apply I.
  - destruct (bool_decide (p ∈ writes w)) eqn:Ep; [|exact I].
    apply bool_decide_eq_true in Ep.
    pose proof (inv_writes w I p Ep) as Hp.
    split; cbn; try apply I.
    + intros l Hl. unfold origins. cbn.
      change (map origin) with (fmap (M:=list) origin).
      rewrite (list_fmap_alter origin _ id).
      * rewrite list_alter_id by easy. now apply I.
      * apply Forall_forall. intros pr _. apply settle_promise_origin.
    + intros p' Hp'. apply list_elem_of_filter in Hp' as [Hne Hin].
      rewrite list_lookup_alter_ne by congruence. now apply I.
    + intros q pr Hq Ho. destruct (decide (p = q)) as [<-|Hne].
      * rewrite list_lookup_alter_eq, Hp in Hq. now injection Hq as <-.
      * rewrite list_lookup_alter_ne in Hq by easy. now apply I.
  - now apply Inv_connect.
Qed.

Lemma reachable_run w trace :
  reachable w -> enabled_trace w trace = true -> reachable (run w trace).
Proof.
  revert w. induction trace as [|i trace IH]; intros w Hr He; [exact Hr|].
  cbn in He. apply andb_true_iff in He as [Hi Htr].
  apply (IH (step w i)); [now apply reachable_step|exact Htr].
Qed.

Lemma reachable_Inv w : reachable w -> Inv w.
Proof.
  induction 1 as [host port extra d H|w i _ IH He].
  - eapply Inv_new, H.
  - now apply Inv_step.
Qed.

(** *** What a step does to a promise *)

Lemma connect_promises tls w :
  exists pr, promises (connect tls w) = (promises w ++ [pr])%list.
Proof.
  destruct (socket (data w)) eqn:Es.
  - unfold connect. rewrite Es. destruct (connected (data w)); cbn; eauto.
  - destruct tls as [|e].
    + unfold connect. rewrite Es. cbn. eauto.
    + destruct (connect_throws_fields e w Es) as (_ & _ & -> & _). eauto.
Qed.

Lemma disconnect_promises w :
  exists pr, promises (disconnect w) = (promises w ++ [pr])%list.
Proof. unfold disconnect. destruct (socket (data w)); cbn; eauto. Qed.

Lemma send_promises d w :
  exists pr, promises (send d w) = (promises w ++ [pr])%list.
Proof.
  unfold send. destruct (negb (check.nonEmptyString d)); [cbn; eauto|].
  destruct (negb (connected (data w))); [cbn; eauto|].
  destruct d; cbn; eauto. destruct (socket (data w)); cbn; eauto.
Qed.

Lemma step_promise w i p pr :
  promises w !! p = Some pr ->
  exists pr',
    promises (step w i) !! p = Some pr' /\
    origin pr' = origin pr /\
    (pr' = pr \/
     (state pr = Pending /\
      ((i = WriteDone p /\ p ∈ writes w /\ state pr' = Resolved) \/
       (exists n q l,
          i = RunImmediate /\ immediates w = n :: q /\
          l ∈ listeners_for n w /\ listener_promise l = p /\
          state pr' = verdict (event_arg n) l)))).
Proof.
  intros Hp.
  assert (forall ps new, ps = (promises w ++ [new])%list ->
            exists pr', ps !! p = Some pr' /\ origin pr' = origin pr /\
              (pr' = pr \/
               (state pr = Pending /\
                ((i = WriteDone p /\ p ∈ writes w /\ state pr' = Resolved) \/
                 (exists n q l,
                    i = RunImmediate /\ immediates w = n :: q /\
                    l ∈ listeners_for n w /\ listener_promise l = p /\
                    state pr' = verdict (event_arg n) l))))) as Happ.
  { intros ps new ->. exists pr. split; [now apply lookup_app_l_Some|].
    split; [easy|now left]. }
  assert (forall ps, ps = promises w ->
            exists pr', ps !! p = Some pr' /\ origin pr' = origin pr /\
              (pr' = pr \/
               (state pr = Pending /\
                ((i = WriteDone p /\ p ∈ writes w /\ state pr' = Resolved) \/
                 (exists n q l,
                    i = RunImmediate /\ immediates w = n :: q /\
                    l ∈ listeners_for n w /\ listener_promise l = p /\
                    state pr' = verdict (event_arg n) l))))) as Hsame.
  { intros ps ->. exists pr. split; [easy|]. split; [easy|now left]. }
  destruct i; cbn [step].
  - destruct (connect_promises TlsReturns w) as [new E]. eapply Happ, E.
  - destruct (disconnect_promises w) as [new E]. eapply Happ, E.
  - destruct (send_promises d w) as [new E]. eapply Happ, E.
  - now apply Hsame.
  - unfold onSocketTimeout.
    destruct (disconnect_promises
                (set_data (set_error (Some (Error "Connection timed out"))
                             (data w)) w)) as [new E].
    eapply Happ, E.
  - now apply Hsame.
  - now apply Hsame.
  - rewrite onSocketData_spec. now apply Hsame.
  - destruct (immediates w) as [|n q] eqn:Eq; [now apply Hsame|].
    unfold emit, call_listeners. cbn [promises set_emitted].
    rewrite fold_listeners_promises.
    destruct (fold_settle_lookup (event_arg n)
                (listeners_for n (set_immediates q w)) _ _ _ Hp)
      as (pr' & Hpr' & Ho & Hcase).
    exists pr'. split; [exact Hpr'|]. split; [exact Ho|].
    destruct Hcase as [[-> _]|(Hpend & l & Hl & Hlp & Hv)]; [now left|].
    right. split; [easy|]. right. exists n, q, l. repeat split; easy.
  - destruct (timers w !! t) as [[h ms []]|]; now apply Hsame.
  - destruct (bool_decide (p0 ∈ writes w)) eqn:Ep; [|now apply Hsame].
    apply bool_decide_eq_true in Ep. cbn.
    destruct (decide (p0 = p)) as [->|Hne].
    + exists (settle_promise Resolved pr).
      rewrite list_lookup_alter_eq, Hp. split; [easy|].
      split; [apply settle_promise_origin|].
      unfold settle_promise. destruct (state pr) eqn:Es; try now left.
      right. split; [easy|]. left. easy.
    + exists pr. rewrite list_lookup_alter_ne by easy.
      split; [easy|]. split; [easy|now left].
  - destruct (connect_promises (TlsThrows e) w) as [new E]. eapply Happ, E.
Qed.

(** *** The notifications scheduled so far *)

Lemma emit_frame n w :
  data (emit n w) = data w /\
  immediates (emit n w) = immediates w /\
  emitted (emit n w) = (emitted w ++ [n])%list /\
  calls (emit n w) = calls w /\
  writes (emit n w) = writes w.
Proof.
  unfold emit, call_listeners. cbn.
  destruct (fold_listeners_frame (event_arg n) (listeners_for n w) w)
    as (-> & -> & -> & -> & ->). easy.
Qed.

Lemma notify_not_disconnected lines :
  Forall not_disconnected (flat_map notify lines).
Proof.
  induction lines as [|l lines IH]; [constructor|].
  cbn [flat_map]. apply Forall_app. split; [|exact IH].
  unfold notify. destruct (JSON_parse l) as [v|e].
  - destruct (ToBoolean v); repeat constructor. intros e. discriminate.
  - repeat constructor. intros e'. discriminate.
Qed.

Lemma history_step w i :
  i <> SockClose ->
  exists ns, history (step w i) = (history w ++ ns)%list /\
             Forall not_disconnected ns.
Proof.
  intros Hi. unfold history.
  assert (forall w', emitted w' = emitted w -> immediates w' = immediates w ->
            exists ns, (emitted w' ++ immediates w' =
                        (emitted w ++ immediates w) ++ ns)%list /\
                       Forall not_disconnected ns) as Hsame.
  { intros w' -> ->. exists []. now rewrite app_nil_r. }
  destruct i; cbn [step]; try congruence.
  - apply Hsame; unfold connect;
      (destruct (socket (data w)); [destruct (connected (data w))|]); easy.
  - apply Hsame; unfold disconnect; destruct (socket (data w)); easy.
  - apply Hsame; unfold send;
      (destruct (negb (check.nonEmptyString d)); [easy|]);
      (destruct (negb (connected (data w))); [easy|]);
      destruct d; try easy; destruct (socket (data w)); easy.
  - exists [NConnected]. cbn. rewrite app_assoc. split; [easy|].
    repeat constructor. intros e. discriminate.
  - apply Hsame; unfold onSocketTimeout, disconnect; cbn;
      destruct (socket (data w)); easy.
  - now apply Hsame.
  - rewrite onSocketData_spec. cbn.
    eexists. rewrite app_assoc. split; [reflexivity|].
    apply notify_not_disconnected.
  - destruct (immediates w) as [|n q] eqn:Eq; [now apply Hsame|].
    destruct (emit_frame n (set_immediates q w)) as (_ & -> & -> & _).
    cbn. exists []. rewrite app_nil_r, <- app_assoc. easy.
  - apply Hsame; destruct (timers w !! t) as [[h ms []]|]; easy.
  - apply Hsame; destruct (bool_decide (p ∈ writes w)); easy.
  - apply Hsame; apply connect_frame.
Qed.

(** Running the queued callbacks delivers them in the order they were
    queued. *)
Lemma run_immediates w :
  let w' := run w (repeat RunImmediate (length (immediates w))) in
  emitted w' = history w /\ immediates w' = [] /\ data w' = data w.
Proof.
  cbv zeta. unfold history.
  remember (immediates w) as q eqn:Eq. revert w Eq.
  induction q as [|n q IH]; intros w Eq; cbn [length repeat run foldl].
  - now rewrite app_nil_r.
  - fold (run (step w RunImmediate) (repeat RunImmediate (length q))).
    cbn [step]. rewrite <- Eq.
    destruct (emit_frame n (set_immediates q w)) as (Hd & Hi & He & _).
    destruct (IH (emit n (set_immediates q w))) as (-> & -> & ->); [easy|].
    rewrite He, Hd. cbn. now rewrite <- app_assoc.
Qed.

(** *** The buffer across steps *)

Lemma step_keeps_buffer w i :
  not_data i = true ->
  buffer (data (step w i)) = buffer (data w) /\
  options (data (step w i)) = options (data w).
Proof.
  intros Hi. destruct i; cbn [step]; try discriminate.
  - unfold connect.
    destruct (socket (data w)); [destruct (connected (data w))|]; easy.
  - unfold disconnect. destruct (socket (data w)); easy.
  - unfold send. destruct (negb (check.nonEmptyString d)); [easy|].
    destruct (negb (connected (data w))); [easy|].
    destruct d; try easy. destruct (socket (data w)); easy.
  - easy.
  - unfold onSocketTimeout, disconnect. cbn. destruct (socket (data w)); easy.
  - easy.
  - easy.
  - destruct (immediates w) as [|n q]; [easy|].
    destruct (emit_frame n (set_immediates q w)) as (-> & _). easy.
  - destruct (timers w !! t) as [[h ms []]|]; easy.
  - destruct (bool_decide (p ∈ writes w)); easy.
  - split; apply connect_frame.
Qed.

Lemma run_keeps_buffer w trace :
  forallb not_data trace = true ->
  buffer (data (run w trace)) = buffer (data w) /\
  options (data (run w trace)) = options (data w).
Proof.
  revert w. induction trace as [|i trace IH]; intros w H; [easy|].
  cbn in H. apply andb_true_iff in H as [Hi Htr].
  change (run w (i :: trace)) with (run (step w i) trace).
  destruct (IH (step w i) Htr) as [-> ->]. now apply step_keeps_buffer.
Qed.

Lemma reachable_buffer w :
  reachable w -> split_first (buffer_text (data w)) = None.
Proof.
  induction 1 as [host port extra d H|w i _ IH He].
  - apply constructor_inr in H as (_ & _ & _ & ->). reflexivity.
  - destruct (not_data i) eqn:Ei.
    + unfold buffer_text in *.
      destruct (step_keeps_buffer w i Ei) as [-> _]. exact IH.
    + destruct i; try discriminate. cbn [step]. rewrite onSocketData_spec.
      apply remainder_no_LF.
Qed.

(** *** The claims about construction *)

(** C7 (as amended).  Construction throws exactly when [host] is not a
    non-empty string, or [port] is not a number in the range 1 to 65535
    (bounds included; the number need not be an integer), or [extra] is
    neither [undefined], [null] nor a plain object; what it throws is a
    TypeError.  On success the stored options have [rejectUnauthorized] set
    to [true] unless [extra] has that key, and to [extra]'s value when it
    does. *)
Theorem constructor_validates host port extra :
  (throws (constructor host port extra) <->
   ~ non_empty_string host \/ ~ number_in_range port 1 65535 \/
   ~ absent_or_object extra) /\
  (forall e, constructor host port extra = inl e -> name e = "TypeError") /\
  (forall d, constructor host port extra = inr d ->
     options d !! "rejectUnauthorized" =
     match own_enumerable extra !! "rejectUnauthorized" with
     | Some v => Some v
     | None => Some (JSBoolean true)
     end).
Proof.
  rewrite <- nonEmptyString_spec, <- inRange_spec, <- maybe_object_spec.
  repeat split.
  - intros [e He]. unfold constructor, check.assert in He.
    destruct (check.nonEmptyString host); [|left; congruence].
    destruct (check.inRange port 1 65535); [|right; left; congruence].
    destruct (check.maybe check.object extra); [discriminate|].
    right; right; congruence.
  - unfold throws, constructor, check.assert. intros H.
    destruct (check.nonEmptyString host); [|eauto].
    destruct (check.inRange port 1 65535); [|eauto].
    destruct (check.maybe check.object extra); [|eauto].
    exfalso. tauto.
  - unfold constructor, check.assert. intros e.
    destruct (check.nonEmptyString host); [|now intros [= <-]].
    destruct (check.inRange port 1 65535); [|now intros [= <-]].
    destruct (check.maybe check.object extra); [discriminate|].
    now intros [= <-].
  - intros d Hd. apply constructor_inr in Hd as (_ & _ & _ & ->).
    cbn [options Object_assign foldl own_enumerable].
    rewrite lookup_union_r by now simplify_map_eq.
    rewrite lookup_union.
    destruct (own_enumerable extra !! "rejectUnauthorized");
      now simplify_map_eq.
Qed.

(** C10.  Whatever [extra] holds, the stored options have [host] and [port]
    equal to the constructor's arguments and [path] and [socket] set to
    [undefined]; on every other key they are [extra] laid over the default
    [{ rejectUnauthorized: true }], so [extra] overrides that default. *)
Theorem constructor_pins_target host port extra d :
  constructor host port extra = inr d ->
  options d !! "host" = Some host /\
  options d !! "port" = Some port /\
  options d !! "path" = Some JSUndefined /\
  options d !! "socket" = Some JSUndefined /\
  (forall k, k ∉ target_keys ->
     options d !! k =
     (own_enumerable extra ∪ {[ "rejectUnauthorized" := JSBoolean true ]}) !! k) /\
  (forall v, own_enumerable extra !! "rejectUnauthorized" = Some v ->
     options d !! "rejectUnauthorized" = Some v).
Proof.
  intros Hd. apply constructor_inr in Hd as (_ & _ & _ & ->).
  cbn [options Object_assign foldl own_enumerable].
  repeat split.
  - apply lookup_union_Some_l. now simplify_map_eq.
  - apply lookup_union_Some_l. now simplify_map_eq.
  - apply lookup_union_Some_l. now simplify_map_eq.
  - apply lookup_union_Some_l. now simplify_map_eq.
  - intros k Hk. apply lookup_union_r.
    unfold target_keys in Hk. rewrite !not_elem_of_cons in Hk.
    destruct Hk as (? & ? & ? & ? & _). now simplify_map_eq.
  - intros v Hv. rewrite lookup_union_r by now simplify_map_eq.
    now apply lookup_union_Some_l.
Qed.

(** *** The claims about framing *)

Lemma notify_length lines :
  (length (flat_map notify lines) <= length lines)%nat /\
  (Forall (fun l => forall v, JSON_parse l = inl v -> ToBoolean v = true) lines ->
   length (flat_map notify lines) = length lines).
Proof.
  induction lines as [|l lines [IH1 IH2]]; [easy|].
  cbn [flat_map]. rewrite length_app. cbn [length]. unfold notify at 1 3.
  split.
  - destruct (JSON_parse l) as [v|e]; [destruct (ToBoolean v)|]; cbn; lia.
  - intros H. apply Forall_cons in H as [Hl Hrest]. rewrite (IH2 Hrest).
    destruct (JSON_parse l) as [v|e]; [|reflexivity].
    now rewrite (Hl v eq_refl).
Qed.

(** C1 (as amended).  Whatever the chunk boundaries, processing the chunks
    schedules, in stream order, one notification for each complete line of
    the buffered text followed by the chunks that either fails to parse (an
    error notification) or parses to a value that passes [if (message)] (a
    data notification carrying the parsed value); a line that parses to
    [null], [false], [0] or the empty string schedules nothing.  So K
    complete lines give at most K notifications, and exactly K when no line
    parses to such a value.  A line that fails to parse yields its error
    notification and leaves the notifications of the lines before and after
    it as they are.  The callbacks run in the order they were queued. *)
Theorem framing_notifications (w : World) (chunks : list string) :
  split_first (buffer_text (data w)) = None ->
  let text := buffer_text (data w) ++ concat_chunks chunks in
  let lines := complete_lines text in
  let w' := receive w chunks in
  immediates w' = (immediates w ++ flat_map notify lines)%list /\
  emitted w' = emitted w /\
  buffer_text (data w') = remainder text /\
  (length (flat_map notify lines) <= length lines)%nat /\
  (Forall (fun l => forall v, JSON_parse l = inl v -> ToBoolean v = true) lines ->
   length (flat_map notify lines) = length lines) /\
  (forall before bad after e,
     lines = (before ++ bad :: after)%list -> JSON_parse bad = inr e ->
     flat_map notify lines =
     (flat_map notify before ++ NError e :: flat_map notify after)%list) /\
  emitted (run w' (repeat RunImmediate (length (immediates w')))) =
    (history w ++ flat_map notify lines)%list.
Proof.
  intros Hbuf text lines w'.
  assert (immediates w' = (immediates w ++ flat_map notify lines)%list /\
          emitted w' = emitted w /\
          buffer_text (data w') = remainder text) as (Hq & He & Hb).
  { subst w' lines text. destruct chunks as [|c chunks].
    - cbn [receive run map foldl concat_chunks foldr].
      rewrite str_app_nil_r. unfold complete_lines, remainder.
      rewrite lines_from_split_first, Hbuf. cbn. now rewrite app_nil_r.
    - rewrite receive_spec by discriminate. easy. }
  repeat split; try easy.
  - apply notify_length.
  - apply notify_length.
  - intros before bad after e -> Hbad. rewrite flat_map_app. cbn [flat_map].
    unfold notify at 2. now rewrite Hbad.
  - destruct (run_immediates w') as (-> & _). unfold history.
    now rewrite He, Hq, app_assoc.
Qed.

(** *** The claims about [connect] and [send] *)

(** C2.  With a handle and [connected] true, [connect()] returns a resolved
    promise and changes nothing else; with a handle and [connected] false it
    returns a promise rejected with "Connection already in progress" and
    changes nothing else.  In both cases no call reaches the socket
    primitive, so no second handle is created, and what [tls.connect] would
    have done makes no difference. *)
Theorem connect_with_handle (tls : TlsOutcome) (w : World) (h : Handle) :
  socket (data w) = Some h ->
  (connected (data w) = true ->
   connect tls w = new_promise ByConnect Resolved w /\
   returned (connect tls w) = Some (MkPromise ByConnect Resolved)) /\
  (connected (data w) = false ->
   connect tls w =
     new_promise ByConnect
       (Rejected (Error "Connection already in progress")) w /\
   returned (connect tls w) =
     Some (MkPromise ByConnect
             (Rejected (Error "Connection already in progress")))) /\
  data (connect tls w) = data w /\
  calls (connect tls w) = calls w /\
  listeners (connect tls w) = listeners w /\
  immediates (connect tls w) = immediates w /\
  timers (connect tls w) = timers w.
Proof.
  intros Hs. unfold connect, returned. rewrite Hs.
  destruct (connected (data w)); cbn; rewrite last_snoc;
    repeat split; intros; congruence.
Qed.

Lemma invalid_payload_spec d :
  invalid_payload d <-> check.nonEmptyString d = false.
Proof.
  unfold invalid_payload. split.
  - intros [->|[->|H]]; try reflexivity. destruct d; try reflexivity.
    now contradiction H.
  - destruct d; cbn; try (intros _; right; right; discriminate).
    intros H. right. left. apply negb_false_iff, String.eqb_eq in H.
    now subst.
Qed.

(** C3.  [send(d)] rejects with a TypeError exactly when [d] is missing,
    empty or not a string; for a non-empty string while [connected] is
    false it rejects with a DisconnectedError, whose name differs from
    TypeError; and a rejected [send] only creates its promise: no call is
    made on the socket, no write is pending, the record is unchanged. *)
Theorem send_rejections (w : World) (d : JSValue) :
  reachable w ->
  ((exists msg,
      returned (send d w) = Some (MkPromise BySend (Rejected (TypeError msg))))
   <-> invalid_payload d) /\
  (~ invalid_payload d -> connected (data w) = false ->
   returned (send d w) =
     Some (MkPromise BySend
             (Rejected (DisconnectedError "Transport not connected")))) /\
  (forall m1 m2, name (DisconnectedError m1) <> name (TypeError m2)) /\
  (forall e,
     returned (send d w) = Some (MkPromise BySend (Rejected e)) ->
     send d w = new_promise BySend (Rejected e) w /\
     calls (send d w) = calls w /\
     writes (send d w) = writes w /\
     data (send d w) = data w).
Proof.
  intros Hr. pose proof (reachable_Inv w Hr) as I.
  rewrite invalid_payload_spec. unfold send, returned.
  destruct (check.nonEmptyString d) eqn:Ed; cbn [negb].
  - destruct (connected (data w)) eqn:Ec; cbn [negb].
    + destruct (inv_connected w I Ec) as [h Hh]. rewrite Hh.
      destruct d; try discriminate. cbn. rewrite last_snoc.
      repeat split; try easy; try (intros [msg H]; discriminate).
    + cbn. rewrite last_snoc.
      repeat split; try easy; try (intros [msg H]; discriminate);
        congruence.
  - cbn. rewrite last_snoc.
    repeat split; try easy; try congruence; eauto.
Qed.

Lemma listeners_for_sub n w l : l ∈ listeners_for n w -> l ∈ listeners w.
Proof.
  destruct n; cbn; try (intros H; now apply elem_of_nil in H);
    rewrite list_elem_of_filter; tauto.
Qed.

Lemma frame_lines_from cur s :
  frame_lines (fst (lines_from cur s)) ++ snd (lines_from cur s) = cur ++ s.
Proof.
  revert cur. induction s as [|c s IH]; intros cur; cbn [lines_from].
  - cbn. now rewrite str_app_nil_r.
  - destruct (Ascii.eqb c LF) eqn:E.
    + apply Ascii.eqb_eq in E as ->. specialize (IH EmptyString).
      destruct (lines_from EmptyString s) as [ls r]. cbn [fst snd] in *.
      change (frame_lines (cur :: ls)) with (cur ++ newline ++ frame_lines ls).
      rewrite !str_app_assoc, IH. reflexivity.
    + rewrite IH, str_app_assoc. reflexivity.
Qed.

Lemma lines_from_lines_no_LF cur s :
  split_first cur = None ->
  Forall (fun l => split_first l = None) (fst (lines_from cur s)).
Proof.
  revert cur. induction s as [|c s IH]; intros cur Hcur; cbn [lines_from].
  - constructor.
  - destruct (Ascii.eqb c LF) eqn:E.
    + specialize (IH EmptyString eq_refl). destruct (lines_from EmptyString s).
      now constructor.
    + apply IH. rewrite split_first_app, Hcur. cbn. now rewrite E.
Qed.

(** C4.  For a non-empty string sent while connected, [send] makes exactly
    one call on the socket: a write of the payload followed by one line feed,
    in 'utf8'; its promise is pending after the call and becomes resolved
    only by the step in which the socket invokes that write's callback, and
    is resolved by that step.  On the inbound side the candidates handed to
    the codec are exactly the pieces of the text between line feeds: put
    back together with one line feed after each, and followed by the
    remainder, they give the text again, character for character, and none
    of them contains a line feed. *)
Theorem send_writes_one_line (w : World) (text : string) :
  reachable w -> connected (data w) = true -> text <> EmptyString ->
  (exists h, socket (data w) = Some h /\
     calls (send (JSString text) w) =
       (calls w ++ [SocketWrite h (text ++ newline) "utf8"
                      (length (promises w))])%list /\
     promises (send (JSString text) w) =
       (promises w ++ [MkPromise BySend Pending])%list /\
     writes (send (JSString text) w) =
       (writes w ++ [length (promises w)])%list /\
     data (send (JSString text) w) = data w) /\
  (forall i p,
     promises w !! p = Some (MkPromise BySend Pending) ->
     promises (step w i) !! p = Some (MkPromise BySend Resolved) ->
     i = WriteDone p) /\
  (forall p, p ∈ writes w ->
     promises w !! p = Some (MkPromise BySend Pending) /\
     promises (step w (WriteDone p)) !! p = Some (MkPromise BySend Resolved)) /\
  (forall s,
     frame_lines (complete_lines s) ++ remainder s = s /\
     Forall (fun l => split_first l = None) (complete_lines s) /\
     split_first (remainder s) = None) /\
  (forall chunk,
     immediates (onSocketData chunk w) =
       (immediates w ++
        flat_map notify (complete_lines (buffer_text (data w) ++ chunk)))%list) /\
  (split_first text = None ->
   complete_lines (text ++ newline) = [text] /\
   remainder (text ++ newline) = EmptyString).
Proof.
  intros Hr Hc Htext. pose proof (reachable_Inv w Hr) as I.
  repeat apply conj.
  - destruct (inv_connected w I Hc) as [h Hh]. exists h. split; [exact Hh|].
    unfold send. cbn [check.nonEmptyString].
    apply String.eqb_neq in Htext. rewrite Htext, Hc, Hh. cbn. easy.
  - intros i p Hp Hp'.
    destruct (step_promise w i p _ Hp) as (pr' & Hlk & _ & Hcase).
    rewrite Hp' in Hlk. injection Hlk as <-.
    destruct Hcase as [?|(_ & [(-> & _)|(n & q & l & _ & _ & Hl & Hlp & _)])];
      [discriminate|reflexivity|].
    exfalso. subst p.
    pose proof (listener_of_promise w l _ I (listeners_for_sub _ _ _ Hl) Hp) as E.
    now destruct l.
  - intros p Hp. pose proof (inv_writes w I p Hp) as Hlk. split; [exact Hlk|].
    cbn [step]. rewrite bool_decide_eq_true_2 by exact Hp. cbn.
    now rewrite list_lookup_alter_eq, Hlk.
  - intros s. split; [|split].
    + unfold complete_lines, remainder. now rewrite frame_lines_from.
    + now apply lines_from_lines_no_LF.
    + apply remainder_no_LF.
  - intros chunk. now rewrite onSocketData_spec.
  - intros Hno. unfold complete_lines, remainder.
    rewrite lines_from_split_first, split_first_app, Hno.
    cbn [newline split_first]. rewrite Ascii.eqb_refl. cbn [fst snd].
    now rewrite str_app_nil_l, str_app_nil_r.
Qed.

(** *** The claims about [disconnect] and the timeout *)

Lemma emit_promise n w p pr :
  promises w !! p = Some pr ->
  exists pr',
    promises (emit n w) !! p = Some pr' /\
    origin pr' = origin pr /\
    ((pr' = pr /\
      (state pr = Pending ->
       forall l, l ∈ listeners_for n w -> listener_promise l <> p)) \/
     (state pr = Pending /\
      exists l, l ∈ listeners_for n w /\ listener_promise l = p /\
                state pr' = verdict (event_arg n) l)).
Proof.
  intros Hp. unfold emit, call_listeners. cbn [promises set_emitted].
  rewrite fold_listeners_promises. now apply fold_settle_lookup.
Qed.

(** C5.  [disconnect()] never rejects.  Without a handle it returns a
    resolved promise and does nothing else.  With a handle it calls
    [socket.end()], arms a timer of 5000 ms bound to the handle's
    [destroy], registers its listener, and returns a pending promise; that
    promise becomes resolved only by the step that delivers a
    'disconnected' notification, and is resolved by it.  When the timer
    fires first the handle is destroyed and no promise changes. *)
Theorem disconnect_contract (w : World) :
  reachable w ->
  (socket (data w) = None ->
   disconnect w = new_promise ByDisconnect Resolved w) /\
  (forall h, socket (data w) = Some h ->
     promises (disconnect w) =
       (promises w ++ [MkPromise ByDisconnect Pending])%list /\
     calls (disconnect w) = (calls w ++ [SocketEnd h])%list /\
     timers (disconnect w) = (timers w ++ [MkTimer h 5000 Armed])%list /\
     listeners (disconnect w) =
       (listeners w ++
        [DisconnectOnDisconnected (length (promises w)) (length (timers w))])%list /\
     data (disconnect w) = data w /\
     immediates (disconnect w) = immediates w) /\
  (forall p pr e,
     promises w !! p = Some pr -> origin pr = ByDisconnect ->
     state pr <> Rejected e) /\
  (forall i p,
     promises w !! p = Some (MkPromise ByDisconnect Pending) ->
     promises (step w i) !! p = Some (MkPromise ByDisconnect Resolved) ->
     i = RunImmediate /\ exists e q, immediates w = NDisconnected e :: q) /\
  (forall p e q,
     promises w !! p = Some (MkPromise ByDisconnect Pending) ->
     immediates w = NDisconnected e :: q ->
     promises (step w RunImmediate) !! p =
       Some (MkPromise ByDisconnect Resolved)) /\
  (forall t h ms,
     timers w !! t = Some (MkTimer h ms Armed) ->
     calls (step w (TimerFire t)) = (calls w ++ [SocketDestroy h])%list /\
     promises (step w (TimerFire t)) = promises w /\
     data (step w (TimerFire t)) = data w).
Proof.
  intros Hr. pose proof (reachable_Inv w Hr) as I.
  repeat apply conj.
  - intros Hs. unfold disconnect. now rewrite Hs.
  - intros h Hs. unfold disconnect. rewrite Hs. cbn. easy.
  - intros p pr e Hp Ho.
    destruct (inv_disconnect w I p pr Hp Ho) as [H|[H _]]; rewrite H;
      discriminate.
  - intros i p Hp Hp'.
    destruct (step_promise w i p _ Hp) as (pr' & Hlk & _ & Hcase).
    rewrite Hp' in Hlk. injection Hlk as <-.
    destruct Hcase as [?|(_ & [(_ & Hw & _)|(n & q & l & -> & Hq & Hl & Hlp & _)])];
      [discriminate| |].
    + pose proof (inv_writes w I p Hw) as E. congruence.
    + split; [reflexivity|]. subst p.
      pose proof (listener_of_promise w l _ I (listeners_for_sub _ _ _ Hl) Hp) as E.
      destruct n; cbn in Hl.
      * apply list_elem_of_filter in Hl as [Hl _]. now destruct l.
      * eauto.
      * now apply elem_of_nil in Hl.
      * now apply elem_of_nil in Hl.
  - intros p e q Hp Hq. cbn [step]. rewrite Hq.
    destruct (inv_disconnect w I p _ Hp eq_refl) as [?|[_ [t Ht]]];
      [discriminate|].
    destruct (emit_promise (NDisconnected e) (set_immediates q w) p _ Hp)
      as (pr' & Hlk & Ho & Hcase).
    rewrite Hlk. f_equal.
    destruct Hcase as [[_ Hnone]|(_ & l & Hl & Hlp & Hv)].
    + exfalso. apply (Hnone eq_refl (DisconnectOnDisconnected p t));
        [|reflexivity].
      cbn. apply list_elem_of_filter. now split.
    + subst p.
      pose proof (listener_of_promise w l _ I (listeners_for_sub _ _ _ Hl) Hp) as E.
      destruct pr' as [o st]. cbn in *. subst o.
      destruct l; cbn in *; congruence.
  - intros t h ms Ht. cbn [step]. rewrite Ht. easy.
Qed.

Lemma keeps_error_step w i :
  keeps_error i = true -> error (data (step w i)) = error (data w).
Proof.
  intros Hi. destruct i; cbn [step]; try discriminate.
  - unfold connect.
    destruct (socket (data w)); [destruct (connected (data w))|]; easy.
  - unfold disconnect. destruct (socket (data w)); easy.
  - unfold send. destruct (negb (check.nonEmptyString d)); [easy|].
    destruct (negb (connected (data w))); [easy|].
    destruct d; try easy. destruct (socket (data w)); easy.
  - now rewrite onSocketData_spec.
  - destruct (immediates w) as [|n q]; [easy|].
    destruct (emit_frame n (set_immediates q w)) as (-> & _). easy.
  - destruct (timers w !! t) as [[h ms []]|]; easy.
  - destruct (bool_decide (p ∈ writes w)); easy.
  - apply connect_frame.
Qed.

Lemma keeps_error_run w mid :
  forallb keeps_error mid = true ->
  error (data (run w mid)) = error (data w) /\
  exists ns, history (run w mid) = (history w ++ ns)%list /\
             Forall not_disconnected ns.
Proof.
  revert w. induction mid as [|i mid IH]; intros w Hq.
  - split; [easy|]. exists []. now rewrite app_nil_r.
  - cbn in Hq. apply andb_true_iff in Hq as [Hi Hmid].
    change (run w (i :: mid)) with (run (step w i) mid).
    destruct (IH (step w i) Hmid) as (Herr & ns & Hh & Hns).
    rewrite Herr, (keeps_error_step w i Hi). split; [easy|].
    destruct (history_step w i) as (ns0 & Hh0 & Hns0);
      [intros ->; discriminate|].
    exists (ns0 ++ ns)%list. rewrite Hh, Hh0, app_assoc. split; [easy|].
    now apply Forall_app.
Qed.



Lemma run_app w t1 t2 : run w (t1 ++ t2) = run (run w t1) t2.
Proof. apply foldl_app. Qed.


(** C8.  The stored error is cleared by the 'secureConnect' handler; the
    'close' handler attaches it to the 'disconnected' notification it
    schedules and clears it; and in every reachable world without a handle
    the stored error is [null], so a connection started by [connect()]
    starts with no stored error (and none is stored when [tls.connect]
    throws). *)
Theorem pending_error_lifecycle (w : World) :
  reachable w ->
  error (data (onSocketSecureConnect w)) = None /\
  immediates (onSocketClose w) =
    (immediates w ++ [NDisconnected (error (data w))])%list /\
  error (data (onSocketClose w)) = None /\
  (socket (data w) = None -> error (data w) = None) /\
  (socket (data w) = None ->
   forall tls, error (data (connect tls w)) = None).
Proof.
  intros Hr. pose proof (reachable_Inv w Hr) as I.
  repeat split; try easy.
  - apply I.
  - intros Hs tls.
    destruct (connect_frame tls w) as (_ & _ & _ & _ & _ & _ & ->).
    now apply I.
Qed.

Lemma no_LF_lines s :
  split_first s = None -> complete_lines s = [] /\ remainder s = s.
Proof.
  intros H. unfold complete_lines, remainder.
  now rewrite lines_from_split_first, H.
Qed.

Lemma one_line x rest :
  split_first x = None -> split_first rest = None ->
  complete_lines (x ++ rest ++ newline) = [(x ++ rest)%string] /\
  remainder (x ++ rest ++ newline) = EmptyString.
Proof.
  intros Hx Hrest. unfold complete_lines, remainder.
  rewrite lines_from_split_first, !split_first_app, Hx, Hrest.
  cbn [newline split_first]. rewrite Ascii.eqb_refl. cbn [fst snd].
  now rewrite str_app_nil_l, !str_app_nil_r.
Qed.

(** C9.  The 'close' handler resets [error], [socket] and [connected] and
    leaves [buffer] (and [options]) as they are; no step other than the
    arrival of data changes the buffer.  So an unterminated line received
    before the close is still buffered when the next connection delivers
    data, and the first candidate parsed then is that partial line followed
    by the new bytes up to their first line feed. *)
Theorem close_keeps_buffer (w : World) (c1 c2 : string) (mid : list Input) :
  forallb not_data mid = true ->
  onSocketClose w =
    setImmediate (NDisconnected (error (data w)))
      (set_data {| options := options (data w); socket := None;
                   connected := false; error := None;
                   buffer := buffer (data w) |} w) /\
  buffer (data (onSocketClose w)) = buffer (data w) /\
  let w1 := onSocketData c1 w in
  let w2 := run w1 (SockClose :: mid) in
  let w3 := onSocketData c2 w2 in
  buffer_text (data w2) = remainder (buffer_text (data w) ++ c1) /\
  immediates w3 =
    (immediates w2 ++
     flat_map notify
       (complete_lines (remainder (buffer_text (data w) ++ c1) ++ c2)))%list /\
  (forall rest,
     split_first (buffer_text (data w) ++ c1) = None ->
     split_first rest = None -> c2 = rest ++ newline ->
     immediates w3 =
       (immediates w2 ++ notify ((buffer_text (data w) ++ c1) ++ rest))%list /\
     buffer_text (data w3) = EmptyString).
Proof.
  intros Hmid. split; [reflexivity|]. split; [reflexivity|]. cbv zeta.
  assert (buffer_text (data (run (onSocketData c1 w) (SockClose :: mid))) =
          remainder (buffer_text (data w) ++ c1)) as Hb.
  { unfold buffer_text at 1.
    destruct (run_keeps_buffer (onSocketData c1 w) (SockClose :: mid))
      as [-> _]; [exact Hmid|].
    now rewrite onSocketData_spec. }
  split; [exact Hb|].
  rewrite (onSocketData_spec c2). cbv zeta. rewrite Hb.
  split; [reflexivity|].
  intros rest Hpart Hrest ->. cbn [immediates schedule set_data set_immediates
                                   data set_buffer buffer_text buffer].
  destruct (no_LF_lines _ Hpart) as [_ ->].
  destruct (one_line _ rest Hpart Hrest) as [-> ->].
  cbn [flat_map]. now rewrite app_nil_r.
Qed.

(** ** Further properties *)

(** *** The bookkeeping of listeners, promises and timers *)

Lemma run_listener_elem arg w l x :
  x ∈ listeners (run_listener arg w l) <->
  x ∈ listeners w /\ x <> l /\ x <> partner l.
Proof.
  destruct l; cbn; rewrite !list_elem_of_filter; tauto.
Qed.

Lemma run_listener_timer arg w l t tm :
  timers (run_listener arg w l) !! t = Some tm -> tstate tm = Armed ->
  timers w !! t = Some tm /\ forall p, l <> DisconnectOnDisconnected p t.
Proof.
  destruct l as [p0|p0|p0 t0]; cbn; intros H Ha; try (split; [easy|discriminate]).
  destruct (decide (t0 = t)) as [->|Hne].
  - rewrite list_lookup_alter_eq in H.
    destruct (timers w !! t) as [tm0|]; [|discriminate].
    injection H as <-. destruct (tstate tm0) eqn:E; cbn in Ha; congruence.
  - rewrite list_lookup_alter_ne in H by easy. split; [easy|congruence].
Qed.

Lemma run_listener_lookup arg w l q :
  promises (run_listener arg w l) !! q =
  if decide (listener_promise l = q)
  then settle_promise (verdict arg l) <$> promises w !! q
  else promises w !! q.
Proof.
  rewrite run_listener_promises. destruct (decide _) as [<-|Hne].
  - apply list_lookup_alter_eq.
  - now apply list_lookup_alter_ne.
Qed.

Lemma Tidy_same_promise w l l' :
  Tidy w -> l ∈ listeners w -> l' ∈ listeners w ->
  listener_promise l' = listener_promise l -> l' = l \/ l' = partner l.
Proof.
  intros T Hl Hl' Hp.
  destruct (tidy_owner w T l Hl) as (st & E & _).
  destruct (tidy_owner w T l' Hl') as (st' & E' & _).
  rewrite Hp, E in E'. injection E' as Ho _.
  destruct l as [p|p|p t], l' as [p'|p'|p' t']; cbn in *; subst;
    try discriminate; auto.
  left. f_equal. eapply tidy_uniq; eauto.
Qed.

Lemma Tidy_run_listener arg w l :
  Tidy w -> l ∈ listeners w -> Tidy (run_listener arg w l).
Proof.
  intros T Hl.
  assert (forall x, x ∈ listeners (run_listener arg w l) ->
                    listener_promise x <> listener_promise l) as Hother.
  { intros x Hx Hp. apply run_listener_elem in Hx as (Hx & H1 & H2).
    destruct (Tidy_same_promise w l x T Hl Hx Hp); contradiction. }
  split.
  - destruct l; cbn; repeat apply NoDup_filter; apply T.
  - intros x Hx. rewrite run_listener_lookup.
    destruct (decide _) as [E|_]; [now destruct (Hother x Hx)|].
    apply (tidy_owner w T). now apply run_listener_elem in Hx.
  - intros p. rewrite !run_listener_elem.
    pose proof (tidy_pair w T p) as Hp.
    destruct l as [p0|p0|p0 t0]; cbn; split; intros (H & H1 & H2);
      (split; [tauto|]); split; congruence.
  - intros p t t' H1 H2. apply run_listener_elem in H1 as (H1 & _).
    apply run_listener_elem in H2 as (H2 & _). eapply tidy_uniq; eauto.
  - intros t tm Ht Ha.
    destruct (run_listener_timer arg w l t tm Ht Ha) as (Ht' & Hne).
    destruct (tidy_timers w T t tm Ht' Ha) as [p Hp]. exists p.
    apply run_listener_elem. split; [easy|].
    split; [apply not_eq_sym, Hne|].
    destruct l; cbn; try discriminate. apply not_eq_sym, Hne.
  - intros p. rewrite run_listener_lookup.
    destruct (decide _) as [E|Hne].
    + destruct (tidy_owner w T l Hl) as (st & Hlk & Hst). rewrite E in Hlk.
      rewrite Hlk. cbn. intros [= Hv]. unfold settle_promise in Hv. cbn in Hv.
      destruct Hst as [->|(_ & e & ->)]; cbn in Hv; [|discriminate].
      now destruct l.
    + intros Hp. apply run_listener_elem.
      split; [exact (tidy_connect w T p Hp)|].
      destruct l; cbn in *; split; congruence.
Qed.

Lemma Tidy_round arg ls w :
  Tidy w -> NoDup ls ->
  (forall l, l ∈ ls -> l ∈ listeners w) ->
  (forall l l', l ∈ ls -> l' ∈ ls -> l' = partner l -> l' = l) ->
  Tidy (foldl (run_listener arg) w ls).
Proof.
  revert w. induction ls as [|l ls IH]; intros w T Hnd Hsub Hpart; [exact T|].
  cbn [foldl]. apply NoDup_cons in Hnd as [Hnotin Hnd].
  apply IH; [|exact Hnd| |].
  - apply Tidy_run_listener; [exact T|]. apply Hsub. now left.
  - intros l' Hl'. apply run_listener_elem. split; [apply Hsub; now right|].
    split.
    + intros ->. contradiction.
    + intros E. assert (l' = l) as -> by (apply Hpart; [now left|now right|easy]).
      contradiction.
  - intros l1 l2 H1 H2. apply Hpart; now right.
Qed.

Lemma Tidy_emit n w : Tidy w -> Tidy (emit n w).
Proof.
  intros T.
  assert (Tidy (call_listeners n w)) as [T1 T2 T3 T4 T5 T6].
  { unfold call_listeners. apply Tidy_round; [exact T| | |].
    - destruct n; cbn; try apply NoDup_nil_2; apply NoDup_filter, T.
    - intros l Hl. now apply listeners_for_sub in Hl.
    - intros l l' Hl Hl' E. subst l'.
      destruct n; cbn in Hl, Hl'; try now apply elem_of_nil in Hl.
      + apply list_elem_of_filter in Hl as [Hl _].
        apply list_elem_of_filter in Hl' as [Hl' _]. now destruct l.
      + apply list_elem_of_filter in Hl as [Hl _].
        apply list_elem_of_filter in Hl' as [Hl' _]. now destruct l. }
  unfold emit. split; assumption.
Qed.

Lemma Tidy_new d : Tidy (new_world d).
Proof.
  split; cbn; try (intros; match goal with H : _ ∈ [] |- _ =>
                                  now apply elem_of_nil in H end);
    try easy; try constructor.
Qed.

(** Steps that only add listeners, promises and timers. *)
Lemma Tidy_extend w w' newls newps newts :
  Tidy w ->
  listeners w' = (listeners w ++ newls)%list ->
  promises w' = (promises w ++ newps)%list ->
  timers w' = (timers w ++ newts)%list ->
  NoDup newls ->
  (forall l, l ∈ newls ->
     exists i st, listener_promise l = (length (promises w) + i)%nat /\
                  newps !! i = Some (MkPromise (listener_origin l) st) /\
                  awaited (listener_origin l) st) ->
  (forall p, ConnectOnConnected p ∈ newls <-> ConnectOnDisconnected p ∈ newls) ->
  (forall p t t', DisconnectOnDisconnected p t ∈ newls ->
                  DisconnectOnDisconnected p t' ∈ newls -> t = t') ->
  (forall i tm, newts !! i = Some tm -> tstate tm = Armed ->
     exists p, DisconnectOnDisconnected p (length (timers w) + i) ∈ newls) ->
  (forall i, newps !! i = Some (MkPromise ByConnect Pending) ->
     ConnectOnConnected (length (promises w) + i) ∈ newls) ->
  Tidy w'.
Proof.
  intros T Hl Hp Ht Hnd Hnew Hpair Huniq Htim Hconn.
  assert (forall l, l ∈ listeners w ->
                    (listener_promise l < length (promises w))%nat) as Hold.
  { intros l Hin. destruct (tidy_owner w T l Hin) as (st & Hlk & _).
    eapply lookup_lt_Some, Hlk. }
  assert (forall l, l ∈ newls ->
                    (length (promises w) <= listener_promise l)%nat) as Hfresh.
  { intros l Hin. destruct (Hnew l Hin) as (i & st & -> & _). lia. }
  split.
  - rewrite Hl. apply NoDup_app. split; [apply T|]. split; [|exact Hnd].
    intros x Hx Hx'. specialize (Hold x Hx). specialize (Hfresh x Hx'). lia.
  - intros l. rewrite Hl, Hp, elem_of_app. intros [Hin|Hin].
    + destruct (tidy_owner w T l Hin) as (st & Hlk & Hst). exists st.
      split; [|exact Hst]. now apply lookup_app_l_Some.
    + destruct (Hnew l Hin) as (i & st & -> & Hi & Hst). exists st.
      split; [|exact Hst]. rewrite lookup_app_r by lia.
      now replace (length (promises w) + i - length (promises w))%nat with i
        by lia.
  - intros p. rewrite Hl, !elem_of_app.
    pose proof (tidy_pair w T p). pose proof (Hpair p). tauto.
  - intros p t t'. rewrite Hl, !elem_of_app. intros [H1|H1] [H2|H2].
    + eapply tidy_uniq; eauto.
    + specialize (Hold _ H1). specialize (Hfresh _ H2). cbn in *. lia.
    + specialize (Hold _ H2). specialize (Hfresh _ H1). cbn in *. lia.
    + eapply Huniq; eauto.
  - intros t tm. rewrite Ht, Hl. intros Hlk Ha.
    apply lookup_app_Some in Hlk as [Hlk|[Hge Hlk]].
    + destruct (tidy_timers w T t tm Hlk Ha) as [p Hin]. exists p.
      apply elem_of_app. now left.
    + destruct (Htim _ _ Hlk Ha) as [p Hin]. exists p.
      apply elem_of_app. right.
      now replace t with (length (timers w) + (t - length (timers w)))%nat
        by lia.
  - intros p. rewrite Hp, Hl. intros Hlk.
    apply lookup_app_Some in Hlk as [Hlk|[Hge Hlk]]; apply elem_of_app.
    + left. exact (tidy_connect w T p Hlk).
    + right.
      replace p with (length (promises w) + (p - length (promises w)))%nat
        by lia. now apply Hconn.
Qed.

(** A step that adds one promise that is settled, or comes from [send]. *)
Lemma Tidy_promise w w' pr :
  Tidy w ->
  listeners w' = listeners w -> timers w' = timers w ->
  promises w' = (promises w ++ [pr])%list ->
  pr <> MkPromise ByConnect Pending ->
  Tidy w'.
Proof.
  intros T Hl Ht Hp Hpr.
  apply (Tidy_extend w w' [] [pr] [] T); rewrite ?app_nil_r; try easy;
    try (intros ? H; now apply elem_of_nil in H);
    try (intros ? ? ? H; now apply elem_of_nil in H).
  - constructor.
  - intros [|i]; cbn; [congruence|discriminate].
Qed.

Lemma Tidy_frame w w' :
  Tidy w ->
  listeners w' = listeners w -> timers w' = timers w ->
  promises w' = promises w ->
  Tidy w'.
Proof.
  intros T Hl Ht Hp.
  apply (Tidy_extend w w' [] [] [] T); rewrite ?app_nil_r; try easy;
    try (intros ? H; now apply elem_of_nil in H);
    try (intros ? ? ? H; now apply elem_of_nil in H).
  constructor.
Qed.

Lemma Tidy_connect tls w : Tidy w -> Tidy (connect tls w).
Proof.
  intros T. destruct (socket (data w)) as [h|] eqn:Es.
  - unfold connect. rewrite Es.
    destruct (connected (data w)); eapply (Tidy_promise w); try exact T;
      try reflexivity; discriminate.
  - assert (exists st,
              listeners (connect tls w) =
                (listeners w ++ [ConnectOnConnected (length (promises w));
                                 ConnectOnDisconnected (length (promises w))])%list /\
              promises (connect tls w) =
                (promises w ++ [MkPromise ByConnect st])%list /\
              timers (connect tls w) = timers w /\
              awaited ByConnect st) as (st & Hl & Hp & Ht & Hst).
    { destruct tls as [|e].
      - exists Pending. unfold connect. rewrite Es. cbn.
        repeat split. now left.
      - exists (Rejected e).
        destruct (connect_throws_fields e w Es)
          as (_ & Hl & Hp & _ & Ht & _).
        repeat split; try assumption. right. eauto. }
    apply (Tidy_extend w _
             [ConnectOnConnected (length (promises w));
              ConnectOnDisconnected (length (promises w))]
             [MkPromise ByConnect st] [] T); rewrite ?app_nil_r;
      try assumption.
    + repeat constructor; rewrite ?not_elem_of_cons; try easy;
        intros H; now apply elem_of_nil in H.
    + intros l Hin. exists 0%nat, st. rewrite Nat.add_0_r.
      apply elem_of_cons in Hin as [->|Hin]; [easy|].
      apply list_elem_of_singleton in Hin as ->. easy.
    + intros p. rewrite !elem_of_cons.
      split; intros [H|[H|H]]; try discriminate;
        try (now apply elem_of_nil in H); injection H as ->; auto.
    + intros p t t' H. apply elem_of_cons in H as [H|H]; [discriminate|].
      now apply list_elem_of_singleton in H.
    + intros i tm H. destruct i; discriminate H.
    + intros [|i]; cbn; [|discriminate]. intros _. rewrite Nat.add_0_r.
      now left.
Qed.

Lemma Tidy_disconnect w : Tidy w -> Tidy (disconnect w).
Proof.
  intros T. unfold disconnect. destruct (socket (data w)) as [h|].
  - apply (Tidy_extend w _
             [DisconnectOnDisconnected (length (promises w)) (length (timers w))]
             [MkPromise ByDisconnect Pending] [MkTimer h 5000 Armed] T);
      cbn; rewrite ?app_nil_r; try easy.
    + apply NoDup_singleton.
    + intros l Hl. apply list_elem_of_singleton in Hl as ->.
      exists 0%nat, Pending. rewrite Nat.add_0_r. repeat split. now left.
    + intros p. rewrite !list_elem_of_singleton. split; discriminate.
    + intros p t t' H1 H2. apply list_elem_of_singleton in H1, H2. congruence.
    + intros [|i] tm; cbn; [|discriminate]. intros _ _.
      exists (length (promises w)). rewrite Nat.add_0_r.
      now apply list_elem_of_singleton.
    + intros [|i]; cbn; discriminate.
  - eapply (Tidy_promise w); try exact T; try reflexivity; discriminate.
Qed.

Lemma Tidy_send d w : Tidy w -> Tidy (send d w).
Proof.
  intros T. unfold send.
  destruct (negb (check.nonEmptyString d));
    [eapply (Tidy_promise w); try exact T; try reflexivity; discriminate|].
  destruct (negb (connected (data w)));
    [eapply (Tidy_promise w); try exact T; try reflexivity; discriminate|].
  destruct d;
    try (eapply (Tidy_promise w); try exact T; try reflexivity; discriminate).
  destruct (socket (data w));
    eapply (Tidy_promise w); try exact T; try reflexivity; discriminate.
Qed.

Lemma Tidy_step w i : Inv w -> Tidy w -> Tidy (step w i).
Proof.
  intros I T. destruct i; cbn [step].
  - now apply Tidy_connect.
  - now apply Tidy_disconnect.
  - now apply Tidy_send.
  - now apply (Tidy_frame w).
  - apply Tidy_disconnect. now apply (Tidy_frame w).
  - now apply (Tidy_frame w).
  - now apply (Tidy_frame w).
  - rewrite onSocketData_spec. now apply (Tidy_frame w).
  - destruct (immediates w) as [|n q]; [exact T|].
    apply Tidy_emit. now apply (Tidy_frame w).
  - destruct (timers w !! t) as [[h ms []]|] eqn:Et; try exact T.
    destruct T as [T1 T2 T3 T4 T5 T6]. split; cbn; try assumption.
    intros t' tm Hlk Ha. destruct (decide (t = t')) as [<-|Hne].
    + rewrite list_lookup_insert_eq in Hlk by (eapply lookup_lt_Some, Et).
      injection Hlk as <-. discriminate.
    + rewrite list_lookup_insert_ne in Hlk by easy. eauto.
  - destruct (bool_decide (p ∈ writes w)) eqn:Ep; [|exact T].
    apply bool_decide_eq_true in Ep.
    pose proof (inv_writes w I p Ep) as Hp.
    destruct T as [T1 T2 T3 T4 T5 T6]. split; cbn; try assumption.
    + intros l Hl. destruct (T2 l Hl) as (st & Hlk & Hst). exists st.
      split; [|exact Hst]. rewrite list_lookup_alter_ne; [exact Hlk|].
      intros ->. rewrite Hp in Hlk. now destruct l.
    + intros q Hq. apply T6. destruct (decide (p = q)) as [<-|Hne].
      * rewrite list_lookup_alter_eq, Hp in Hq. discriminate.
      * now rewrite list_lookup_alter_ne in Hq.
  - now apply Tidy_connect.
Qed.

Lemma reachable_Tidy w : reachable w -> Tidy w.
Proof.
  induction 1 as [host port extra d H|w i Hr IH He].
  - apply Tidy_new.
  - apply Tidy_step; [now apply reachable_Inv|exact IH].
Qed.

(** *** Emission *)

Lemma emit_data_only n w :
  data_only n = true -> emit n w = set_emitted (emitted w ++ [n]) w.
Proof. now destruct n. Qed.

(** X1.  No method and no socket handler hands a notification to the
    consumer itself: only the step that runs a queued [setImmediate]
    callback does, and it hands over the oldest queued one.  Whatever the
    step, the notifications scheduled so far keep their order and none is
    lost. *)
Theorem emission_is_deferred (w : World) (i : Input) :
  (i <> RunImmediate -> emitted (step w i) = emitted w) /\
  (forall n q, immediates w = n :: q ->
     emitted (step w RunImmediate) = (emitted w ++ [n])%list /\
     immediates (step w RunImmediate) = q) /\
  (exists ns, history (step w i) = (history w ++ ns)%list).
Proof.
  split; [|split].
  - intros Hi. destruct i; cbn [step]; try congruence;
      try (now rewrite onSocketData_spec);
      unfold connect, send, onSocketTimeout, disconnect; cbn;
      repeat case_match; easy.
  - intros n q Hq. cbn [step]. rewrite Hq.
    destruct (emit_frame n (set_immediates q w)) as (_ & -> & -> & _). easy.
  - destruct (is_close i) eqn:Ei.
    + destruct i; try discriminate.
      exists [NDisconnected (error (data w))]. unfold history. cbn.
      now rewrite app_assoc.
    + destruct (history_step w i) as (ns & H & _); [|now exists ns].
      intros ->. discriminate.
Qed.

(** *** [isConnected] *)

Lemma step_keeps_connected w i :
  Inv w -> is_close i = false -> connected (data w) = true ->
  connected (data (step w i)) = true.
Proof.
  intros I Hi Hc. destruct (inv_connected w I Hc) as [h Hh].
  destruct i; cbn [step]; try discriminate.
  - unfold connect. now rewrite Hh, Hc.
  - unfold disconnect. now rewrite Hh.
  - unfold send. destruct (negb (check.nonEmptyString d)); [easy|].
    rewrite Hc, Hh. cbn. now destruct d.
  - easy.
  - unfold onSocketTimeout, disconnect. cbn. now rewrite Hh.
  - easy.
  - now rewrite onSocketData_spec.
  - destruct (immediates w) as [|n q]; [easy|].
    destruct (emit_frame n (set_immediates q w)) as (-> & _). easy.
  - destruct (timers w !! t) as [[h' ms []]|]; easy.
  - destruct (bool_decide (p ∈ writes w)); easy.
  - unfold connect. now rewrite Hh, Hc.
Qed.

Lemma step_sets_connected w i :
  Inv w -> connected (data w) = false ->
  connected (data (step w i)) = true -> i = SockSecureConnect.
Proof.
  intros I Hc. destruct i; cbn [step]; try easy.
  all: try (rewrite onSocketData_spec; cbn; congruence).
  all: try (destruct (immediates w) as [|n q]; [congruence|];
            destruct (emit_frame n (set_immediates q w)) as (-> & _);
            cbn; congruence).
  all: unfold connect, send, onSocketTimeout, disconnect; cbn;
    repeat case_match; cbn; congruence.
Qed.

(** X2.  [isConnected] is true only while a handle exists; it becomes true
    only by the socket's 'secureConnect' event; and once true it stays true
    until the socket's 'close' event, whatever else happens in between,
    calls of [disconnect()] and timeouts included. *)
Theorem isConnected_until_close (w : World) (trace : list Input) :
  reachable w ->
  enabled_trace w trace = true -> closes trace = 0%nat ->
  (isConnected w = true -> is_Some (socket (data w))) /\
  (forall i, isConnected w = false -> isConnected (step w i) = true ->
             i = SockSecureConnect) /\
  (isConnected w = true -> isConnected (run w trace) = true) /\
  isConnected (step w SockClose) = false.
Proof.
  intros Hr He Hc. unfold isConnected.
  split; [apply (reachable_Inv w Hr)|].
  split; [intros i; apply step_sets_connected, reachable_Inv, Hr|].
  split; [|reflexivity].
  revert w Hr He Hc. induction trace as [|i trace IH]; intros w Hr He Hc Hcon;
    [exact Hcon|].
  cbn in He. apply andb_true_iff in He as [Hi He].
  unfold closes in Hc. cbn in Hc.
  destruct (is_close i) eqn:Ei; [discriminate|].
  change (run w (i :: trace)) with (run (step w i) trace).
  apply IH; [now apply reachable_step|exact He|exact Hc|].
  apply step_keeps_connected; [now apply reachable_Inv|exact Ei|exact Hcon].
Qed.

(** *** The error a 'disconnected' notification carries *)

(** X3.  The 'disconnected' notification scheduled by a 'close' carries the
    error stored at that moment: the most recent socket error when one was
    raised since (and no handshake or timeout came after it), and [null] when
    none was raised since the handshake.  Exactly one 'disconnected' is
    scheduled, and the stored error is cleared. *)
Theorem close_reports_last_error (w : World) (mid : list Input) :
  forallb keeps_error mid = true ->
  (let w' := run w (mid ++ [SockClose]) in
   error (data w') = None /\
   exists ns, history w' =
                (history w ++ ns ++ [NDisconnected (error (data w))])%list /\
              Forall not_disconnected ns) /\
  (forall e,
     exists ns, history (run w (SockError e :: mid ++ [SockClose])) =
                  (history w ++ ns ++ [NDisconnected (Some e)])%list /\
                Forall not_disconnected ns) /\
  (exists ns, history (run w (SockSecureConnect :: mid ++ [SockClose])) =
                (history w ++ ns ++ [NDisconnected None])%list /\
              Forall not_disconnected ns).
Proof.
  intros Hmid.
  assert (forall w0,
            error (data (run w0 (mid ++ [SockClose]))) = None /\
            exists ns, history (run w0 (mid ++ [SockClose])) =
                         (history w0 ++ ns ++
                          [NDisconnected (error (data w0))])%list /\
                       Forall not_disconnected ns) as Hgen.
  { intros w0. rewrite run_app.
    destruct (keeps_error_run w0 mid Hmid) as (He & ns & Hh & Hns).
    change (run (run w0 mid) [SockClose]) with (onSocketClose (run w0 mid)).
    split; [reflexivity|]. exists ns. split; [|exact Hns].
    unfold history in *. cbn. now rewrite He, app_assoc, Hh, app_assoc. }
  split; [apply Hgen|]. split.
  - intros e.
    change (run w (SockError e :: mid ++ [SockClose]))
      with (run (step w (SockError e)) (mid ++ [SockClose])).
    destruct (Hgen (step w (SockError e))) as (_ & ns & Hh & Hns).
    exists ns. split; [exact Hh|exact Hns].
  - change (run w (SockSecureConnect :: mid ++ [SockClose]))
      with (run (step w SockSecureConnect) (mid ++ [SockClose])).
    destruct (Hgen (step w SockSecureConnect)) as (_ & ns & Hh & Hns).
    exists ([NConnected] ++ ns)%list. split.
    + rewrite Hh. unfold history. cbn. now rewrite <- !app_assoc.
    + apply Forall_app. split; [|exact Hns].
      repeat constructor. intros e. discriminate.
Qed.

(** *** What the delivery of 'connected' and 'disconnected' leaves behind *)

Lemma fold_listeners_elem arg ls w x :
  x ∈ listeners (foldl (run_listener arg) w ls) ->
  x ∈ listeners w /\ forall l, l ∈ ls -> x <> l /\ x <> partner l.
Proof.
  revert w. induction ls as [|l ls IH]; intros w H.
  - split; [exact H|]. intros l Hl. now apply elem_of_nil in Hl.
  - cbn [foldl] in H. apply IH in H as [H Hall].
    apply run_listener_elem in H as (H & H1 & H2). split; [exact H|].
    intros l' Hl'. apply elem_of_cons in Hl' as [->|Hl']; [easy|now apply Hall].
Qed.

Lemma emit_listeners n w x :
  x ∈ listeners (emit n w) ->
  x ∈ listeners w /\ forall l, l ∈ listeners_for n w -> x <> l /\ x <> partner l.
Proof. unfold emit, call_listeners. cbn. apply fold_listeners_elem. Qed.

Lemma emit_disconnected_listeners w e :
  Tidy w -> listeners (emit (NDisconnected e) w) = [].
Proof.
  intros T.
  destruct (listeners (emit (NDisconnected e) w)) as [|x ls] eqn:El;
    [reflexivity|]. exfalso.
  assert (x ∈ listeners (emit (NDisconnected e) w)) as Hx
    by (rewrite El; now left).
  apply emit_listeners in Hx as [Hx Hall]. cbn in Hx, Hall.
  destruct (on_connected x) eqn:Ex.
  - destruct x as [p|p|p t]; try discriminate.
    apply (tidy_pair w T p) in Hx.
    destruct (Hall (ConnectOnDisconnected p)) as [_ H];
      [now apply list_elem_of_filter|]. now apply H.
  - destruct (Hall x) as [H _]; [|now apply H].
    apply list_elem_of_filter. split; [|exact Hx]. now rewrite Ex.
Qed.

(** X4.  Once a 'disconnected' notification has been delivered the
    transport holds no listener of its own, no destroy timer is armed, and
    no promise of [connect()] or [disconnect()] is pending. *)
Theorem disconnected_leaves_nothing (w : World) (e : option JSError)
  (q : list Notification) :
  reachable w -> immediates w = NDisconnected e :: q ->
  let w' := step w RunImmediate in
  listeners w' = [] /\
  (forall t tm, timers w' !! t = Some tm -> tstate tm <> Armed) /\
  (forall p pr, promises w' !! p = Some pr -> origin pr <> BySend ->
                state pr <> Pending).
Proof.
  intros Hr Hq. cbv zeta. remember (step w RunImmediate) as w' eqn:Ew'.
  assert (reachable w') as Hr' by (subst w'; now apply reachable_step).
  pose proof (reachable_Inv w' Hr') as I'. pose proof (reachable_Tidy w' Hr') as T'.
  pose proof (reachable_Tidy w Hr) as T.
  assert (listeners w' = []) as Hnil.
  { subst w'. cbn [step]. rewrite Hq. apply emit_disconnected_listeners.
    now apply (Tidy_frame w). }
  split; [exact Hnil|]. split.
  - intros t tm Ht Ha. destruct (tidy_timers w' T' t tm Ht Ha) as [p Hp].
    rewrite Hnil in Hp. now apply elem_of_nil in Hp.
  - intros p [o st] Hp Ho Hst. cbn in *. subst st. destruct o.
    + apply (tidy_connect w' T') in Hp. rewrite Hnil in Hp.
      now apply elem_of_nil in Hp.
    + destruct (inv_disconnect w' I' p _ Hp eq_refl) as [?|[_ [t Ht]]];
        [discriminate|]. rewrite Hnil in Ht. now apply elem_of_nil in Ht.
    + now apply Ho.
Qed.

(** X5.  Once a 'connected' notification has been delivered no listener of
    [connect()] is left and no promise of [connect()] is pending. *)
Theorem connected_leaves_no_connect (w : World) (q : list Notification) :
  reachable w -> immediates w = NConnected :: q ->
  let w' := step w RunImmediate in
  (forall l, l ∈ listeners w' -> listener_origin l = ByDisconnect) /\
  (forall p pr, promises w' !! p = Some pr -> origin pr = ByConnect ->
                state pr <> Pending).
Proof.
  intros Hr Hq. cbv zeta. remember (step w RunImmediate) as w' eqn:Ew'.
  assert (reachable w') as Hr' by (subst w'; now apply reachable_step).
  pose proof (reachable_Tidy w' Hr') as T'. pose proof (reachable_Tidy w Hr) as T.
  assert (forall l, l ∈ listeners w' -> listener_origin l = ByDisconnect) as Hl.
  { intros x Hx. subst w'. cbn [step] in Hx. rewrite Hq in Hx.
    apply emit_listeners in Hx as [Hx Hall]. cbn in Hx, Hall.
    destruct x as [p|p|p t]; [| |reflexivity]; exfalso.
    - destruct (Hall (ConnectOnConnected p)) as [H _]; [|now apply H].
      now apply list_elem_of_filter.
    - apply (tidy_pair w T p) in Hx.
      destruct (Hall (ConnectOnConnected p)) as [_ H]; [|now apply H].
      now apply list_elem_of_filter. }
  split; [exact Hl|].
  intros p [o st] Hp Ho Hst. cbn in *. subst o st.
  apply (tidy_connect w' T') in Hp. apply Hl in Hp. discriminate.
Qed.

(** X6.  No listener of the transport's own is registered twice.  Every
    registered listener belongs to a promise returned by the method that
    registered it.  That promise is still pending, with one exception: when
    [tls.connect] threw in a call of [connect()], the promise was rejected at
    once and the two listeners of the call, registered before, were left in
    place; such a promise is rejected, never resolved.  [connect()]'s two
    listeners are registered and removed together, and every pending promise
    of [connect()] has both.  The exception occurs: without a handle, a
    [connect()] whose [tls.connect] throws [e] returns a promise rejected
    with [e], stores no handle and leaves both listeners registered. *)
Theorem listeners_follow_promises (w : World) :
  reachable w ->
  NoDup (listeners w) /\
  (forall l, l ∈ listeners w ->
     exists st,
       promises w !! listener_promise l =
         Some (MkPromise (listener_origin l) st) /\
       (st = Pending \/
        (listener_origin l = ByConnect /\ exists e, st = Rejected e))) /\
  (forall p, ConnectOnConnected p ∈ listeners w <->
             ConnectOnDisconnected p ∈ listeners w) /\
  (forall p, promises w !! p = Some (MkPromise ByConnect Pending) ->
     ConnectOnConnected p ∈ listeners w /\
     ConnectOnDisconnected p ∈ listeners w) /\
  (forall e, socket (data w) = None ->
     let p := length (promises w) in
     let w' := step w (CallConnectThrows e) in
     promises w' !! p = Some (MkPromise ByConnect (Rejected e)) /\
     socket (data w') = None /\
     ConnectOnConnected p ∈ listeners w' /\
     ConnectOnDisconnected p ∈ listeners w').
Proof.
  intros Hr. pose proof (reachable_Tidy w Hr) as T.
  split; [apply T|]. split; [exact (tidy_owner w T)|]. split; [apply T|].
  split.
  - intros p Hp. pose proof (tidy_connect w T p Hp) as H.
    split; [exact H|]. now apply (tidy_pair w T p).
  - intros e Hs. cbv zeta. cbn [step].
    destruct (connect_throws_fields e w Hs) as (-> & -> & -> & _).
    split; [now rewrite list_lookup_middle|]. split; [exact Hs|].
    rewrite !elem_of_app, !elem_of_cons. auto.
Qed.

(** X7.  A pending promise of [connect()] is settled only by the step that
    delivers a 'connected' notification, which resolves it, or a
    'disconnected' notification, which rejects it with the error the
    notification carries, or with "Connection failed" when it carries
    none. *)
Theorem connect_settles_on_delivery (w : World) (i : Input) (p : nat)
  (pr' : Promise) :
  reachable w ->
  promises w !! p = Some (MkPromise ByConnect Pending) ->
  promises (step w i) !! p = Some pr' ->
  pr' <> MkPromise ByConnect Pending ->
  i = RunImmediate /\
  ((exists q, immediates w = NConnected :: q /\
              pr' = MkPromise ByConnect Resolved) \/
   (exists e q, immediates w = NDisconnected e :: q /\
                pr' = MkPromise ByConnect (Rejected (failure e)))).
Proof.
  intros Hr Hp Hp' Hne. pose proof (reachable_Inv w Hr) as I.
  destruct (step_promise w i p _ Hp) as (pr'' & Hlk & Ho & Hcase).
  rewrite Hp' in Hlk. injection Hlk as <-.
  destruct Hcase as [?|(_ & [(_ & Hw & _)|(n & q & l & -> & Hq & Hl & Hlp & Hv)])];
    [contradiction| |].
  - pose proof (inv_writes w I p Hw). congruence.
  - split; [reflexivity|]. subst p.
    pose proof (listener_of_promise w l _ I (listeners_for_sub _ _ _ Hl) Hp) as E.
    destruct pr' as [o st]. cbn in Ho, Hv, E. subst o st.
    destruct n; cbn in Hl.
    + left. exists q. split; [easy|].
      apply list_elem_of_filter in Hl as [Hl _]. now destruct l.
    + right. exists err, q. split; [easy|].
      apply list_elem_of_filter in Hl as [Hl _].
      destruct l; try discriminate; [now contradiction Hl|reflexivity].
    + now apply elem_of_nil in Hl.
    + now apply elem_of_nil in Hl.
Qed.

(** *** The outcome of [connect()] *)

Lemma notify_data_only lines :
  forallb data_only (flat_map notify lines) = true.
Proof.
  induction lines as [|l lines IH]; [reflexivity|].
  cbn [flat_map]. rewrite forallb_app, IH, andb_true_r.
  unfold notify. destruct (JSON_parse l) as [v|e]; [|reflexivity].
  now destruct (ToBoolean v).
Qed.

Lemma drain_data_only q rest w :
  immediates w = (q ++ rest)%list -> forallb data_only q = true ->
  run w (repeat RunImmediate (length q)) =
  set_emitted (emitted w ++ q) (set_immediates rest w).
Proof.
  revert w. induction q as [|n q IH]; intros w Hw Hq.
  - cbn in *. destruct w; cbn in *. subst. now rewrite app_nil_r.
  - cbn in Hq. apply andb_true_iff in Hq as [Hn Hq].
    cbn [length repeat].
    change (run w (RunImmediate :: repeat RunImmediate (length q)))
      with (run (step w RunImmediate) (repeat RunImmediate (length q))).
    cbn [step]. rewrite Hw. cbn [app]. rewrite (emit_data_only n _ Hn).
    rewrite IH; [|reflexivity|exact Hq].
    cbn. now rewrite <- app_assoc.
Qed.

Lemma undecided_step w i p :
  reachable w -> undecided i = true ->
  is_Some (socket (data w)) ->
  forallb data_only (immediates w) = true ->
  promises w !! p = Some (MkPromise ByConnect Pending) ->
  reachable (step w i) /\
  is_Some (socket (data (step w i))) /\
  forallb data_only (immediates (step w i)) = true /\
  promises (step w i) !! p = Some (MkPromise ByConnect Pending).
Proof.
  intros Hr Hi [h Hs] Hq Hp. pose proof (reachable_Inv w Hr) as I.
  repeat apply conj.
  - apply reachable_step; [exact Hr|]. unfold enabled. rewrite Hs.
    now destruct (from_socket i).
  - destruct i; cbn [step]; try discriminate; try (now rewrite Hs).
    all: try (rewrite onSocketData_spec; cbn; now rewrite Hs).
    all: try (destruct (immediates w) as [|n q]; [now rewrite Hs|];
              destruct (emit_frame n (set_immediates q w)) as (-> & _);
              cbn; now rewrite Hs).
    all: unfold connect, send, onSocketTimeout, disconnect; cbn;
      rewrite ?Hs; cbn; repeat case_match; cbn; now rewrite ?Hs.
  - destruct i; cbn [step]; try discriminate; try exact Hq.
    all: try (rewrite onSocketData_spec; cbn;
              now rewrite forallb_app, Hq, notify_data_only).
    all: try (destruct (immediates w) as [|n q] eqn:E; [now rewrite E|];
              destruct (emit_frame n (set_immediates q w)) as (_ & -> & _);
              cbn in *; apply andb_true_iff in Hq as [_ Hq]; exact Hq).
    all: unfold connect, send, onSocketTimeout, disconnect; cbn;
      repeat case_match; cbn; exact Hq.
  - destruct (step_promise w i p _ Hp) as (pr' & Hlk & Ho & Hcase).
    rewrite Hlk. f_equal.
    destruct Hcase as [->|(_ & [(_ & Hw & _)|(n & q & l & -> & Hn & Hl & _)])];
      [reflexivity| |]; exfalso.
    + pose proof (inv_writes w I p Hw). congruence.
    + rewrite Hn in Hq. cbn in Hq. apply andb_true_iff in Hq as [Hd _].
      destruct n; try discriminate; now apply elem_of_nil in Hl.
Qed.

Lemma undecided_run w mid p :
  reachable w -> forallb undecided mid = true ->
  is_Some (socket (data w)) ->
  forallb data_only (immediates w) = true ->
  promises w !! p = Some (MkPromise ByConnect Pending) ->
  reachable (run w mid) /\
  is_Some (socket (data (run w mid))) /\
  forallb data_only (immediates (run w mid)) = true /\
  promises (run w mid) !! p = Some (MkPromise ByConnect Pending).
Proof.
  revert w. induction mid as [|i mid IH]; intros w Hr Hmid Hs Hq Hp; [easy|].
  cbn in Hmid. apply andb_true_iff in Hmid as [Hi Hmid].
  change (run w (i :: mid)) with (run (step w i) mid).
  destruct (undecided_step w i p Hr Hi Hs Hq Hp) as (Hr' & Hs' & Hq' & Hp').
  now apply IH.
Qed.

(** The delivery that decides a pending [connect()]: the queue holds
    'data' and 'error' notifications followed by the deciding one. *)
Lemma connect_decided w p q n :
  reachable w ->
  promises w !! p = Some (MkPromise ByConnect Pending) ->
  immediates w = (q ++ [n])%list -> forallb data_only q = true ->
  data_only n = false ->
  let w' := run w (repeat RunImmediate (length (immediates w))) in
  promises w' !! p =
    Some (MkPromise ByConnect
            (match n with
             | NDisconnected e => Rejected (failure e)
             | _ => Resolved
             end)) /\
  emitted w' = (emitted w ++ q ++ [n])%list /\
  data w' = data w /\
  (ConnectOnConnected p ∉ listeners w') /\
  (ConnectOnDisconnected p ∉ listeners w').
Proof.
  intros Hr Hp Hq Hd Hn. cbv zeta.
  pose proof (reachable_Inv w Hr) as I. pose proof (reachable_Tidy w Hr) as T.
  rewrite Hq, length_app. cbn [length].
  rewrite repeat_app, run_app, (drain_data_only q [n] w Hq Hd).
  cbn [repeat run foldl step immediates set_emitted set_immediates].
  set (w1 := set_immediates [] (set_emitted (emitted w ++ q)
                                  (set_immediates [n] w))).
  assert (Inv w1) as I1 by (apply (Inv_frame w); try easy; apply I).
  assert (Tidy w1) as T1 by now apply (Tidy_frame w).
  pose proof (tidy_connect w T p Hp) as Hcc.
  pose proof (proj1 (tidy_pair w T p) Hcc) as Hcd.
  destruct (emit_frame n w1) as (Hdat & _ & Hem & _).
  repeat apply conj.
  - destruct (emit_promise n w1 p _ Hp) as (pr' & Hlk & Ho & Hcase).
    rewrite Hlk. f_equal. destruct pr' as [o st]. cbn in Ho. subst o. f_equal.
    destruct Hcase as [[_ Hnone]|(_ & l & Hl & Hlp & Hv)].
    + exfalso. destruct n; try discriminate.
      * apply (Hnone eq_refl (ConnectOnConnected p)); [|reflexivity].
        cbn. now apply list_elem_of_filter.
      * apply (Hnone eq_refl (ConnectOnDisconnected p)); [|reflexivity].
        cbn. now apply list_elem_of_filter.
    + cbn in Hv. subst p st.
      pose proof (listener_of_promise w1 l _ I1 (listeners_for_sub _ _ _ Hl) Hp)
        as E. cbn in E.
      destruct n; try discriminate; cbn in Hl;
        apply list_elem_of_filter in Hl as [Hl _]; destruct l; try discriminate;
        try reflexivity; now contradiction Hl.
  - rewrite Hem. cbn. now rewrite <- app_assoc.
  - rewrite Hdat. reflexivity.
  - intros Hx. apply emit_listeners in Hx as [_ Hall].
    destruct n; try discriminate.
    + destruct (Hall (ConnectOnConnected p)) as [H _]; [|now apply H].
      cbn. now apply list_elem_of_filter.
    + destruct (Hall (ConnectOnDisconnected p)) as [_ H]; [|now apply H].
      cbn. now apply list_elem_of_filter.
  - intros Hx. apply emit_listeners in Hx as [_ Hall].
    destruct n; try discriminate.
    + destruct (Hall (ConnectOnConnected p)) as [_ H]; [|now apply H].
      cbn. now apply list_elem_of_filter.
    + destruct (Hall (ConnectOnDisconnected p)) as [H _]; [|now apply H].
      cbn. now apply list_elem_of_filter.
Qed.

(** X8.  [connect()] without a handle, when [tls.connect] returns, opens
    one socket with the stored options and returns a pending promise.
    Whatever else happens before the handshake ends, short of a 'close', the
    promise stays pending; when the socket raises 'secureConnect' and the
    queued callbacks run, the promise is resolved, [isConnected] is true,
    'connected' is the last notification delivered, and both listeners of
    the call are gone.  When [tls.connect] throws instead, the promise is
    rejected at once with what was thrown; no handle is stored, no call is
    made on a socket, nothing is scheduled and [isConnected] stays false. *)
Theorem connect_resolves_on_handshake (w : World) (mid : list Input) :
  reachable w -> socket (data w) = None ->
  forallb data_only (immediates w) = true ->
  forallb undecided mid = true ->
  let p := length (promises w) in
  let w1 := run (connect TlsReturns w) mid in
  let w2 := step w1 SockSecureConnect in
  let w3 := run w2 (repeat RunImmediate (length (immediates w2))) in
  calls (connect TlsReturns w) =
    (calls w ++ [TlsConnect (fresh_handle w) (options (data w));
                 SetEncoding (fresh_handle w) "utf8";
                 SetKeepAlive (fresh_handle w) true;
                 SetNoDelay (fresh_handle w) true])%list /\
  promises w1 !! p = Some (MkPromise ByConnect Pending) /\
  promises w3 !! p = Some (MkPromise ByConnect Resolved) /\
  isConnected w3 = true /\
  last (emitted w3) = Some NConnected /\
  (ConnectOnConnected p ∉ listeners w3) /\
  (ConnectOnDisconnected p ∉ listeners w3) /\
  (forall e,
     let wt := connect (TlsThrows e) w in
     promises wt !! p = Some (MkPromise ByConnect (Rejected e)) /\
     socket (data wt) = None /\
     calls wt = calls w /\
     immediates wt = immediates w /\
     isConnected wt = false).
Proof.
  intros Hr Hs Hq Hmid. cbv zeta.
  assert (reachable (connect TlsReturns w)) as Hr0
    by now apply (reachable_step w CallConnect).
  assert (exists h, socket (data (connect TlsReturns w)) = Some h /\
                    immediates (connect TlsReturns w) = immediates w /\
                    promises (connect TlsReturns w) =
                      (promises w ++ [MkPromise ByConnect Pending])%list)
    as (h & Hs0 & Hq0 & Hp0).
  { unfold connect. rewrite Hs. cbn. eauto. }
  destruct (undecided_run (connect TlsReturns w) mid (length (promises w))
              Hr0 Hmid)
    as (Hr1 & [h1 Hs1] & Hq1 & Hp1);
    [now rewrite Hs0|now rewrite Hq0|now rewrite Hp0, list_lookup_middle|].
  set (w1 := run (connect TlsReturns w) mid) in *.
  assert (reachable (step w1 SockSecureConnect)) as Hr2.
  { apply reachable_step; [exact Hr1|]. unfold enabled. cbn. now rewrite Hs1. }
  destruct (connect_decided (step w1 SockSecureConnect) (length (promises w))
              (immediates w1) NConnected Hr2 Hp1 eq_refl Hq1 eq_refl)
    as (Hres & Hem & Hdat & Hl1 & Hl2).
  repeat apply conj; try assumption.
  - unfold connect. rewrite Hs. reflexivity.
  - unfold isConnected. now rewrite Hdat.
  - rewrite Hem, app_assoc. apply last_snoc.
  - intros e. cbv zeta.
    destruct (connect_throws_fields e w Hs)
      as (Hd & _ & Hp & Hi & _ & _ & Hc & _).
    unfold isConnected. rewrite Hd, Hp, Hi, Hc.
    repeat split; [now rewrite list_lookup_middle|exact Hs].
Qed.

(** X9.  When the socket that [tls.connect] returned raises 'close' before
    any handshake, and
    the queued callbacks run, the promise of that [connect()] is rejected
    with the error stored when the socket closed, or with "Connection
    failed" when none was stored; no handle is left, [isConnected] is
    false, and both listeners of the call are gone. *)
Theorem connect_rejects_on_close (w : World) (mid : list Input) :
  reachable w -> socket (data w) = None ->
  forallb data_only (immediates w) = true ->
  forallb undecided mid = true ->
  let p := length (promises w) in
  let w1 := run (connect TlsReturns w) mid in
  let w2 := step w1 SockClose in
  let w3 := run w2 (repeat RunImmediate (length (immediates w2))) in
  promises w3 !! p =
    Some (MkPromise ByConnect (Rejected (failure (error (data w1))))) /\
  socket (data w3) = None /\
  isConnected w3 = false /\
  last (emitted w3) = Some (NDisconnected (error (data w1))) /\
  (ConnectOnConnected p ∉ listeners w3) /\
  (ConnectOnDisconnected p ∉ listeners w3).
Proof.
  intros Hr Hs Hq Hmid. cbv zeta.
  assert (reachable (connect TlsReturns w)) as Hr0
    by now apply (reachable_step w CallConnect).
  assert (exists h, socket (data (connect TlsReturns w)) = Some h /\
                    immediates (connect TlsReturns w) = immediates w /\
                    promises (connect TlsReturns w) =
                      (promises w ++ [MkPromise ByConnect Pending])%list)
    as (h & Hs0 & Hq0 & Hp0).
  { unfold connect. rewrite Hs. cbn. eauto. }
  destruct (undecided_run (connect TlsReturns w) mid (length (promises w))
              Hr0 Hmid)
    as (Hr1 & [h1 Hs1] & Hq1 & Hp1);
    [now rewrite Hs0|now rewrite Hq0|now rewrite Hp0, list_lookup_middle|].
  set (w1 := run (connect TlsReturns w) mid) in *.
  assert (reachable (step w1 SockClose)) as Hr2.
  { apply reachable_step; [exact Hr1|]. unfold enabled. cbn. now rewrite Hs1. }
  destruct (connect_decided (step w1 SockClose) (length (promises w))
              (immediates w1) (NDisconnected (error (data w1)))
              Hr2 Hp1 eq_refl Hq1 eq_refl)
    as (Hres & Hem & Hdat & Hl1 & Hl2).
  repeat apply conj; try assumption.
  - now rewrite Hdat.
  - unfold isConnected. now rewrite Hdat.
  - rewrite Hem, app_assoc. apply last_snoc.
Qed.

(** X10.  A [connect()] made while a 'disconnected' notification is still
    queued, the previous connection having closed, and in which
    [tls.connect] returns a socket, is rejected by the
    delivery of that notification, with the error it carries or "Connection
    failed"; the handle the call opened stays in place, and no listener is
    left to settle anything when its handshake ends. *)
Theorem queued_disconnected_rejects_connect (w : World)
  (e : option JSError) (q : list Notification) :
  reachable w -> socket (data w) = None ->
  immediates w = NDisconnected e :: q ->
  let w' := step (connect TlsReturns w) RunImmediate in
  promises w' !! length (promises w) =
    Some (MkPromise ByConnect (Rejected (failure e))) /\
  socket (data w') = Some (fresh_handle w) /\
  listeners w' = [].
Proof.
  intros Hr Hs Hq. cbv zeta.
  assert (reachable (connect TlsReturns w)) as Hr0
    by now apply (reachable_step w CallConnect).
  assert (socket (data (connect TlsReturns w)) = Some (fresh_handle w) /\
          immediates (connect TlsReturns w) = NDisconnected e :: q /\
          promises (connect TlsReturns w) =
            (promises w ++ [MkPromise ByConnect Pending])%list)
    as (Hs0 & Hq0 & Hp0).
  { unfold connect. rewrite Hs. cbn. now rewrite Hq. }
  assert (promises (connect TlsReturns w) !! length (promises w) =
          Some (MkPromise ByConnect Pending)) as Hp
    by now rewrite Hp0, list_lookup_middle.
  pose proof (reachable_Inv _ Hr0) as I0.
  pose proof (reachable_Tidy _ Hr0) as T0.
  set (w1 := set_immediates q (connect TlsReturns w)).
  assert (Inv w1) as I1
    by (apply (Inv_frame (connect TlsReturns w)); try easy; apply I0).
  assert (Tidy w1) as T1 by now apply (Tidy_frame (connect TlsReturns w)).
  cbn [step]. rewrite Hq0. fold w1. repeat apply conj.
  - destruct (emit_promise (NDisconnected e) w1 _ _ Hp)
      as (pr' & Hlk & Ho & Hcase).
    rewrite Hlk. f_equal. destruct pr' as [o st]. cbn in Ho. subst o. f_equal.
    destruct Hcase as [[_ Hnone]|(_ & l & Hl & Hlp & Hv)].
    + exfalso.
      apply (Hnone eq_refl (ConnectOnDisconnected (length (promises w))));
        [|reflexivity].
      cbn. apply list_elem_of_filter. split; [easy|].
      apply (tidy_pair _ T0), (tidy_connect _ T0), Hp.
    + cbn in Hv. subst st.
      assert (promises w1 !! listener_promise l =
              Some (MkPromise ByConnect Pending)) as Hp' by now rewrite Hlp.
      pose proof (listener_of_promise w1 l _ I1 (listeners_for_sub _ _ _ Hl) Hp')
        as E. cbn in E, Hl.
      apply list_elem_of_filter in Hl as [Hl _]. destruct l; try discriminate;
        [now contradiction Hl|reflexivity].
  - destruct (emit_frame (NDisconnected e) w1) as (-> & _). exact Hs0.
  - now apply emit_disconnected_listeners.
Qed.

(** *** Handles *)

Lemma opened_app cs1 cs2 : opened (cs1 ++ cs2) = (opened cs1 ++ opened cs2)%list.
Proof. apply flat_map_app. Qed.

Lemma Handles_grow opts w w' cs :
  Handles opts w ->
  options (data w') = options (data w) ->
  (socket (data w') = socket (data w) \/ socket (data w') = None) ->
  calls w' = (calls w ++ cs)%list -> opened cs = [] ->
  (forall c, c ∈ cs -> call_handle c ∈ (opened (calls w)).*1) ->
  (forall tm, tm ∈ timers w' -> target tm ∈ (opened (calls w)).*1) ->
  Handles opts w'.
Proof.
  intros [H1 H2 H3 H4 H5 H6 H7] Ho Hs Hc Hcs Hnew Htm.
  assert (opened (calls w') = opened (calls w)) as E
    by now rewrite Hc, opened_app, Hcs, app_nil_r.
  split; rewrite ?E.
  - congruence.
  - exact H2.
  - intros ho Hin. specialize (H3 ho Hin). rewrite Hc, length_app. lia.
  - exact H4.
  - intros c. rewrite Hc, elem_of_app. intros [Hin|Hin]; auto.
  - exact Htm.
  - intros h Hh. destruct Hs as [Hs|Hs]; rewrite Hs in Hh; [auto|discriminate].
Qed.

Lemma Handles_frame opts w w' :
  Handles opts w ->
  options (data w') = options (data w) ->
  (socket (data w') = socket (data w) \/ socket (data w') = None) ->
  calls w' = calls w -> timers w' = timers w ->
  Handles opts w'.
Proof.
  intros H Ho Hs Hc Ht.
  apply (Handles_grow opts w w' [] H);
    [exact Ho|exact Hs|now rewrite app_nil_r|reflexivity| |].
  - intros c Hc'. now apply elem_of_nil in Hc'.
  - rewrite Ht. apply H.
Qed.

Lemma Handles_held opts w h :
  Handles opts w -> socket (data w) = Some h -> h ∈ (opened (calls w)).*1.
Proof.
  intros H Hs. pose proof (h_socket opts w H h Hs) as Hl.
  apply last_Some in Hl as [l' ->]. rewrite fmap_app. apply elem_of_app.
  right. now left.
Qed.

Lemma run_listener_target arg w l tm :
  tm ∈ timers (run_listener arg w l) ->
  exists tm0, tm0 ∈ timers w /\ target tm0 = target tm.
Proof.
  destruct l as [p|p|p t]; cbn; try (intros H; now exists tm).
  intros H. apply list_elem_of_lookup in H as [i Hi].
  destruct (decide (t = i)) as [->|Hne].
  - rewrite list_lookup_alter_eq in Hi.
    destruct (timers w !! i) as [tm0|] eqn:E; [|discriminate].
    injection Hi as <-. exists tm0.
    split; [eapply list_elem_of_lookup_2, E|]. now destruct (tstate tm0).
  - rewrite list_lookup_alter_ne in Hi by easy. exists tm.
    split; [eapply list_elem_of_lookup_2, Hi|reflexivity].
Qed.

Lemma emit_target n w tm :
  tm ∈ timers (emit n w) -> exists tm0, tm0 ∈ timers w /\ target tm0 = target tm.
Proof.
  unfold emit, call_listeners. cbn [timers set_emitted].
  generalize (listeners_for n w). intros ls. revert w.
  induction ls as [|l ls IH]; intros w H; [now exists tm|].
  cbn [foldl] in H. apply IH in H as (tm1 & H1 & E1).
  apply run_listener_target in H1 as (tm0 & H0 & E0).
  exists tm0. split; [exact H0|congruence].
Qed.

Lemma Handles_connect opts tls w :
  Handles opts w -> Handles opts (connect tls w).
Proof.
  intros H. destruct (socket (data w)) as [h|] eqn:Es;
    [|destruct tls as [|e]].
  - unfold connect. rewrite Es.
    destruct (connected (data w)); apply (Handles_frame opts w); auto.
  - unfold connect. rewrite Es.
    destruct H as [H1 H2 H3 H4 H5 H6 H7].
    assert (forall ho, ho ∈ opened (calls w) -> ho.1 <> fresh_handle w) as Hfresh.
    { intros ho Hin. specialize (H3 ho Hin). unfold fresh_handle. lia. }
    split; cbn; rewrite ?opened_app; cbn; rewrite ?fmap_app; cbn.
    + exact H1.
    + intros ho. rewrite elem_of_app, list_elem_of_singleton.
      intros [Hin| ->]; [auto|cbn; congruence].
    + intros ho. rewrite elem_of_app, list_elem_of_singleton, length_app.
      intros [Hin| ->]; [specialize (H3 ho Hin); lia|].
      cbn. unfold fresh_handle. lia.
    + apply NoDup_app. split; [exact H4|]. split; [|apply NoDup_singleton].
      intros x Hx Hx'. apply list_elem_of_singleton in Hx' as ->.
      apply list_elem_of_fmap in Hx as (ho & E & Hin).
      now apply (Hfresh ho Hin).
    + intros c. rewrite !elem_of_app. intros [Hin|Hin]; [left; auto|right].
      repeat (apply elem_of_cons in Hin as [->|Hin]; [now left|]).
      now apply elem_of_nil in Hin.
    + intros tm Hin. apply elem_of_app. left. auto.
    + intros h [= <-]. rewrite last_snoc. congruence.
  - destruct (connect_throws_fields e w Es)
      as (Hd & _ & _ & _ & Ht & _ & Hc & _).
    apply (Handles_frame opts w); rewrite ?Hd; auto.
Qed.

Lemma Handles_disconnect opts w : Handles opts w -> Handles opts (disconnect w).
Proof.
  intros H. unfold disconnect. destruct (socket (data w)) as [h|] eqn:Es.
  - pose proof (Handles_held opts w h H Es) as Hh.
    apply (Handles_grow opts w _ [SocketEnd h] H); cbn; auto.
    + intros c Hc. now apply list_elem_of_singleton in Hc as ->.
    + intros tm. rewrite elem_of_app, list_elem_of_singleton.
      intros [Hin| ->]; [now apply H|exact Hh].
  - apply (Handles_frame opts w); auto.
Qed.

Lemma Handles_send opts d w : Handles opts w -> Handles opts (send d w).
Proof.
  intros H. unfold send.
  destruct (negb (check.nonEmptyString d)); [apply (Handles_frame opts w); auto|].
  destruct (negb (connected (data w))); [apply (Handles_frame opts w); auto|].
  destruct d; try solve [apply (Handles_frame opts w); auto].
  destruct (socket (data w)) as [h|] eqn:Es;
    [|apply (Handles_frame opts w); auto].
  pose proof (Handles_held opts w h H Es) as Hh.
  eapply (Handles_grow opts w _ [_] H); cbn; auto.
  - intros c Hc. now apply list_elem_of_singleton in Hc as ->.
  - apply H.
Qed.

Lemma Handles_step opts w i : Handles opts w -> Handles opts (step w i).
Proof.
  intros H. destruct i; cbn [step].
  - now apply Handles_connect.
  - now apply Handles_disconnect.
  - now apply Handles_send.
  - apply (Handles_frame opts w); auto.
  - apply Handles_disconnect. apply (Handles_frame opts w); auto.
  - apply (Handles_frame opts w); auto.
  - apply (Handles_frame opts w); auto.
  - rewrite onSocketData_spec. apply (Handles_frame opts w); auto.
  - destruct (immediates w) as [|n q]; [exact H|].
    destruct (emit_frame n (set_immediates q w)) as (Hd & _ & _ & Hc & _).
    apply (Handles_grow opts w _ [] H); rewrite ?app_nil_r, ?Hd, ?Hc; auto.
    + intros c Hc'. now apply elem_of_nil in Hc'.
    + intros tm Htm. apply emit_target in Htm as (tm0 & H0 & <-).
      now apply H.
  - destruct (timers w !! t) as [[h ms []]|] eqn:Et; try exact H.
    assert (h ∈ (opened (calls w)).*1) as Hh
      by (apply (h_timers opts w H (MkTimer h ms Armed)),
            (list_elem_of_lookup_2 _ _ _ Et)).
    apply (Handles_grow opts w _ [SocketDestroy h] H); cbn; auto.
    + intros c Hc. now apply list_elem_of_singleton in Hc as ->.
    + intros tm Htm. apply list_elem_of_lookup in Htm as [j Hj].
      destruct (decide (t = j)) as [->|Hne].
      * rewrite list_lookup_insert_eq in Hj by (eapply lookup_lt_Some, Et).
        now injection Hj as <-.
      * rewrite list_lookup_insert_ne in Hj by easy.
        eapply (h_timers opts w H), list_elem_of_lookup_2, Hj.
  - destruct (bool_decide (p ∈ writes w)); [|exact H].
    apply (Handles_frame opts w); auto.
  - now apply Handles_connect.
Qed.

Lemma live_step w i :
  enabled w i = true ->
  (length (opened (calls (step w i))) + live w =
   length (opened (calls w)) + (if is_close i then 1 else 0) + live (step w i))%nat.
Proof.
  intros He. unfold live.
  destruct (socket (data w)) as [h0|] eqn:Es;
    destruct (connected (data w)) eqn:Ec;
    destruct i; cbn [step is_close];
    try (cbn in He; rewrite Es in He; discriminate He).
  all: try (rewrite onSocketData_spec; cbn -[opened]; rewrite ?Es; lia).
  all: try (destruct (immediates w) as [|n q]; [rewrite ?Es; lia|];
            destruct (emit_frame n (set_immediates q w)) as (-> & _ & _ & -> & _);
            cbn -[opened]; rewrite ?Es; lia).
  all: try (destruct (timers w !! t) as [[? ? []]|]; cbn -[opened];
            rewrite ?Es, ?opened_app, ?length_app; cbn; lia).
  all: try (destruct (bool_decide (p ∈ writes w)); cbn -[opened];
            rewrite ?Es; lia).
  all: unfold connect, send, onSocketTimeout, disconnect; cbn -[opened];
    rewrite ?Es, ?Ec; cbn -[opened];
    try (destruct (check.nonEmptyString d); [destruct d|]);
    cbn -[opened]; rewrite ?Es, ?opened_app, ?length_app; cbn; lia.
Qed.

(** X11.  From construction on, along every trace: the stored options
    never change and every socket is opened with them; the handles opened
    are pairwise distinct, and as many as the 'close' events raised plus the
    handle held, so never more than one is open; every call on a socket and
    every destroy timer names a handle that [tls.connect] returned; and the
    handle held, when there is one, is the one opened last. *)
Theorem handles_one_at_a_time (host port extra : JSValue) (d : TData)
  (trace : list Input) :
  constructor host port extra = inr d ->
  enabled_trace (new_world d) trace = true ->
  let w := run (new_world d) trace in
  options (data w) = options d /\
  (forall ho, ho ∈ opened (calls w) -> ho.2 = options d) /\
  NoDup (opened (calls w)).*1 /\
  length (opened (calls w)) = (closes trace + live w)%nat /\
  (forall c, c ∈ calls w -> call_handle c ∈ (opened (calls w)).*1) /\
  (forall tm, tm ∈ timers w -> target tm ∈ (opened (calls w)).*1) /\
  (forall h, socket (data w) = Some h ->
     last (opened (calls w)) = Some (h, options d)).
Proof.
  intros Hd He. cbv zeta.
  assert (socket d = None) as Hs
    by (apply constructor_inr in Hd as (_ & _ & _ & ->); reflexivity).
  assert (Handles (options d) (new_world d)) as H0.
  { split; cbn; try easy; try apply NoDup_nil_2;
      try (intros ? H; now apply elem_of_nil in H).
    rewrite Hs. discriminate. }
  assert (forall tr w0, Handles (options d) w0 ->
            enabled_trace w0 tr = true ->
            Handles (options d) (run w0 tr) /\
            (length (opened (calls (run w0 tr))) + live w0 =
             length (opened (calls w0)) + closes tr + live (run w0 tr))%nat)
    as Hgen.
  { induction tr as [|i tr IH]; intros w0 Hw0 Htr.
    - split; [exact Hw0|]. cbn. unfold closes. cbn. lia.
    - cbn in Htr. apply andb_true_iff in Htr as [Hi Htr].
      change (run w0 (i :: tr)) with (run (step w0 i) tr).
      destruct (IH (step w0 i) (Handles_step _ _ i Hw0) Htr) as [Hh Hcount].
      split; [exact Hh|]. pose proof (live_step w0 i Hi) as Hl.
      unfold closes in *. cbn [List.filter].
      destruct (is_close i); cbn [length]; lia. }
  destruct (Hgen trace (new_world d) H0 He) as [[H1 H2 H3 H4 H5 H6 H7] Hcount].
  repeat apply conj; try assumption.
  unfold live at 1 in Hcount. cbn in Hcount. rewrite Hs in Hcount. lia.
Qed.

(** *** The buffer, and frames that come back *)

(** X12.  In every reachable world the buffer holds no line feed, and so no
    complete line.  A chunk is appended to it, and what [onSocketData] then
    removes is a prefix made of whole lines, each with its line feed; a
    chunk without a line feed, the empty chunk included, only extends the
    buffer and schedules nothing. *)
Theorem buffer_holds_no_line (w : World) (chunk : string) :
  reachable w ->
  indexOf (buffer_text (data w)) newline = -1 /\
  indexOf (buffer_text (data (onSocketData chunk w))) newline = -1 /\
  buffer_text (data w) ++ chunk =
    frame_lines (complete_lines (buffer_text (data w) ++ chunk)) ++
    buffer_text (data (onSocketData chunk w)) /\
  (split_first chunk = None ->
   buffer (data (onSocketData chunk w)) = Some (buffer_text (data w) ++ chunk) /\
   immediates (onSocketData chunk w) = immediates w).
Proof.
  intros Hr. pose proof (reachable_buffer w Hr) as Hb.
  rewrite onSocketData_spec. cbv zeta.
  cbn [data set_data set_buffer buffer_text buffer immediates schedule
       set_immediates].
  repeat apply conj.
  - now rewrite indexOf_split_first, Hb.
  - now rewrite indexOf_split_first, remainder_no_LF.
  - unfold complete_lines, remainder. now rewrite frame_lines_from.
  - intros Hc.
    assert (split_first (buffer_text (data w) ++ chunk) = None) as Hn
      by now rewrite split_first_app, Hb, Hc.
    destruct (no_LF_lines _ Hn) as [-> ->]. cbn. now rewrite app_nil_r.
Qed.

Lemma written_app cs1 cs2 :
  written (cs1 ++ cs2) = (written cs1 ++ written cs2)%list.
Proof. apply flat_map_app. Qed.

Lemma frame_lines_chunks texts :
  frame_lines texts = concat_chunks (map (fun t => t ++ newline) texts).
Proof.
  induction texts as [|t texts IH]; [reflexivity|].
  cbn [map]. change (concat_chunks (?c :: ?cs)) with (c ++ concat_chunks cs).
  rewrite <- IH, str_app_assoc. reflexivity.
Qed.

Lemma lines_of_frames msgs :
  Forall (fun m => split_first m = None) msgs ->
  complete_lines (frame_lines msgs) = msgs /\
  remainder (frame_lines msgs) = EmptyString.
Proof.
  induction 1 as [|m msgs Hm _ [IH1 IH2]]; [easy|].
  change (frame_lines (m :: msgs)) with (m ++ newline ++ frame_lines msgs).
  unfold complete_lines, remainder.
  rewrite lines_from_split_first, split_first_app, Hm.
  change (newline ++ frame_lines msgs) with (String LF (frame_lines msgs)).
  cbn [split_first]. rewrite Ascii.eqb_refl. cbn [fst snd].
  now rewrite str_app_nil_l, str_app_nil_r, IH1, IH2.
Qed.

Lemma sends_written w texts :
  reachable w -> connected (data w) = true ->
  Forall (fun t => t <> EmptyString) texts ->
  written (calls (run w (map (fun t => CallSend (JSString t)) texts))) =
  (written (calls w) ++ map (fun t => (t ++ newline)%string) texts)%list.
Proof.
  intros Hr Hc Ht. revert w Hr Hc.
  induction Ht as [|t texts Hne _ IH]; intros w Hr Hc.
  - cbn. now rewrite app_nil_r.
  - cbn [map].
    change (run w (CallSend (JSString t) :: ?tr))
      with (run (step w (CallSend (JSString t))) tr).
    destruct (inv_connected w (reachable_Inv w Hr) Hc) as [h Hh].
    assert (step w (CallSend (JSString t)) =
            set_writes (writes w ++ [length (promises w)])
              (set_calls (calls w ++ [SocketWrite h (t ++ newline) "utf8"
                                         (length (promises w))])
                 (new_promise BySend Pending w))) as E.
    { cbn [step]. unfold send. cbn [check.nonEmptyString].
      apply String.eqb_neq in Hne. now rewrite Hne, Hc, Hh. }
    rewrite IH.
    + rewrite E. cbn [calls set_writes set_calls].
      rewrite written_app. cbn. now rewrite <- app_assoc.
    + now apply reachable_step.
    + now rewrite E.
Qed.

(** X13.  What [send] writes comes back as it was sent.  Non-empty
    payloads without line feed, sent one after the other while connected,
    are written as one frame each, in order; a transport with an empty
    buffer that receives those bytes, cut into chunks in any way, schedules
    exactly the notifications of the payloads, in order, and ends with an
    empty buffer. *)
Theorem frames_come_back (sender receiver : World) (texts : list string) :
  reachable sender -> connected (data sender) = true ->
  Forall (fun t => t <> EmptyString) texts ->
  Forall (fun t => split_first t = None) texts ->
  buffer_text (data receiver) = EmptyString ->
  let frames := map (fun t => t ++ newline) texts in
  written (calls (run sender (map (fun t => CallSend (JSString t)) texts))) =
    (written (calls sender) ++ frames)%list /\
  (forall chunks, concat_chunks chunks = concat_chunks frames ->
     immediates (receive receiver chunks) =
       (immediates receiver ++ flat_map notify texts)%list /\
     buffer_text (data (receive receiver chunks)) = EmptyString).
Proof.
  intros Hr Hc Hne Hlf Hb. cbv zeta. split; [now apply sends_written|].
  intros chunks Hch. rewrite <- frame_lines_chunks in Hch.
  destruct (lines_of_frames texts Hlf) as [Hl Hrem].
  destruct chunks as [|c chunks].
  - cbn in Hch. destruct texts as [|t texts].
    + cbn. now rewrite app_nil_r.
    + change (frame_lines (t :: texts)) with (t ++ newline ++ frame_lines texts)
        in Hch.
      destruct t; discriminate Hch.
  - rewrite receive_spec by discriminate. cbv zeta.
    rewrite Hb, str_app_nil_l, Hch, Hl, Hrem. easy.
Qed.

Lemma lines_from_length cur s :
  length (fst (lines_from cur s)) = line_feeds s.
Proof.
  revert cur. induction s as [|c s IH]; intros cur; cbn [lines_from line_feeds].
  - reflexivity.
  - destruct (Ascii.eqb c LF).
    + specialize (IH EmptyString). destruct (lines_from EmptyString s).
      cbn [fst length] in *. now rewrite IH.
    + now rewrite IH.
Qed.

(** X14.  [send] neither rejects nor escapes a line feed inside the
    payload: for a non-empty payload sent while connected it returns a
    pending promise and writes the payload followed by one line feed.  A
    transport with an empty buffer that receives that frame hands
    [onSocketData]'s loop one candidate for each piece of the payload between
    line feeds, schedules what each candidate gives in order, and ends with
    an empty buffer: a payload with k line feeds arrives as k + 1 candidates,
    none of which holds a line feed, and so as k + 1 'error' notifications
    when none of them parses. *)
Theorem payload_line_feeds_split (w r : World) (text : string) :
  reachable w -> connected (data w) = true -> text <> EmptyString ->
  buffer_text (data r) = EmptyString ->
  let pieces := (complete_lines text ++ [remainder text])%list in
  let r' := onSocketData (text ++ newline) r in
  returned (send (JSString text) w) = Some (MkPromise BySend Pending) /\
  written (calls (send (JSString text) w)) =
    (written (calls w) ++ [(text ++ newline)%string])%list /\
  immediates r' = (immediates r ++ flat_map notify pieces)%list /\
  buffer (data r') = Some EmptyString /\
  length pieces = S (line_feeds text) /\
  Forall (fun l => split_first l = None) pieces /\
  frame_lines pieces = text ++ newline /\
  ((forall l, l ∈ pieces -> exists e, JSON_parse l = inr e) ->
   exists errs, immediates r' = (immediates r ++ map NError errs)%list /\
                length errs = S (line_feeds text)).
Proof.
  intros Hr Hc Hne Hb pieces r'.
  destruct (inv_connected w (reachable_Inv w Hr) Hc) as [h Hh].
  assert (complete_lines (text ++ newline) = pieces /\
          remainder (text ++ newline) = EmptyString) as [Hl Hrem].
  { subst pieces. rewrite complete_lines_app, remainder_app.
    destruct (one_line (remainder text) EmptyString (remainder_no_LF text)
                eq_refl) as [H1 H2].
    rewrite str_app_nil_l in H1, H2. rewrite str_app_nil_r in H1.
    now rewrite H1, H2. }
  assert (r' = set_data (set_buffer (Some EmptyString) (data r))
                 (schedule (flat_map notify pieces) r)) as Er.
  { subst r'. rewrite onSocketData_spec. cbv zeta.
    now rewrite Hb, str_app_nil_l, Hl, Hrem. }
  assert (length pieces = S (line_feeds text)) as Hlen.
  { subst pieces. rewrite length_app. cbn [length].
    unfold complete_lines. rewrite lines_from_length. lia. }
  assert (send (JSString text) w =
          set_writes (writes w ++ [length (promises w)])
            (set_calls (calls w ++ [SocketWrite h (text ++ newline) "utf8"
                                      (length (promises w))])
               (new_promise BySend Pending w))) as Es.
  { unfold send. cbn [check.nonEmptyString].
    apply String.eqb_neq in Hne. now rewrite Hne, Hc, Hh. }
  refine (conj _ (conj _ (conj _ (conj _ (conj _ (conj _ (conj _ _))))))).
  - rewrite Es. unfold returned. cbn. apply last_snoc.
  - rewrite Es. cbn. rewrite written_app. reflexivity.
  - now rewrite Er.
  - now rewrite Er.
  - exact Hlen.
  - rewrite <- Hl. apply lines_from_lines_no_LF. reflexivity.
  - rewrite <- Hl. pose proof (frame_lines_from EmptyString (text ++ newline))
      as H. fold (complete_lines (text ++ newline)) in H.
    fold (remainder (text ++ newline)) in H.
    now rewrite Hrem, str_app_nil_r, str_app_nil_l in H.
  - intros Hfail. rewrite Er. cbn. rewrite <- Hlen.
    clear Hlen Hl Er. generalize dependent pieces. intros pieces.
    induction pieces as [|l ls IH]; intros Hfail.
    + exists []. split; reflexivity.
    + destruct (Hfail l) as [e He]; [now left|].
      destruct IH as (errs & Herrs & Hlen');
        [intros l' Hl'; apply Hfail; now right|].
      exists (e :: errs). cbn [flat_map map length]. unfold notify at 1.
      rewrite He. split; [|now rewrite Hlen'].
      apply app_inv_head in Herrs. now rewrite Herrs.
Qed.

End Transport.

(** ** The transport run on concrete inputs, with [JSON.parse] as codec *)

Definition example_host : JSValue := JSString "example.com".
Definition example_port : JSValue := JSNumber (Fin 1234).

(** [new TLSTransport({ host: 'example.com', port: 1234 })] *)
Definition example_data : TData :=
  {| options :=
       Object_assign {[ "rejectUnauthorized" := JSBoolean true ]}
         [ JSUndefined;
           JSObject (<["host" := example_host]> (<["port" := example_port]>
                    (<["path" := JSUndefined]>
                    (<["socket" := JSUndefined]> ∅)))) ];
     socket := None; connected := false; error := None; buffer := None |}.

Definition w_new : World := new_world example_data.

(** After [connect()], the handshake, and the 'connected' callback. *)
Definition w_connected : World :=
  run JSON.parse w_new [CallConnect; SockSecureConnect; RunImmediate].

(** After [connect()] and a socket error, before the socket closes. *)
Definition w_refused : World :=
  run JSON.parse w_new [CallConnect; SockError (Error "ECONNREFUSED")].

(** An [extra] bag that tries to redirect the connection and turns
    verification off. *)
Definition example_extra : JSValue :=
  JSObject (<["host" := JSString "other.example"]>
           (<["port" := JSNumber (Fin 1)]>
           (<["path" := JSString "/tmp/sock"]>
           (<["servername" := JSString "example.com"]>
           (<["rejectUnauthorized" := JSBoolean false]> ∅))))).

Lemma example_constructed :
  constructor example_host example_port JSUndefined = inr example_data.
Proof. reflexivity. Qed.

Lemma w_new_reachable : reachable JSON.parse w_new.
Proof. exact (reachable_new JSON.parse _ _ _ _ example_constructed). Qed.

Lemma w_connected_reachable : reachable JSON.parse w_connected.
Proof. apply reachable_run; [exact w_new_reachable|reflexivity]. Qed.

Lemma w_refused_reachable : reachable JSON.parse w_refused.
Proof. apply reachable_run; [exact w_new_reachable|reflexivity]. Qed.

(** A whole session: three chunks that split two lines across boundaries, a
    send, a timeout, the deadline, the close. *)
Example session_run :
  let w := run JSON.parse w_connected
             [SockData "[1"; SockData ("]" ++ newline ++ "{}" ++ newline ++ "tr");
              SockData ("ue" ++ newline ++ "oops" ++ newline);
              CallSend (JSString "ping"); SockTimeout; TimerFire 0%nat;
              SockClose; RunImmediate; RunImmediate; RunImmediate;
              RunImmediate; RunImmediate] in
  emitted w =
    [NConnected; NData (JSArray [JSNumber (Fin 1)]); NData (JSObject ∅);
     NData (JSBoolean true);
     NError (SyntaxError "Unexpected token in JSON");
     NDisconnected (Some timed_out)] /\
  calls w =
    [TlsConnect 0%nat (options example_data); SetEncoding 0%nat "utf8";
     SetKeepAlive 0%nat true; SetNoDelay 0%nat true;
     SocketWrite 0%nat ("ping" ++ newline) "utf8" 1%nat;
     SocketEnd 0%nat; SocketDestroy 0%nat] /\
  promises w =
    [MkPromise ByConnect Resolved; MkPromise BySend Pending;
     MkPromise ByDisconnect Resolved] /\
  socket (data w) = None.
Proof. vm_compute. repeat split. Qed.

(** An escaped surrogate pair is one character, of four bytes; a line with
    it is one 'data' notification. *)
Example escaped_surrogate_pair :
  let face := String (ascii_of_N 240) (String (ascii_of_N 159)
                (String (ascii_of_N 152) (String (ascii_of_N 128)
                   EmptyString))) in
  JSON.parse (dq ++ "\uD83D\uDE00" ++ dq) = inl (JSString face) /\
  JSON.parse (dq ++ face ++ dq) = inl (JSString face) /\
  immediates (onSocketData JSON.parse
                (dq ++ "\uD83D\uDE00" ++ dq ++ newline) w_connected) =
    [NData (JSString face)].
Proof. vm_compute. repeat split. Qed.

(** A socket error between the timeout and the close replaces the stored
    error: [onSocketError] keeps the most recent one. *)
Example timeout_then_socket_error :
  emitted (run JSON.parse w_connected
             [SockTimeout; SockError (Error "ECONNRESET"); SockClose;
              RunImmediate]) =
    [NConnected; NDisconnected (Some (Error "ECONNRESET"))].
Proof. reflexivity. Qed.

(** The deadline passes without a 'close': the handle is destroyed and the
    promise of [disconnect()] is still pending. *)
Example deadline_without_close :
  let w := run JSON.parse w_connected [CallDisconnect; TimerFire 0%nat] in
  calls w = (calls w_connected ++ [SocketEnd 0%nat; SocketDestroy 0%nat])%list /\
  promises w =
    [MkPromise ByConnect Resolved; MkPromise ByDisconnect Pending].
Proof. vm_compute. repeat split. Qed.

(** A second [connect()] while the first is outstanding is rejected; the
    first resolves on the handshake. *)
Example concurrent_connect :
  promises (run JSON.parse w_new
              [CallConnect; CallConnect; SockSecureConnect; RunImmediate]) =
    [MkPromise ByConnect Resolved;
     MkPromise ByConnect (Rejected (Error "Connection already in progress"))].
Proof. reflexivity. Qed.

(** [tls.connect] throws in the first [connect()]: the promise is rejected
    with what was thrown and the two listeners of the call stay registered;
    a later [connect()] opens the first socket, and the delivery of its
    'connected' removes the listeners of both calls. *)
Example connect_throws_then_connects :
  let e := MkError "RangeError" "Port should be >= 0 and < 65536" in
  let w := run JSON.parse w_new [CallConnectThrows e] in
  let w' := run JSON.parse w [CallConnect; SockSecureConnect; RunImmediate] in
  promises w = [MkPromise ByConnect (Rejected e)] /\
  listeners w = [ConnectOnConnected 0; ConnectOnDisconnected 0] /\
  socket (data w) = None /\ calls w = [] /\
  promises w' =
    [MkPromise ByConnect (Rejected e); MkPromise ByConnect Resolved] /\
  listeners w' = [] /\
  socket (data w') = Some 0%nat.
Proof. vm_compute. repeat split. Qed.

(** *** C1 *)

(** C1, counterexample.  The chunk "null" followed by a line feed holds one
    complete line, which parses as JSON; no notification is scheduled, and
    none is delivered. *)
Lemma framing_drops_null_line :
  let chunks := ["null" ++ newline] in
  let w' := receive JSON.parse w_new chunks in
  length (complete_lines (concat_chunks chunks)) = 1%nat /\
  JSON.parse "null" = inl JSNull /\
  immediates w' = [] /\
  emitted (run JSON.parse w' [RunImmediate]) = [] /\
  length (immediates w') <> length (complete_lines (concat_chunks chunks)).
Proof. vm_compute. repeat split. discriminate. Qed.

Lemma framing_notifications_witness :
  let chunks := ["[1]" ++ newline ++ "{"; "}" ++ newline ++ "oops" ++ newline ++ "tr";
                 "ue" ++ newline] in
  split_first (buffer_text (data w_new)) = None /\
  immediates (receive JSON.parse w_new chunks) =
    [NData (JSArray [JSNumber (Fin 1)]); NData (JSObject ∅);
     NError (SyntaxError "Unexpected token in JSON"); NData (JSBoolean true)].
Proof.
  split; [reflexivity|].
  exact (proj1 (framing_notifications JSON.parse w_new
                  ["[1]" ++ newline ++ "{";
                   "}" ++ newline ++ "oops" ++ newline ++ "tr";
                   "ue" ++ newline] eq_refl)).
Defined.

(** *** C2 *)

Lemma connect_with_handle_witness :
  socket (data w_connected) = Some 0%nat /\
  returned (connect TlsReturns w_connected) = Some (MkPromise ByConnect Resolved) /\
  calls (connect TlsReturns w_connected) = calls w_connected.
Proof.
  split; [reflexivity|].
  destruct (connect_with_handle TlsReturns w_connected 0%nat eq_refl)
    as (Hres & _ & _ & Hcalls & _).
  split; [exact (proj2 (Hres eq_refl))|exact Hcalls].
Defined.

(** *** C3 *)

Lemma send_rejections_witness :
  reachable JSON.parse w_new /\
  returned (send (JSString "ping") w_new) =
    Some (MkPromise BySend
            (Rejected (DisconnectedError "Transport not connected"))).
Proof.
  split; [exact w_new_reachable|].
  destruct (send_rejections JSON.parse w_new (JSString "ping") w_new_reachable)
    as (_ & Hdisc & _).
  apply Hdisc; [|reflexivity].
  intros [H|[H|H]]; [discriminate H|discriminate H|now apply H].
Defined.

(** *** C4 *)

Lemma send_writes_one_line_witness :
  reachable JSON.parse w_connected /\
  connected (data w_connected) = true /\
  "ping" <> EmptyString /\
  exists h, socket (data w_connected) = Some h /\
    calls (send (JSString "ping") w_connected) =
      (calls w_connected ++
       [SocketWrite h ("ping" ++ newline) "utf8"
          (length (promises w_connected))])%list.
Proof.
  assert ("ping" <> EmptyString) as Hne by discriminate.
  split; [exact w_connected_reachable|]. split; [reflexivity|].
  split; [exact Hne|].
  destruct (send_writes_one_line JSON.parse w_connected "ping"
              w_connected_reachable eq_refl Hne) as ((h & Hs & Hc & _) & _).
  exists h. split; [exact Hs|exact Hc].
Defined.

(** *** C5 *)

Lemma disconnect_contract_witness :
  reachable JSON.parse w_connected /\
  calls (disconnect w_connected) = (calls w_connected ++ [SocketEnd 0%nat])%list /\
  timers (disconnect w_connected) = [MkTimer 0%nat 5000 Armed] /\
  promises (disconnect w_connected) =
    [MkPromise ByConnect Resolved; MkPromise ByDisconnect Pending].
Proof.
  split; [exact w_connected_reachable|].
  destruct (disconnect_contract JSON.parse w_connected w_connected_reachable)
    as (_ & Hh & _).
  destruct (Hh 0%nat eq_refl) as (Hp & Hc & Ht & _).
  split; [exact Hc|]. split; [exact Ht|exact Hp].
Defined.

(** *** C6 *)



(** *** C7 *)

(** C7, counterexample.  The port 1.5 is not an integer, yet construction
    succeeds: the claimed equivalence fails at this input. *)
Lemma constructor_accepts_fractional_port :
  let port := JSNumber (Fin (3 # 2)) in
  ~ (throws (constructor example_host port JSUndefined) <->
     ~ non_empty_string example_host \/ ~ integer_in_range port 1 65535 \/
     ~ absent_or_object JSUndefined).
Proof.
  intros port [_ H].
  destruct H as [e He]; [|discriminate He].
  right. left. intros (q & n & Hq & Hn & _).
  injection Hq as <-. unfold Qeq in Hn. cbn in Hn. lia.
Qed.

Lemma constructor_validates_witness :
  exists d, constructor example_host example_port example_extra = inr d /\
            options d !! "rejectUnauthorized" = Some (JSBoolean false).
Proof.
  eexists. split; [reflexivity|].
  exact (proj2 (proj2 (constructor_validates example_host example_port
                         example_extra)) _ eq_refl).
Defined.

(** *** C8 *)

Lemma pending_error_lifecycle_witness :
  reachable JSON.parse w_refused /\
  error (data w_refused) = Some (Error "ECONNREFUSED") /\
  immediates (onSocketClose w_refused) =
    [NDisconnected (Some (Error "ECONNREFUSED"))] /\
  error (data (onSocketClose w_refused)) = None.
Proof.
  split; [exact w_refused_reachable|]. split; [reflexivity|].
  destruct (pending_error_lifecycle JSON.parse w_refused w_refused_reachable)
    as (_ & Hq & He & _).
  split; [exact Hq|exact He].
Defined.

(** *** C9 *)

Lemma close_keeps_buffer_witness :
  let mid := [RunImmediate; CallConnect; SockSecureConnect; RunImmediate] in
  let w1 := onSocketData JSON.parse "[1," w_connected in
  let w2 := run JSON.parse w1 (SockClose :: mid) in
  let w3 := onSocketData JSON.parse ("2]" ++ newline) w2 in
  forallb not_data mid = true /\
  buffer_text (data w2) = "[1," /\
  connected (data w2) = true /\
  immediates w3 = [NData (JSArray [JSNumber (Fin 1); JSNumber (Fin 2)])].
Proof.
  split; [reflexivity|].
  destruct (close_keeps_buffer JSON.parse w_connected "[1," ("2]" ++ newline)
              [RunImmediate; CallConnect; SockSecureConnect; RunImmediate]
              eq_refl) as (_ & _ & Hb & Hq & _).
  split; [exact Hb|]. split; [reflexivity|exact Hq].
Defined.

(** *** C10 *)

Lemma constructor_pins_target_witness :
  exists d, constructor example_host example_port example_extra = inr d /\
            options d !! "host" = Some example_host /\
            options d !! "port" = Some example_port /\
            options d !! "path" = Some JSUndefined /\
            options d !! "servername" = Some (JSString "example.com").
Proof.
  eexists. split; [reflexivity|].
  destruct (constructor_pins_target example_host example_port example_extra
              _ eq_refl) as (Hh & Hp & Hpath & _ & Hk & _).
  split; [exact Hh|]. split; [exact Hp|]. split; [exact Hpath|].
  rewrite Hk; [reflexivity|]. vm_compute. intros H.
  repeat (apply elem_of_cons in H as [H|H]; [discriminate H|]).
  now apply elem_of_nil in H.
Defined.

(** ** Further runs *)

(** After [connect()], before the handshake. *)
Definition w_connecting : World := run JSON.parse w_new [CallConnect].

(** After the handshake, the 'connected' callback still queued. *)
Definition w_handshaken : World :=
  run JSON.parse w_new [CallConnect; SockSecureConnect].

(** After a socket error and the close, the 'disconnected' callback still
    queued. *)
Definition w_closed : World :=
  run JSON.parse w_connected [SockError (Error "ECONNRESET"); SockClose].

Lemma w_connecting_reachable : reachable JSON.parse w_connecting.
Proof. apply reachable_run; [exact w_new_reachable|reflexivity]. Qed.

Lemma w_handshaken_reachable : reachable JSON.parse w_handshaken.
Proof. apply reachable_run; [exact w_new_reachable|reflexivity]. Qed.

Lemma w_closed_reachable : reachable JSON.parse w_closed.
Proof. apply reachable_run; [exact w_connected_reachable|reflexivity]. Qed.

Lemma emission_is_deferred_witness :
  emitted (step JSON.parse w_handshaken (SockData ("[1]" ++ newline))) =
    emitted w_handshaken /\
  emitted (step JSON.parse w_handshaken RunImmediate) = [NConnected].
Proof.
  destruct (emission_is_deferred JSON.parse w_handshaken
              (SockData ("[1]" ++ newline))) as (Hkeep & Hrun & _).
  split; [apply Hkeep; discriminate|].
  exact (proj1 (Hrun NConnected [] eq_refl)).
Defined.

Lemma isConnected_until_close_witness :
  let trace := [CallDisconnect; SockTimeout; SockError (Error "EPIPE");
                TimerFire 0%nat] in
  reachable JSON.parse w_connected /\
  enabled_trace JSON.parse w_connected trace = true /\
  closes trace = 0%nat /\
  isConnected w_connected = true /\
  isConnected (run JSON.parse w_connected trace) = true.
Proof.
  split; [exact w_connected_reachable|]. split; [reflexivity|].
  split; [reflexivity|]. split; [reflexivity|].
  destruct (isConnected_until_close JSON.parse w_connected
              [CallDisconnect; SockTimeout; SockError (Error "EPIPE");
               TimerFire 0%nat] w_connected_reachable eq_refl eq_refl)
    as (_ & _ & H & _).
  exact (H eq_refl).
Defined.

Lemma close_reports_last_error_witness :
  let mid := [SockData ("[1]" ++ newline); CallDisconnect] in
  forallb keeps_error mid = true /\
  exists ns,
    history (run JSON.parse w_connected
               (SockError (Error "EPIPE") :: mid ++ [SockClose])) =
      (history w_connected ++ ns ++
       [NDisconnected (Some (Error "EPIPE"))])%list /\
    Forall not_disconnected ns.
Proof.
  split; [reflexivity|].
  exact (proj1 (proj2 (close_reports_last_error JSON.parse w_connected
                         [SockData ("[1]" ++ newline); CallDisconnect]
                         eq_refl)) (Error "EPIPE")).
Defined.

Lemma disconnected_leaves_nothing_witness :
  reachable JSON.parse w_closed /\
  immediates w_closed = [NDisconnected (Some (Error "ECONNRESET"))] /\
  listeners (step JSON.parse w_closed RunImmediate) = [].
Proof.
  split; [exact w_closed_reachable|]. split; [reflexivity|].
  exact (proj1 (disconnected_leaves_nothing JSON.parse w_closed _ _
                  w_closed_reachable eq_refl)).
Defined.

Lemma connected_leaves_no_connect_witness :
  reachable JSON.parse w_handshaken /\
  immediates w_handshaken = [NConnected] /\
  (forall l, l ∈ listeners (step JSON.parse w_handshaken RunImmediate) ->
             listener_origin l = ByDisconnect).
Proof.
  split; [exact w_handshaken_reachable|]. split; [reflexivity|].
  exact (proj1 (connected_leaves_no_connect JSON.parse w_handshaken _
                  w_handshaken_reachable eq_refl)).
Defined.

Lemma listeners_follow_promises_witness :
  let e := MkError "RangeError" "Port should be >= 0 and < 65536" in
  reachable JSON.parse w_connecting /\
  listeners w_connecting = [ConnectOnConnected 0; ConnectOnDisconnected 0] /\
  NoDup (listeners w_connecting) /\
  reachable JSON.parse w_new /\
  socket (data w_new) = None /\
  promises (step JSON.parse w_new (CallConnectThrows e)) !! 0%nat =
    Some (MkPromise ByConnect (Rejected e)) /\
  ConnectOnConnected 0 ∈ listeners (step JSON.parse w_new (CallConnectThrows e)).
Proof.
  cbv zeta.
  split; [exact w_connecting_reachable|]. split; [reflexivity|].
  split; [exact (proj1 (listeners_follow_promises JSON.parse w_connecting
                          w_connecting_reachable))|].
  split; [exact w_new_reachable|]. split; [reflexivity|].
  destruct (proj2 (proj2 (proj2 (proj2
              (listeners_follow_promises JSON.parse w_new w_new_reachable))))
              (MkError "RangeError" "Port should be >= 0 and < 65536")
              eq_refl) as (Hp & _ & Hl & _).
  split; [exact Hp|exact Hl].
Defined.

Lemma connect_settles_on_delivery_witness :
  reachable JSON.parse w_handshaken /\
  promises w_handshaken !! 0%nat = Some (MkPromise ByConnect Pending) /\
  promises (step JSON.parse w_handshaken RunImmediate) !! 0%nat =
    Some (MkPromise ByConnect Resolved) /\
  MkPromise ByConnect Resolved <> MkPromise ByConnect Pending /\
  RunImmediate = RunImmediate.
Proof.
  assert (MkPromise ByConnect Resolved <> MkPromise ByConnect Pending) as Hne
    by discriminate.
  split; [exact w_handshaken_reachable|]. split; [reflexivity|].
  split; [reflexivity|]. split; [exact Hne|].
  exact (proj1 (connect_settles_on_delivery JSON.parse w_handshaken
                  RunImmediate 0%nat _ w_handshaken_reachable eq_refl eq_refl
                  Hne)).
Defined.

Lemma connect_resolves_on_handshake_witness :
  let mid := [SockData ("[1]" ++ newline); CallConnect; RunImmediate] in
  let w1 := run JSON.parse (connect TlsReturns w_new) mid in
  let w2 := step JSON.parse w1 SockSecureConnect in
  let w3 := run JSON.parse w2 (repeat RunImmediate (length (immediates w2))) in
  reachable JSON.parse w_new /\
  socket (data w_new) = None /\
  forallb data_only (immediates w_new) = true /\
  forallb undecided mid = true /\
  promises w3 !! 0%nat = Some (MkPromise ByConnect Resolved) /\
  isConnected w3 = true /\
  promises (connect (TlsThrows (TypeError "bad option")) w_new) !! 0%nat =
    Some (MkPromise ByConnect (Rejected (TypeError "bad option"))).
Proof.
  split; [exact w_new_reachable|]. split; [reflexivity|].
  split; [reflexivity|]. split; [reflexivity|].
  destruct (connect_resolves_on_handshake JSON.parse w_new
              [SockData ("[1]" ++ newline); CallConnect; RunImmediate]
              w_new_reachable eq_refl eq_refl eq_refl)
    as (_ & _ & Hres & Hcon & _ & _ & _ & Hthrow).
  split; [exact Hres|]. split; [exact Hcon|].
  exact (proj1 (Hthrow (TypeError "bad option"))).
Defined.

Lemma connect_rejects_on_close_witness :
  let mid := [SockError (Error "ECONNREFUSED")] in
  let w1 := run JSON.parse (connect TlsReturns w_new) mid in
  let w2 := step JSON.parse w1 SockClose in
  let w3 := run JSON.parse w2 (repeat RunImmediate (length (immediates w2))) in
  reachable JSON.parse w_new /\
  socket (data w_new) = None /\
  forallb data_only (immediates w_new) = true /\
  forallb undecided mid = true /\
  promises w3 !! 0%nat =
    Some (MkPromise ByConnect (Rejected (Error "ECONNREFUSED"))) /\
  socket (data w3) = None.
Proof.
  split; [exact w_new_reachable|]. split; [reflexivity|].
  split; [reflexivity|]. split; [reflexivity|].
  destruct (connect_rejects_on_close JSON.parse w_new
              [SockError (Error "ECONNREFUSED")]
              w_new_reachable eq_refl eq_refl eq_refl)
    as (Hrej & Hs & _).
  split; [exact Hrej|exact Hs].
Defined.

Lemma queued_disconnected_rejects_connect_witness :
  reachable JSON.parse w_closed /\
  socket (data w_closed) = None /\
  immediates w_closed = [NDisconnected (Some (Error "ECONNRESET"))] /\
  promises (step JSON.parse (connect TlsReturns w_closed) RunImmediate) !! 1%nat =
    Some (MkPromise ByConnect (Rejected (Error "ECONNRESET"))) /\
  socket (data (step JSON.parse (connect TlsReturns w_closed) RunImmediate)) =
    Some (fresh_handle w_closed).
Proof.
  split; [exact w_closed_reachable|]. split; [reflexivity|].
  split; [reflexivity|].
  destruct (queued_disconnected_rejects_connect JSON.parse w_closed _ _
              w_closed_reachable eq_refl eq_refl) as (Hrej & Hs & _).
  split; [exact Hrej|exact Hs].
Defined.

Lemma handles_one_at_a_time_witness :
  let trace := [CallConnect; SockSecureConnect; CallDisconnect; SockClose;
                CallConnect; CallConnect] in
  let w := run JSON.parse w_new trace in
  constructor example_host example_port JSUndefined = inr example_data /\
  enabled_trace JSON.parse w_new trace = true /\
  length (opened (calls w)) = 2%nat /\
  NoDup (opened (calls w)).*1.
Proof.
  split; [reflexivity|]. split; [reflexivity|].
  destruct (handles_one_at_a_time JSON.parse example_host example_port
              JSUndefined example_data
              [CallConnect; SockSecureConnect; CallDisconnect; SockClose;
               CallConnect; CallConnect] eq_refl eq_refl)
    as (_ & _ & Hnd & Hlen & _).
  split; [exact Hlen|exact Hnd].
Defined.

Lemma buffer_holds_no_line_witness :
  reachable JSON.parse w_connected /\
  indexOf (buffer_text
             (data (onSocketData JSON.parse ("[1]" ++ newline ++ "[2,")
                      w_connected))) newline = -1.
Proof.
  split; [exact w_connected_reachable|].
  exact (proj1 (proj2 (buffer_holds_no_line JSON.parse w_connected
                         ("[1]" ++ newline ++ "[2,") w_connected_reachable))).
Defined.

Lemma frames_come_back_witness :
  let texts := ["[1]"; "{}"] in
  let chunks := ["[1"; "]" ++ newline ++ "{"; "}" ++ newline] in
  reachable JSON.parse w_connected /\
  connected (data w_connected) = true /\
  Forall (fun t => t <> EmptyString) texts /\
  Forall (fun t => split_first t = None) texts /\
  buffer_text (data w_new) = EmptyString /\
  immediates (receive JSON.parse w_new chunks) =
    [NData (JSArray [JSNumber (Fin 1)]); NData (JSObject ∅)].
Proof.
  assert (Forall (fun t => t <> EmptyString) ["[1]"; "{}"]) as Hne
    by (repeat constructor; discriminate).
  assert (Forall (fun t => split_first t = None) ["[1]"; "{}"]) as Hlf
    by (repeat constructor).
  split; [exact w_connected_reachable|]. split; [reflexivity|].
  split; [exact Hne|]. split; [exact Hlf|]. split; [reflexivity|].
  destruct (frames_come_back JSON.parse w_connected w_new ["[1]"; "{}"]
              w_connected_reachable eq_refl Hne Hlf eq_refl) as (_ & Hback).
  exact (proj1 (Hback ["[1"; "]" ++ newline ++ "{"; "}" ++ newline] eq_refl)).
Defined.

Lemma payload_line_feeds_split_witness :
  let text := "[1]" ++ newline ++ "[2]" in
  reachable JSON.parse w_connected /\
  connected (data w_connected) = true /\
  text <> EmptyString /\
  buffer_text (data w_new) = EmptyString /\
  returned (send (JSString text) w_connected) =
    Some (MkPromise BySend Pending) /\
  immediates (onSocketData JSON.parse (text ++ newline) w_new) =
    [NData (JSArray [JSNumber (Fin 1)]); NData (JSArray [JSNumber (Fin 2)])].
Proof.
  assert ("[1]" ++ newline ++ "[2]" <> EmptyString) as Hne by discriminate.
  split; [exact w_connected_reachable|]. split; [reflexivity|].
  split; [exact Hne|]. split; [reflexivity|].
  destruct (payload_line_feeds_split JSON.parse w_connected w_new
              ("[1]" ++ newline ++ "[2]")
              w_connected_reachable eq_refl Hne eq_refl)
    as (Hret & _ & Himm & _).
  split; [exact Hret|exact Himm].
Defined.

(** ** The documentation plugin: properties *)

Section Plugin.

Import JSDoc.

#[local] Open Scope list_scope.

Variable ws : N -> bool.

Lemma break_at_Some (d : N) (s a b : list N) :
  break_at d s = Some (a, b) ->
  s = a ++ d :: b /\ forallb (fun c => negb (c =? d)%N) a = true.
Proof.
  revert a b. induction s as [|c s IH]; intros a b H; [discriminate|].
  cbn in H. destruct (N.eqb_spec c d) as [->|Hne].
  - injection H as <- <-. split; reflexivity.
  - destruct (break_at d s) as [[a' b']|]; [|discriminate].
    injection H as <- <-. destruct (IH a' b' eq_refl) as [-> Hall].
    split; [reflexivity|]. cbn. rewrite Hall.
    apply N.eqb_neq in Hne. rewrite Hne. reflexivity.
Qed.

Lemma break_at_None (d : N) (s : list N) :
  break_at d s = None -> forallb (fun c => negb (c =? d)%N) s = true.
Proof.
  induction s as [|c s IH]; intros H; [reflexivity|].
  cbn in H. cbn. destruct (c =? d)%N; [discriminate|].
  destruct (break_at d s) as [[a' b']|]; [discriminate|].
  rewrite IH; reflexivity.
Qed.

Lemma break_at_app (d : N) (a b : list N) :
  forallb (fun c => negb (c =? d)%N) a = true ->
  break_at d (a ++ d :: b) = Some (a, b).
Proof.
  induction a as [|c a IH]; intros H; cbn.
  - rewrite N.eqb_refl. reflexivity.
  - cbn in H. apply andb_true_iff in H as [Hc Ha].
    apply negb_true_iff in Hc. rewrite Hc, (IH Ha). reflexivity.
Qed.

(** A greedy class star before a continuation that needs the end of the
    input: it goes through when the class covers the whole rest. *)
Lemma star_eol (p : N -> bool) (k : Cont) (s : list N) :
  (forall pos c rest caps, k pos (c :: rest) caps = None) ->
  forall pos caps,
    star p pos s caps k =
    if forallb p s then k (pos + length s)%nat [] caps else None.
Proof.
  intros Hk. induction s as [|c s IH]; intros pos caps; cbn.
  - rewrite Nat.add_0_r. reflexivity.
  - destruct (p c); cbn.
    + rewrite IH, Hk, Nat.add_succ_r.
      destruct (forallb p s); [|reflexivity].
      destruct (k _ [] caps); reflexivity.
    + apply Hk.
Qed.

(** A greedy class star before a code unit outside the class: it stops at
    the first occurrence of that code unit. *)
Lemma star_then_char (p : N -> bool) (d : N) (k : Cont) (a b : list N) :
  p d = false -> (forall c, p c = true -> (c =? d)%N = false) ->
  forallb p a = true ->
  forall pos caps,
    star p pos (a ++ d :: b) caps
      (fun pos' rest' caps' =>
         match rest' with
         | x :: rest'' => if (x =? d)%N then k (S pos') rest'' caps' else None
         | [] => None
         end) =
    k (S (pos + length a)) b caps.
Proof.
  intros Hd Hp. induction a as [|c a IH]; intros Ha pos caps; cbn.
  - rewrite Hd, N.eqb_refl, Nat.add_0_r. reflexivity.
  - cbn in Ha. apply andb_true_iff in Ha as [Hc Ha].
    rewrite Hc, (IH Ha), (Hp c Hc), Nat.add_succ_r.
    destruct (k _ b caps); reflexivity.
Qed.

Lemma star_no_char (p : N -> bool) (d : N) (k : Cont) (s : list N) :
  (forall c, p c = true -> (c =? d)%N = false) ->
  forallb p s = true ->
  forall pos caps,
    star p pos s caps
      (fun pos' rest' caps' =>
         match rest' with
         | x :: rest'' => if (x =? d)%N then k (S pos') rest'' caps' else None
         | [] => None
         end) = None.
Proof.
  intros Hp. induction s as [|c s IH]; intros Hs pos caps; cbn.
  - reflexivity.
  - cbn in Hs. apply andb_true_iff in Hs as [Hc Hs].
    rewrite Hc, (IH Hs), (Hp c Hc). reflexivity.
Qed.

Lemma pattern_tail_spec (pos : nat) (rest : list N) (caps : Captures) :
  matcher pattern_tail pos rest caps accept =
  if no_terminator rest
  then Some (match rest with
             | [] => caps
             | _ :: _ => <[2%nat := rest]> caps
             end, (pos + length rest)%nat)
  else None.
Proof.
  destruct rest as [|c rest]; cbn.
  - rewrite Nat.add_0_r. reflexivity.
  - destruct (LineTerminator c) eqn:Hc; cbn; [reflexivity|].
    rewrite star_eol.
    + unfold no_terminator.
      destruct (forallb _ rest); [|reflexivity].
      replace (S pos + length rest =? pos)%nat with false
        by (symmetry; apply Nat.eqb_neq; lia).
      replace (S pos + length rest - pos)%nat with (length (c :: rest))
        by (cbn [length]; lia).
      rewrite firstn_all, Nat.add_succ_r. reflexivity.
    + intros pos' c' rest' caps'. cbn. destruct (pos' =? pos)%nat; reflexivity.
Qed.

Lemma no_terminator_app (a b : list N) :
  no_terminator (a ++ b) = no_terminator a && no_terminator b.
Proof. apply forallb_app. Qed.

(** The matcher at index 0. *)
Lemma matcher_pattern_spec (d : list N) :
  matcher pattern 0 d ∅ accept =
  match leading_group d with
  | Some (inner, rest) =>
      if no_terminator rest
      then Some (match rest with
                 | [] => {[ 1%nat := 123%N :: inner ++ [125%N] ]}
                 | _ :: _ =>
                     <[2%nat := rest]> {[ 1%nat := 123%N :: inner ++ [125%N] ]}
                 end, length d)
      else None
  | None =>
      if no_terminator d
      then Some (match d with
                 | [] => ∅
                 | _ :: _ => {[ 2%nat := d ]}
                 end, length d)
      else None
  end.
Proof.
  change pattern with (Seq Bol (Seq (Opt pattern_group) pattern_tail)).
  cbn [matcher Nat.eqb].
  assert (matcher pattern_tail 0 d ∅ accept =
          if no_terminator d
          then Some (match d with
                     | [] => ∅
                     | _ :: _ => {[ 2%nat := d ]}
                     end, length d)
          else None) as Hskip.
  { rewrite pattern_tail_spec. destruct d; reflexivity. }
  unfold pattern_group at 1. cbn [matcher].
  destruct d as [|c t]; [exact Hskip|].
  cbn [leading_group]. destruct (N.eqb_spec c 123) as [->|Hc]; [|exact Hskip].
  assert (forall c : N, negb (c =? 125)%N = true -> (c =? 125)%N = false)
    as Hp by (intros c Hc; apply negb_true_iff in Hc; exact Hc).
  destruct (break_at 125 t) as [[inner rest]|] eqn:Hb.
  - apply break_at_Some in Hb as [-> Hin].
    pose proof (star_then_char (fun c => negb (c =? 125)%N) 125
                  (fun p r c =>
                     if (p =? 0)%nat then None
                     else matcher pattern_tail p r
                            (<[1%nat := take (p - 0)
                                          (123%N :: inner ++ 125%N :: rest)]> c)
                            accept)
                  inner rest eq_refl Hp Hin 1%nat ∅) as Hstar.
    cbv beta in Hstar. rewrite Hstar. clear Hstar.
    cbn [Nat.eqb]. rewrite pattern_tail_spec.
    destruct (no_terminator rest) eqn:Hr.
    + rewrite Nat.sub_0_r.
      replace (take (S (1 + length inner)) (123%N :: inner ++ 125%N :: rest))
        with (123%N :: inner ++ [125%N]).
      2: { cbn [take Nat.add]. f_equal.
           change (125%N :: rest) with ([125%N] ++ rest).
           rewrite app_assoc.
           rewrite (take_app_length' (inner ++ [125%N]) rest); [reflexivity|].
           rewrite length_app. cbn. lia. }
      rewrite insert_empty. f_equal. f_equal.
      cbn [length]. rewrite length_app. cbn [length]. lia.
    + rewrite Hskip.
      change (123%N :: inner ++ 125%N :: rest)
        with ([123%N] ++ inner ++ [125%N] ++ rest).
      rewrite !no_terminator_app, Hr, !andb_false_r. reflexivity.
  - apply break_at_None in Hb.
    pose proof (star_no_char (fun c => negb (c =? 125)%N) 125
                  (fun p r c =>
                     if (p =? 0)%nat then None
                     else matcher pattern_tail p r
                            (<[1%nat := take (p - 0) (123%N :: t)]> c)
                            accept)
                  t Hp Hb 1%nat ∅) as Hstar.
    cbv beta in Hstar. rewrite Hstar. exact Hskip.
Qed.

Lemma search_pattern_later (pos : nat) (rest : list N) :
  search pattern (S pos) rest = None.
Proof.
  revert pos. induction rest as [|c rest IH]; intros pos.
  - reflexivity.
  - cbn [search]. change (matcher pattern (S pos) (c :: rest) ∅ _) with
      (@None (Captures * nat)). apply IH.
Qed.

(** The search finds a match at index 0 or none at all. *)
Lemma search_pattern_spec (d : list N) :
  search pattern 0 d =
  match matcher pattern 0 d ∅ accept with
  | Some (caps, e) => Some (0%nat, e, caps)
  | None => None
  end.
Proof.
  destruct d as [|c d]; cbn [search]; fold accept;
    destruct (matcher pattern 0 _ ∅ accept) as [[caps e]|];
    try reflexivity.
  apply search_pattern_later.
Qed.

(** X15.  The pattern [/^({[^}]*})?(.+)?$/i], run by the backtracking
    matcher, matches at index 0 or not at all, and the array of a match has
    three entries.  When the description begins with a brace group (an
    opening brace and, further on, a closing one), the first capture is the
    group up to its first closing brace, line terminators inside included,
    and the match succeeds exactly when no line terminator follows the
    group; otherwise the first capture is [undefined] and the match succeeds
    exactly when the description has no line terminator.  The second capture
    is all that follows, [undefined] when nothing does. *)
Theorem pattern_match_captures (d : list N) :
  String_match pattern 2 d =
  match leading_group d with
  | Some (inner, rest) =>
      if no_terminator rest
      then Some [Some d; Some (123%N :: inner ++ [125%N]); capture rest]
      else None
  | None =>
      if no_terminator d then Some [Some d; None; capture d] else None
  end.
Proof.
  unfold String_match. rewrite search_pattern_spec, matcher_pattern_spec.
  destruct (leading_group d) as [[inner rest]|].
  - destruct (no_terminator rest); [|reflexivity].
    rewrite Nat.sub_0_r, drop_0, firstn_all.
    destruct rest; reflexivity.
  - destruct (no_terminator d); [|reflexivity].
    rewrite Nat.sub_0_r, drop_0, firstn_all.
    destruct d; reflexivity.
Qed.

Lemma split_cons (sep : N) (s : list N) :
  exists piece pieces, split sep s = piece :: pieces.
Proof.
  destruct s as [|c s]; cbn; [eauto|].
  destruct (c =? sep)%N; [eauto|].
  destruct (split sep s); eauto.
Qed.

(** [formatDescription] without the regular expression. *)
Lemma formatDescription_cases (d : list N) :
  formatDescription ws d =
  match leading_group d with
  | Some (inner, rest) =>
      if no_terminator rest
      then render (default [] (split 32 inner !! 0%nat))
             (split 32 inner !! 1%nat) (trim ws rest)
      else None
  | None =>
      if no_terminator d then render [] None (trim ws d) else None
  end.
Proof.
  unfold formatDescription, String_match.
  rewrite search_pattern_spec, matcher_pattern_spec.
  destruct (leading_group d) as [[inner rest]|].
  - destruct (no_terminator rest); [|reflexivity].
    cbn [map seq].
    replace (or_empty (_ !! 2%nat)) with rest by (destruct rest; reflexivity).
    replace (_ !! 1%nat) with (Some (123%N :: inner ++ [125%N]))
      by (destruct rest; reflexivity).
    cbn [truthy or_empty default].
    replace (substr 1 _ _) with inner.
    2: { unfold substr, id. cbn [length drop].
         transitivity (take (length inner) (inner ++ [125%N]));
           [symmetry; apply take_app_length|].
         f_equal. rewrite length_app. cbn [length]. lia. }
    destruct (split_cons 32 inner) as (p0 & ps & ->).
    cbn [take lookup list_lookup default head].
    destruct (trim ws rest), p0 as [|c p0], ps as [|[|c1 p1] ps];
      reflexivity.
  - destruct (no_terminator d); [|reflexivity].
    cbn [map seq].
    replace (or_empty (_ !! 2%nat)) with d by (destruct d; reflexivity).
    replace (_ !! 1%nat) with (@None (list N)) by (destruct d; reflexivity).
    destruct (trim ws d); reflexivity.
Qed.

Lemma without_app (c : N) (a b : list N) :
  without c (a ++ b) = without c a && without c b.
Proof. apply forallb_app. Qed.

Lemma split_without (sep : N) (s : list N) :
  without sep s = true -> split sep s = [s].
Proof.
  induction s as [|c s IH]; intros H; [reflexivity|].
  cbn in H. apply andb_true_iff in H as [Hc Hs].
  apply negb_true_iff in Hc. cbn. rewrite Hc, (IH Hs). reflexivity.
Qed.

Lemma split_app (sep : N) (a b : list N) :
  without sep a = true -> split sep (a ++ sep :: b) = a :: split sep b.
Proof.
  induction a as [|c a IH]; intros H; cbn.
  - rewrite N.eqb_refl. reflexivity.
  - cbn in H. apply andb_true_iff in H as [Hc Ha].
    apply negb_true_iff in Hc. rewrite Hc, (IH Ha). reflexivity.
Qed.

Lemma split_head_nil (inner : list N) :
  default [] (split 32 inner !! 0%nat) = [] <-> no_type_name inner = true.
Proof.
  destruct inner as [|c s]; cbn; [tauto|].
  destruct (c =? 32)%N; cbn; [tauto|].
  destruct (split_cons 32 s) as (piece & pieces & ->). cbn.
  split; discriminate.
Qed.

Lemma leading_group_app (inner rest : list N) :
  without 125 inner = true ->
  leading_group (123%N :: inner ++ 125%N :: rest) = Some (inner, rest).
Proof. intros H. cbn. apply break_at_app. exact H. Qed.

Lemma render_None (name : list N) (link : option (list N)) (text : list N) :
  render name link text = None <-> name = [] /\ text = [].
Proof.
  destruct name, text; cbn; split; try tauto; try discriminate;
    intros [? ?]; discriminate.
Qed.

Lemma render_nonempty (name : list N) (link : option (list N))
  (text out : list N) :
  render name link text = Some out -> out <> [].
Proof.
  destruct name, text; cbn; try discriminate;
    try (destruct (truthy link)); intros [= <-]; discriminate.
Qed.

Lemma trimStart_ws (l x : list N) :
  forallb ws l = true -> trimStart ws (l ++ x) = trimStart ws x.
Proof.
  induction l as [|c l IH]; intros H; [reflexivity|].
  cbn in H. apply andb_true_iff in H as [Hc Hl].
  cbn. rewrite Hc. apply IH, Hl.
Qed.

Lemma trimStart_all (d : list N) :
  forallb ws d = true <-> trimStart ws d = [].
Proof.
  induction d as [|c d IH]; cbn; [tauto|].
  destruct (ws c); cbn; [exact IH|].
  split; discriminate.
Qed.

Lemma trimStart_app (d r : list N) :
  trimStart ws d <> [] -> trimStart ws (d ++ r) = trimStart ws d ++ r.
Proof.
  induction d as [|c d IH]; cbn; [congruence|].
  destruct (ws c); [exact IH|reflexivity].
Qed.

Lemma forallb_rev (p : N -> bool) (l : list N) :
  forallb p (rev l) = forallb p l.
Proof.
  induction l as [|c l IH]; [reflexivity|].
  cbn. rewrite forallb_app, IH. cbn. rewrite andb_true_r. apply andb_comm.
Qed.

Lemma trimEnd_ws (x r : list N) :
  forallb ws r = true -> trimEnd ws (x ++ r) = trimEnd ws x.
Proof.
  intros H. unfold trimEnd. rewrite rev_app_distr, trimStart_ws;
    [reflexivity|]. rewrite forallb_rev. exact H.
Qed.

(** White space around a string does not change what [trim] gives. *)
Lemma trim_around (l d r : list N) :
  forallb ws l = true -> forallb ws r = true ->
  trim ws (l ++ d ++ r) = trim ws d.
Proof.
  intros Hl Hr. unfold trim. rewrite (trimStart_ws _ _ Hl).
  destruct (forallb ws d) eqn:Hd.
  - rewrite (trimStart_ws _ _ Hd).
    apply trimStart_all in Hd. apply trimStart_all in Hr.
    rewrite Hd, Hr. reflexivity.
  - rewrite trimStart_app, trimEnd_ws; [reflexivity|exact Hr|].
    intros E. apply trimStart_all in E. congruence.
Qed.

Lemma trim_ws (d : list N) : forallb ws d = true -> trim ws d = [].
Proof.
  intros H. unfold trim. apply trimStart_all in H. rewrite H. reflexivity.
Qed.

(** X16.  [formatDescription] returns [false] in two cases only: a line
    terminator occurs after the leading brace group (anywhere, when there is
    no such group), so that the pattern does not match; or there is no type
    name (no brace group, or one that is empty or begins with a space) and
    nothing but white space beside it. *)
Theorem formatDescription_false (d : list N) :
  formatDescription ws d = None <->
  match leading_group d with
  | Some (inner, rest) =>
      no_terminator rest = false \/
      (no_type_name inner = true /\ trim ws rest = [])
  | None => no_terminator d = false \/ trim ws d = []
  end.
Proof.
  rewrite formatDescription_cases.
  destruct (leading_group d) as [[inner rest]|].
  - destruct (no_terminator rest).
    + rewrite render_None, split_head_nil.
      split; [intros H; right; exact H|intros [H|H]; [discriminate|exact H]].
    + split; [intros _; left; reflexivity|reflexivity].
  - destruct (no_terminator d).
    + rewrite render_None.
      split; [intros [_ H]; right; exact H|].
      intros [H|H]; [discriminate|split; [reflexivity|exact H]].
    + split; [intros _; left; reflexivity|reflexivity].
Qed.

(** X17.  A description that begins with a brace group holding a type name
    is rendered as the name in backticks, followed, when the rest is not
    blank, by the separator and the trimmed rest.  When a second word
    follows the name inside the braces, the two are rendered as an inline
    [@link] to the second word with the name as caption; whatever follows a
    second space inside the braces is dropped.  Nothing is escaped. *)
Theorem formatDescription_typed (name link more rest : list N) :
  name <> [] ->
  without 32 name = true -> without 125 name = true ->
  without 32 link = true -> without 125 link = true ->
  without 125 more = true ->
  no_terminator rest = true ->
  let suffix := match trim ws rest with
                | [] => []
                | _ :: _ => text_prefix ++ trim ws rest
                end in
  let linked := match link with
                | [] => backtick ++ name ++ backtick
                | _ :: _ => backtick ++ units "{@link " ++ link ++ units "|" ++
                            name ++ units "}" ++ backtick
                end in
  formatDescription ws (units "{" ++ name ++ units "}" ++ rest) =
    Some ((backtick ++ name ++ backtick) ++ suffix) /\
  formatDescription ws
    (units "{" ++ name ++ units " " ++ link ++ units "}" ++ rest) =
    Some (linked ++ suffix) /\
  formatDescription ws
    (units "{" ++ name ++ units " " ++ link ++ units " " ++ more ++
     units "}" ++ rest) =
    Some (linked ++ suffix).
Proof.
  intros Hname Hn32 Hn125 Hl32 Hl125 Hm125 Hrest suffix linked.
  change (units "{") with [123%N]. change (units "}") with [125%N].
  change (units " ") with [32%N].
  assert (forall inner, without 125 inner = true ->
            formatDescription ws ([123%N] ++ inner ++ [125%N] ++ rest) =
            render (default [] (split 32 inner !! 0%nat))
              (split 32 inner !! 1%nat) (trim ws rest)) as Hcase.
  { intros inner Hin. rewrite formatDescription_cases.
    change ([123%N] ++ inner ++ [125%N] ++ rest)
      with (123%N :: inner ++ 125%N :: rest).
    rewrite (leading_group_app _ _ Hin), Hrest. reflexivity. }
  assert (forall l, render name l (trim ws rest) =
            Some ((if truthy l
                   then backtick ++ units "{@link " ++ or_empty l ++
                        units "|" ++ name ++ units "}" ++ backtick
                   else backtick ++ name ++ backtick) ++ suffix)) as Hrender.
  { intros l. subst suffix. destruct name; [congruence|].
    cbn [render]. destruct (trim ws rest); reflexivity. }
  repeat apply conj.
  - rewrite (Hcase name Hn125), (split_without _ _ Hn32).
    cbn [lookup list_lookup default]. unfold id. apply Hrender.
  - replace ([123%N] ++ name ++ [32%N] ++ link ++ [125%N] ++ rest)
      with ([123%N] ++ (name ++ 32%N :: link) ++ [125%N] ++ rest)
      by (rewrite <- !app_assoc; reflexivity).
    rewrite Hcase.
    2: { change (32%N :: link) with ([32%N] ++ link).
         rewrite !without_app, Hn125, Hl125. reflexivity. }
    rewrite (split_app _ _ _ Hn32), (split_without _ _ Hl32).
    cbn [lookup list_lookup default]. unfold id. rewrite Hrender.
    subst linked. destruct link; reflexivity.
  - replace ([123%N] ++ name ++ [32%N] ++ link ++ [32%N] ++ more ++
             [125%N] ++ rest)
      with ([123%N] ++ (name ++ 32%N :: link ++ 32%N :: more) ++
            [125%N] ++ rest)
      by (rewrite <- !app_assoc; cbn [app]; rewrite <- !app_assoc;
          reflexivity).
    rewrite Hcase.
    2: { change (32%N :: link ++ 32%N :: more)
           with ([32%N] ++ link ++ [32%N] ++ more).
         rewrite !without_app, Hn125, Hl125, Hm125. reflexivity. }
    rewrite (split_app _ _ _ Hn32), (split_app _ _ _ Hl32).
    cbn [lookup list_lookup default]. unfold id. rewrite Hrender.
    subst linked. destruct link; reflexivity.
Qed.

(** X18.  Without a type name the result is an em dash and a space,
    followed by the separator (which holds an em dash of its own) and the
    trimmed text: so for a description without a leading brace group, all
    of which is then text; and so for a leading brace group that is empty
    or begins with a space, whose content is dropped. *)
Theorem formatDescription_untyped (d inner rest : list N) :
  let out text := Some ((em_dash ++ units " ") ++ text_prefix ++ text) in
  (leading_group d = None -> no_terminator d = true -> trim ws d <> [] ->
   formatDescription ws d = out (trim ws d)) /\
  (without 125 inner = true -> no_type_name inner = true ->
   no_terminator rest = true -> trim ws rest <> [] ->
   formatDescription ws (units "{" ++ inner ++ units "}" ++ rest) =
     out (trim ws rest)).
Proof.
  intros out. split.
  - intros Hg Hd Ht. rewrite formatDescription_cases, Hg, Hd.
    cbn [render]. destruct (trim ws d); [congruence|reflexivity].
  - intros Hin Hno Hrest Ht. rewrite formatDescription_cases.
    change (units "{" ++ inner ++ units "}" ++ rest)
      with (123%N :: inner ++ 125%N :: rest).
    rewrite (leading_group_app _ _ Hin), Hrest.
    apply split_head_nil in Hno. rewrite Hno.
    cbn [render]. destruct (trim ws rest); [congruence|reflexivity].
Qed.

(** X19.  [formatSymbolInfo] returns [false] exactly when
    [formatDescription] does on the trimmed value: a result of
    [formatDescription] is never the empty string.  An [undefined] or blank
    value gives [false]; white space around the value changes nothing; and
    a result is the caption markup followed by what [formatDescription]
    returned. *)
Theorem formatSymbolInfo_result (caption d l r : list N) :
  (forall body, formatDescription ws d = Some body -> body <> []) /\
  (formatSymbolInfo ws caption (Some d) = None <->
   formatDescription ws (trim ws d) = None) /\
  formatSymbolInfo ws caption None = None /\
  (forallb ws d = true -> formatSymbolInfo ws caption (Some d) = None) /\
  (forallb ws l = true -> forallb ws r = true ->
   formatSymbolInfo ws caption (Some (l ++ d ++ r)) =
   formatSymbolInfo ws caption (Some d)) /\
  (forall out, formatSymbolInfo ws caption (Some d) = Some out ->
     exists body, formatDescription ws (trim ws d) = Some body /\
                  out = caption_html caption ++ body).
Proof.
  assert (forall x body, formatDescription ws x = Some body -> body <> [])
    as Hne.
  { intros x body. rewrite formatDescription_cases.
    destruct (leading_group x) as [[inner rest]|];
      [destruct (no_terminator rest)|destruct (no_terminator x)];
      try discriminate; apply render_nonempty. }
  assert (formatDescription ws [] = None) as Hnil.
  { rewrite formatDescription_cases. reflexivity. }
  refine (conj _ (conj _ (conj _ (conj _ (conj _ _))))).
  - apply Hne.
  - unfold formatSymbolInfo. cbn [or_empty default]. unfold id.
    destruct (formatDescription ws (trim ws d)) as [[|c body]|] eqn:E.
    + exfalso. exact (Hne _ _ E eq_refl).
    + split; intros H; discriminate H.
    + split; reflexivity.
  - unfold formatSymbolInfo. cbn [or_empty default].
    change (trim ws []) with (@nil N). rewrite Hnil. reflexivity.
  - intros Hd. unfold formatSymbolInfo. cbn [or_empty default]. unfold id.
    rewrite (trim_ws _ Hd), Hnil. reflexivity.
  - intros Hl Hr. unfold formatSymbolInfo. cbn [or_empty default]. unfold id.
    rewrite (trim_around _ _ _ Hl Hr). reflexivity.
  - intros out. unfold formatSymbolInfo. cbn [or_empty default]. unfold id.
    destruct (formatDescription ws (trim ws d)) as [[|c body]|];
      try discriminate.
    intros [= <-]. eauto.
Qed.

Lemma foldl_snoc (d0 : Doclet) (ts : list Tagged) (t : Tagged) :
  foldl onTagged d0 (ts ++ [t]) = onTagged (foldl onTagged d0 ts) t.
Proof. rewrite foldl_app. reflexivity. Qed.

(** What a doclet holds after its tags. *)
Lemma tagged_fields (d0 : Doclet) (ts : list Tagged) :
  let d := foldl onTagged d0 ts in
  promise d = default (promise d0) (last (promise_values ts)) /\
  resolves d = match resolve_values ts with
               | [] => resolves d0
               | _ :: _ => Some (default [] (resolves d0) ++ resolve_values ts)
               end /\
  rejects d = match reject_values ts with
              | [] => rejects d0
              | _ :: _ => Some (default [] (rejects d0) ++ reject_values ts)
              end /\
  returns d = returns d0 /\ tags d = tags d0.
Proof.
  induction ts as [|t ts IH] using rev_ind; cbv zeta.
  - cbn. repeat split.
  - cbv zeta in IH. destruct IH as (Hp & Hrs & Hrj & Hret & Htags).
    rewrite foldl_snoc.
    assert (promise_values (ts ++ [t]) =
            promise_values ts ++
            match t with PromiseTag v => [v] | _ => [] end) as ->
      by (unfold promise_values; rewrite flat_map_app; cbn;
          rewrite app_nil_r; reflexivity).
    assert (resolve_values (ts ++ [t]) =
            resolve_values ts ++
            match t with ResolveTag v => [v] | _ => [] end) as ->
      by (unfold resolve_values; rewrite flat_map_app; cbn;
          rewrite app_nil_r; reflexivity).
    assert (reject_values (ts ++ [t]) =
            reject_values ts ++
            match t with RejectTag v => [v] | _ => [] end) as ->
      by (unfold reject_values; rewrite flat_map_app; cbn;
          rewrite app_nil_r; reflexivity).
    destruct t as [v|v|v]; cbn [onTagged onTagged_promise
      onTagged_resolve onTagged_reject promise resolves rejects returns tags];
      rewrite ?app_nil_r.
    + rewrite last_snoc. repeat split; assumption.
    + repeat split; try assumption. rewrite Hrs.
      destruct (resolve_values ts) as [|x xs]; cbn [app].
      * reflexivity.
      * cbn [default]. unfold id. rewrite <- app_assoc. reflexivity.
    + repeat split; try assumption. rewrite Hrj.
      destruct (reject_values ts) as [|x xs]; cbn [app].
      * reflexivity.
      * cbn [default]. unfold id. rewrite <- app_assoc. reflexivity.
Qed.

(** X20.  A fresh doclet tagged with any sequence of the three tags, then
    handed to [newDoclet].  When the last [@promise] tag has a value, the
    doclet's [returns] is replaced by one entry, which is also what
    [doclet.promise] now holds: its type is the tag's, or [Promise] when the
    tag gave none; its description is the tag's (the empty string when it
    gave none), followed, when at least one value formats, by one list whose
    items are the formatted [@resolve] values in their order and then the
    formatted [@reject] values in theirs, however the tags were interleaved;
    and one tag [promise] is appended to the doclet's tags.  When there is no
    [@promise] tag, or the last one has no value, [newDoclet] changes
    nothing. *)
Theorem newDoclet_after_tags (d0 : Doclet) (ts : list Tagged) :
  promise d0 = None -> resolves d0 = None -> rejects d0 = None ->
  let d := foldl onTagged d0 ts in
  let items := omap (formatSymbolInfo ws (units "Resolve")) (resolve_values ts)
               ++ omap (formatSymbolInfo ws (units "Reject")) (reject_values ts)
  in
  let block := match items with
               | [] => []
               | _ :: _ => list_open ++ join list_sep items ++ list_close
               end in
  (forall v, last (promise_values ts) = Some (Some v) ->
     let value :=
       MkTagValue (Some (default (MkType [units "Promise"]) (type v)))
         (Some (or_empty (description v) ++ block)) in
     newDoclet ws d =
       MkDoclet (Some value) (resolves d) (rejects d) (Some [value])
         (Some (default [] (tags d0) ++
                [MkTag (units "promise") (units "promise") []]))) /\
  (last (promise_values ts) = None \/ last (promise_values ts) = Some None ->
   newDoclet ws d = d).
Proof.
  intros Hp0 Hrs0 Hrj0 d items block.
  destruct (tagged_fields d0 ts) as (Hp & Hrs & Hrj & Hret & Htags).
  fold d in Hp, Hrs, Hrj, Hret, Htags.
  assert (infos ws (units "Resolve") (resolves d) ++
          infos ws (units "Reject") (rejects d) = items) as Hitems.
  { unfold infos, items. rewrite Hrs, Hrj, Hrs0, Hrj0.
    destruct (resolve_values ts), (reject_values ts); reflexivity. }
  split.
  - intros v Hv value. unfold newDoclet.
    rewrite Hp, Hv. cbn [default]. unfold id. rewrite Hitems, Htags.
    subst value block. destruct (type v), items;
      cbn [default]; unfold id; rewrite ?app_nil_r; reflexivity.
  - intros Hv. unfold newDoclet. rewrite Hp.
    destruct Hv as [-> | ->]; cbn [default]; [rewrite Hp0|]; reflexivity.
Qed.

End Plugin.

(** ** The plugin run on concrete inputs, with the white space of
    ECMAScript 2016 *)

Section PluginRuns.

Import JSDoc.

#[local] Open Scope list_scope.

(** A doclet without any of the properties the plugin looks at. *)
Definition fresh_doclet : Doclet := MkDoclet None None None None None.

(** The tags of
    [@resolve {Object} The result.], [@promise], [@reject {Error err}],
    [@resolve] with a blank value, [@promise {Promise<Object>} Settles.]. *)
Definition example_tags : list Tagged :=
  [ResolveTag (Some (units "{Object} The result."));
   PromiseTag None;
   RejectTag (Some (units "{Error err}"));
   ResolveTag (Some (units "  "));
   PromiseTag (Some (MkTagValue (Some (MkType [units "Promise<Object>"]))
                       (Some (units "Settles."))))].

Example formatDescription_runs :
  formatDescription WhiteSpace (units "{Object} The result.") =
    Some (units "`Object`&nbsp;&nbsp;" ++ em_dash ++
          units "&nbsp;&nbsp;The result.") /\
  formatDescription WhiteSpace (units "{Error err} ") =
    Some (units "`{@link err|Error}`") /\
  formatDescription WhiteSpace (units "when done") =
    Some (em_dash ++ units " &nbsp;&nbsp;" ++ em_dash ++
          units "&nbsp;&nbsp;when done") /\
  formatDescription WhiteSpace (units "{}") = None /\
  formatDescription WhiteSpace (units "first" ++ [10%N] ++ units "second") =
    None /\
  formatDescription WhiteSpace
    (units "{a" ++ [10%N] ++ units "b} after") =
    Some (units "`a" ++ [10%N] ++ units "b`&nbsp;&nbsp;" ++ em_dash ++
          units "&nbsp;&nbsp;after").
Proof. repeat split; vm_compute; reflexivity. Qed.

Lemma formatDescription_typed_witness :
  let name := units "Error" in
  let link := units "err" in
  let more := units "and more" in
  let rest := units " The failure.  " in
  name <> [] /\
  without 32 name = true /\ without 125 name = true /\
  without 32 link = true /\ without 125 link = true /\
  without 125 more = true /\ no_terminator rest = true /\
  formatDescription WhiteSpace (units "{Error err and more} The failure.  ") =
    Some (units "`{@link err|Error}`&nbsp;&nbsp;" ++ em_dash ++
          units "&nbsp;&nbsp;The failure.").
Proof.
  assert (units "Error" <> []) as Hne by discriminate.
  repeat (split; [first [exact Hne|reflexivity]|]).
  exact (proj2 (proj2 (formatDescription_typed WhiteSpace (units "Error")
                         (units "err") (units "and more")
                         (units " The failure.  ") Hne eq_refl eq_refl
                         eq_refl eq_refl eq_refl eq_refl))).
Defined.

Lemma formatDescription_untyped_witness :
  let d := units "when done " in
  leading_group d = None /\ no_terminator d = true /\
  trim WhiteSpace d <> [] /\
  formatDescription WhiteSpace d =
    Some ((em_dash ++ units " ") ++ text_prefix ++ units "when done").
Proof.
  assert (trim WhiteSpace (units "when done ") <> []) as Hne
    by (vm_compute; discriminate).
  repeat (split; [first [exact Hne|reflexivity]|]).
  exact (proj1 (formatDescription_untyped WhiteSpace (units "when done ")
                  [] []) eq_refl eq_refl Hne).
Defined.

Lemma formatSymbolInfo_result_witness :
  let l := [9%N; 32%N] in
  let r := [160%N; 10%N] in
  let d := units "{Object} The result." in
  forallb WhiteSpace l = true /\ forallb WhiteSpace r = true /\
  formatSymbolInfo WhiteSpace (units "Resolve") (Some (l ++ d ++ r)) =
  formatSymbolInfo WhiteSpace (units "Resolve") (Some d).
Proof.
  repeat (split; [reflexivity|]).
  exact (proj1 (proj2 (proj2 (proj2 (proj2
           (formatSymbolInfo_result WhiteSpace (units "Resolve")
              (units "{Object} The result.") [9%N; 32%N] [160%N; 10%N])))))
           eq_refl eq_refl).
Defined.

Lemma newDoclet_after_tags_witness :
  promise fresh_doclet = None /\ resolves fresh_doclet = None /\
  rejects fresh_doclet = None /\
  last (promise_values example_tags) =
    Some (Some (MkTagValue (Some (MkType [units "Promise<Object>"]))
                  (Some (units "Settles.")))) /\
  returns (newDoclet WhiteSpace (foldl onTagged fresh_doclet example_tags)) =
    Some [MkTagValue (Some (MkType [units "Promise<Object>"]))
            (Some (units "Settles." ++ list_open ++
                   caption_html (units "Resolve") ++
                   units "`Object`&nbsp;&nbsp;" ++ em_dash ++
                   units "&nbsp;&nbsp;The result." ++
                   list_sep ++
                   caption_html (units "Reject") ++
                   units "`{@link err|Error}`" ++
                   list_close))].
Proof.
  repeat (split; [reflexivity|]).
  exact (f_equal returns
           (proj1 (newDoclet_after_tags WhiteSpace fresh_doclet example_tags
                     eq_refl eq_refl eq_refl) _ eq_refl)).
Defined.

End PluginRuns.
